(** * MoCommander: the undo engine of [src/main.py] and what drives it

    A shallow embedding of [UndoManager] (history, recording calls, [undo],
    [cleanup]), of [FileOperations] (src/core/file_ops.py) and of the
    handlers of the application that call them, over a tree-shaped model of
    the file system; and of the sorting of the file panel
    (src/ui/panels.py); followed by their properties.

    Conventions of the model:
    - a [pathlib.Path] is the list of its components from the root, already
      normalised (no "." or ".." components); [Path.name] is the last one;
    - a file carries its byte content as a string; time stamps, permissions
      and links are not represented;
    - the calls into [pathlib], [os] and [shutil] follow the POSIX rules;
      each one either completes or raises and leaves the file system as it
      was (the specification takes the underlying calls to fail atomically),
      with one exception: [shutil.copytree] into a subdirectory of its own
      source copies until the interpreter or the system stops it, and what
      it has written by then stays at the destination;
      the exception a call raises is kept, since [undo] prints it and
      [except OSError] selects on its class;
    - a text the user types is followed where it is a plain name (one
      component); the depth of the stack is a parameter;
    - the manager object and the disk form the world a computation runs
      in; [try]/[except] hands the handler the world as the failing call
      left it;
    - the dialogs, the notifications and the redrawing of the panels are
      left out: a handler is given what the user entered or answered. *)

From stdpp Require Import gmap strings list fin_maps pretty.
From Stdlib Require Import ZArith Lia Sorted Ascii.
From Stdlib Require QArith.

Open Scope string_scope.
Open Scope list_scope.

(** ** The file system *)

Definition path := list string.

Local Unset Elimination Schemes.
Inductive node :=
| File (data : string)
| Dir (entries : gmap string node).
Local Set Elimination Schemes.

(** The whole file system is the root directory's node. *)
Definition fsys := node.

Definition empty_dir : node := Dir ∅.

(** [Path.name]: the final component, the empty string for the root. *)
Definition name (p : path) : string := List.last p "".

(** [Path.parent]. *)
Definition parent (p : path) : path := removelast p.

(** The node a path leads to, if any. *)
Fixpoint node_at (n : node) (p : path) : option node :=
  match p with
  | [] => Some n
  | c :: q =>
      match n with
      | Dir es => match es !! c with Some n' => node_at n' q | None => None end
      | File _ => None
      end
  end.

(** Store [x] at [p]; the parent of [p] must be an existing directory, and
    the root is never replaced. *)
Fixpoint put (n : node) (p : path) (x : node) : option node :=
  match p with
  | [] => None
  | c :: q =>
      match n with
      | Dir es =>
          match q with
          | [] => Some (Dir (<[c:=x]> es))
          | _ :: _ =>
              match es !! c with
              | Some n' =>
                  match put n' q x with
                  | Some n'' => Some (Dir (<[c:=n'']> es))
                  | None => None
                  end
              | None => None
              end
          end
      | File _ => None
      end
  end.

(** Store [x] at [p], creating the missing ancestors ([os.makedirs]); fails
    when an ancestor is a regular file. *)
Fixpoint mkput (n : node) (p : path) (x : node) : option node :=
  match p with
  | [] => Some x
  | c :: q =>
      match n with
      | Dir es =>
          match mkput (default empty_dir (es !! c)) q x with
          | Some n'' => Some (Dir (<[c:=n'']> es))
          | None => None
          end
      | File _ => None
      end
  end.

(** Detach the node at [p]; the root cannot be detached. *)
Fixpoint remove (n : node) (p : path) : option node :=
  match p with
  | [] => None
  | c :: q =>
      match n with
      | Dir es =>
          match q with
          | [] => match es !! c with
                  | Some _ => Some (Dir (delete c es))
                  | None => None
                  end
          | _ :: _ =>
              match es !! c with
              | Some n' =>
                  match remove n' q with
                  | Some n'' => Some (Dir (<[c:=n'']> es))
                  | None => None
                  end
              | None => None
              end
          end
      | File _ => None
      end
  end.

(** [Path.exists()] and [Path.is_dir()]. *)
Definition exists_ (fs : fsys) (p : path) : bool :=
  match node_at fs p with Some _ => true | None => false end.

Definition is_dir (fs : fsys) (p : path) : bool :=
  match node_at fs p with Some (Dir _) => true | _ => false end.

(** [a] is an ancestor of [b], or [b] itself. *)
Fixpoint is_prefix (a b : path) : bool :=
  match a, b with
  | [], _ => true
  | x :: a', y :: b' => if decide (x = y) then is_prefix a' b' else false
  | _ :: _, [] => false
  end.

(** The number of entries of the directory at [p] (0 when there is none). *)
Definition entry_count (fs : fsys) (p : path) : nat :=
  match node_at fs p with
  | Some (Dir es) => size es
  | _ => 0
  end.

(** ** Exceptions *)

Inductive exn :=
| FileNotFoundError
| FileExistsError
| IsADirectoryError
| NotADirectoryError
| DirectoryNotEmpty      (* OSError, ENOTEMPTY *)
| InvalidArgument        (* OSError, EINVAL or EBUSY *)
| SameFileError          (* shutil.SameFileError *)
| ShutilError            (* shutil.Error *)
| RecursionError
| AttributeError
| IndexError.

(** Every exception of the file-system layer is an [OSError]; the three
    others are not. *)
Definition is_OSError (e : exn) : bool :=
  match e with
  | RecursionError | AttributeError | IndexError => false
  | _ => true
  end.

(** The text [str(e)] contributes to a message (abridged: the operating
    system's wording and the offending path are left out). *)
Definition exn_text (e : exn) : string :=
  match e with
  | FileNotFoundError => "No such file or directory"
  | FileExistsError => "File exists"
  | IsADirectoryError => "Is a directory"
  | NotADirectoryError => "Not a directory"
  | DirectoryNotEmpty => "Directory not empty"
  | InvalidArgument => "Invalid argument"
  | SameFileError => "are the same file"
  | ShutilError => "Destination path already exists"
  | RecursionError => "maximum recursion depth exceeded"
  | AttributeError => "'NoneType' object has no attribute 'exists'"
  | IndexError => "pop from empty list"
  end.

Inductive res (A : Type) :=
| Ok (a : A)
| Raise (e : exn).
Arguments Ok {A} a.
Arguments Raise {A} e.

Definition ok_or {A} (e : exn) (o : option A) : res A :=
  match o with Some a => Ok a | None => Raise e end.

(** ** The library calls the engine uses *)

(** [Path.unlink()]. *)
Definition unlink (fs : fsys) (p : path) : res fsys :=
  match node_at fs p with
  | None => Raise FileNotFoundError
  | Some (Dir _) => Raise IsADirectoryError
  | Some (File _) => ok_or InvalidArgument (remove fs p)
  end.

(** [shutil.rmtree(p)]. *)
Definition rmtree (fs : fsys) (p : path) : res fsys :=
  match node_at fs p with
  | None => Raise FileNotFoundError
  | Some (File _) => Raise NotADirectoryError
  | Some (Dir _) => ok_or InvalidArgument (remove fs p)
  end.

(** [Path.rmdir()]: only an empty directory goes. *)
Definition rmdir (fs : fsys) (p : path) : res fsys :=
  match node_at fs p with
  | None => Raise FileNotFoundError
  | Some (File _) => Raise NotADirectoryError
  | Some (Dir es) =>
      if Nat.eqb (size es) 0 then ok_or InvalidArgument (remove fs p)
      else Raise DirectoryNotEmpty
  end.

(** [shutil.copy2(src, dst)]: a directory as [dst] receives the file under
    the source's name; an existing file is overwritten. *)
Definition copy2 (fs : fsys) (src dst : path) : res fsys :=
  let dst' := if is_dir fs dst then dst ++ [name src] else dst in
  match node_at fs src with
  | None => Raise FileNotFoundError
  | Some (Dir _) => Raise IsADirectoryError
  | Some (File d) =>
      if decide (src = dst') then Raise SameFileError
      else match node_at fs dst' with
           | Some (Dir _) => Raise IsADirectoryError
           | _ => ok_or FileNotFoundError (put fs dst' (File d))
           end
  end.

(** [os.rename(src, dst)] with the POSIX rules: a file replaces a file, a
    directory replaces an empty directory, nothing moves into itself. *)
Definition os_rename (fs : fsys) (src dst : path) : res fsys :=
  match node_at fs src with
  | None => Raise FileNotFoundError
  | Some n =>
      let relink :=
        match remove fs src with
        | Some fs1 => ok_or FileNotFoundError (put fs1 dst n)
        | None => Raise InvalidArgument
        end in
      if decide (src = dst) then Ok fs
      else if is_prefix src dst then Raise InvalidArgument
      else match n, node_at fs dst with
           | File _, Some (Dir _) => Raise IsADirectoryError
           | Dir _, Some (File _) => Raise NotADirectoryError
           | Dir _, Some (Dir es) =>
               if Nat.eqb (size es) 0 then relink else Raise DirectoryNotEmpty
           | _, _ => relink
           end
  end.

(** ** World state and the monad of the engine

    The engine mutates two things: the manager object and the disk.  A
    computation returns a value or raises, and hands on the world as it
    stands at that point. *)

Inductive ActionType := COPY | MOVE | DELETE | MKDIR | RENAME.

#[global] Instance ActionType_eq_dec : EqDecision ActionType.
Proof. solve_decision. Defined.

Record UndoAction := mkAction {
  action_type : ActionType;
  source : path;
  destination : option path;
  backup_path : option path
}.

(** [tmpdir] is the value of [tempfile.gettempdir()] when the manager was
    built; [self.backup_dir] is derived from it, as in [__init__]. *)
Record UndoManager := mkManager {
  history : list UndoAction;
  max_history : Z;
  tmpdir : path
}.

Definition backup_dir (m : UndoManager) : path := tmpdir m ++ ["mocommander_undo"].

Record World := mkWorld {
  mgr : UndoManager;
  disk : fsys
}.

Definition M (A : Type) : Type := World -> res A * World.

Definition ret {A} (a : A) : M A := fun w => (Ok a, w).

Definition bind {A B} (c : M A) (k : A -> M B) : M B :=
  fun w => match c w with
           | (Ok a, w') => k a w'
           | (Raise e, w') => (Raise e, w')
           end.

Definition raise {A} (e : exn) : M A := fun w => (Raise e, w).

(** [try: c  except Exception as e: h e]. *)
Definition try_except {A} (c : M A) (h : exn -> M A) : M A :=
  fun w => match c w with
           | (Ok a, w') => (Ok a, w')
           | (Raise e, w') => h e w'
           end.

Notation "x <~ c ;; k" := (bind c (fun x => k))
  (at level 100, c at next level, right associativity).
Notation "c ;;; k" := (bind c (fun _ => k))
  (at level 100, right associativity).

Definition get_history : M (list UndoAction) :=
  fun w => (Ok (history (mgr w)), w).

Definition set_history (h : list UndoAction) : M unit :=
  fun w => (Ok tt, mkWorld (mkManager h (max_history (mgr w)) (tmpdir (mgr w))) (disk w)).

Definition get_manager : M UndoManager := fun w => (Ok (mgr w), w).

(** A query of the disk. *)
Definition ask {A} (q : fsys -> A) : M A := fun w => (Ok (q (disk w)), w).

(** A library call on the disk. *)
Definition call (f : fsys -> res fsys) : M unit :=
  fun w => match f (disk w) with
           | Ok fs' => (Ok tt, mkWorld (mgr w) fs')
           | Raise e => (Raise e, w)
           end.

(** An attribute access on an [Optional[Path]] field: [None] has none. *)
Definition the_path (o : option path) : M path :=
  match o with Some p => ret p | None => raise AttributeError end.

(** ** The interpreter and the operating system

    Some things the engine meets depend on limits set outside the program
    (the recursion limit of the interpreter, the longest path the
    operating system takes): what a copy of a directory into one of its
    own subdirectories has left behind when it gives up, how many calls
    may be nested, and what becomes of a loop that nests deeper.  They are
    taken as given. *)
Class Interpreter := {
  (** the exception [shutil.copytree] ends with when it copies into its
      own subtree, and the entries it has put at the destination by then *)
  nested_copy : fsys -> path -> path -> exn * gmap string node;
  (** the number of nested calls of one function for which the stack has
      room, with all the calls each of them makes in turn *)
  stack_room : nat;
  (** what the loop over a selection does from the call on for which the
      stack has no room, given the items left and the two counters (the
      calls it makes start to fail, and [RecursionError] is raised) *)
  stack_overflow : list path -> nat -> nat -> M (option (nat * nat))
}.

Section Engine.

Context {interpreter : Interpreter}.

(** What is left of [b] below [a], when [a] is an ancestor of [b] or [b]
    itself. *)
Fixpoint strip_prefix (a b : path) : option path :=
  match a, b with
  | [], _ => Some b
  | x :: a', y :: b' => if decide (x = y) then strip_prefix a' b' else None
  | _ :: _, [] => None
  end.

(** [dst] lies below a subdirectory that the directory [src] has already:
    a copy of [src] to [dst] then meets, in that subdirectory, what it has
    itself created, and copies it again and again. *)
Definition into_itself (fs : fsys) (src dst : path) : bool :=
  match strip_prefix src dst with
  | Some (c :: _) => is_dir fs (src ++ [c])
  | _ => false
  end.

(** [shutil.copytree(src, dst)] without [dirs_exist_ok]: [dst] must not
    exist, its missing ancestors are created, and it receives the entries
    [src] had when the copy began (so also when [dst] is a new entry of
    [src] itself).  A copy into its own subtree gives up in the end. *)
Definition copytree (fs : fsys) (src dst : path) : res fsys :=
  match node_at fs src with
  | None => Raise FileNotFoundError
  | Some (File _) => Raise NotADirectoryError
  | Some (Dir es) =>
      if exists_ fs dst then Raise FileExistsError
      else if into_itself fs src dst then
        match mkput fs dst empty_dir with
        | Some _ => Raise (fst (nested_copy fs src dst))
        | None => Raise NotADirectoryError
        end
      else ok_or NotADirectoryError (mkput fs dst (Dir es))
  end.

(** The disk a [copytree] that raises leaves: as it was, except after a
    copy into its own subtree, which has made the destination by then and
    filled it with what the interpreter let it copy. *)
Definition copytree_leaves (fs : fsys) (src dst : path) : fsys :=
  if is_dir fs src && negb (exists_ fs dst) && into_itself fs src dst then
    default fs (mkput fs dst (Dir (snd (nested_copy fs src dst))))
  else fs.

(** The call of [shutil.copytree] on the disk. *)
Definition shutil_copytree (src dst : path) : M unit :=
  fun w => match copytree (disk w) src dst with
           | Ok fs' => (Ok tt, mkWorld (mgr w) fs')
           | Raise e => (Raise e, mkWorld (mgr w) (copytree_leaves (disk w) src dst))
           end.

(** ** FileOperations (src/core/file_ops.py) *)

(** [FileOperations.delete_file]. *)
Definition delete_file (p : path) : M bool :=
  try_except
    (d <~ ask (fun fs => is_dir fs p) ;;
     (if d then call (fun fs => rmtree fs p) else call (fun fs => unlink fs p)) ;;;
     ret true)
    (fun _ => ret false).

(** ** UndoManager (src/main.py) *)

(** [Path.mkdir(exist_ok=True)]. *)
Definition mkdir_exist_ok (fs : fsys) (p : path) : res fsys :=
  match node_at fs p with
  | Some (Dir _) => Ok fs
  | Some (File _) => Raise FileExistsError
  | None => ok_or FileNotFoundError (put fs p empty_dir)
  end.

(** [UndoManager.__init__]. *)
Definition init (max : Z) (tmp : path) (fs : fsys) : res unit * World :=
  call (fun fs => mkdir_exist_ok fs (tmp ++ ["mocommander_undo"]))
       (mkWorld (mkManager [] max tmp) fs).

(** [UndoManager._add_action]: append, and beyond [max_history] pop the
    head entry and delete its backup if it has one and it exists. *)
Definition _add_action (action : UndoAction) : M unit :=
  h <~ get_history ;;
  set_history (h ++ [action]) ;;;
  m <~ get_manager ;;
  if (Z.of_nat (length (history m)) >? max_history m)%Z then
    match history m with
    | oldest :: rest =>
        set_history rest ;;;
        match backup_path oldest with
        | Some bp =>
            e <~ ask (fun fs => exists_ fs bp) ;;
            if e then
              d <~ ask (fun fs => is_dir fs bp) ;;
              if d then call (fun fs => rmtree fs bp)
              else call (fun fs => unlink fs bp)
            else ret tt
        | None => ret tt
        end
    | [] => raise IndexError (* pop from an empty list: never reached *)
    end
  else ret tt.

Definition record_copy (src dst : path) : M unit :=
  _add_action (mkAction COPY src (Some dst) None).

Definition record_move (src dst : path) : M unit :=
  _add_action (mkAction MOVE src (Some dst) None).

(** The name of the backup: the history length, an underscore, the name. *)
Definition backup_name (h : list UndoAction) (p : path) : string :=
  pretty (length h) +:+ "_" +:+ name p.

(** [UndoManager.record_delete]: the whole body is inside the [try]; any
    exception makes it answer [False]. *)
Definition record_delete (p : path) : M bool :=
  try_except
    (h <~ get_history ;;
     m <~ get_manager ;;
     let bp := backup_dir m ++ [backup_name h p] in
     d <~ ask (fun fs => is_dir fs p) ;;
     (if d then shutil_copytree p bp
      else call (fun fs => copy2 fs p bp)) ;;;
     _add_action (mkAction DELETE p None (Some bp)) ;;;
     ret true)
    (fun _ => ret false).

Definition record_mkdir (p : path) : M unit :=
  _add_action (mkAction MKDIR p None None).

Definition record_rename (old_path new_path : path) : M unit :=
  _add_action (mkAction RENAME old_path (Some new_path) None).

Definition can_undo : M bool :=
  h <~ get_history ;; ret (0 <? length h)%nat.

(** [shutil.move(src, dst)]: into [dst] when it is a directory, else onto
    it; when the rename is refused, copy and delete. *)
Definition shutil_move (src dst : path) : M unit :=
  let relocate (real_dst : path) : M unit :=
    try_except
      (call (fun fs => os_rename fs src real_dst))
      (fun e =>
         if is_OSError e then
           d <~ ask (fun fs => is_dir fs src) ;;
           if d then
             if is_prefix src dst then raise ShutilError
             else shutil_copytree src real_dst ;;;
                  call (fun fs => rmtree fs src)
           else call (fun fs => copy2 fs src real_dst) ;;;
                call (fun fs => unlink fs src)
         else raise e) in
  d <~ ask (fun fs => is_dir fs dst) ;;
  if d then
    if decide (src = dst) then call (fun fs => os_rename fs src dst)
    else
      let real_dst := dst ++ [name src] in
      e <~ ask (fun fs => exists_ fs real_dst) ;;
      if e then raise ShutilError else relocate real_dst
  else relocate dst.

(** The body of the [try] block of [undo], one branch per action type. *)
Definition reverse_action (action : UndoAction) : M (bool * string) :=
  match action_type action with
  | COPY =>
      dst <~ the_path (destination action) ;;
      e <~ ask (fun fs => exists_ fs dst) ;;
      (if e then
         d <~ ask (fun fs => is_dir fs dst) ;;
         if d then call (fun fs => rmtree fs dst)
         else call (fun fs => unlink fs dst)
       else ret tt) ;;;
      ret (true, "Undid copy: removed " +:+ name dst)
  | MOVE =>
      dst <~ the_path (destination action) ;;
      e <~ ask (fun fs => exists_ fs dst) ;;
      if e then
        shutil_move dst (source action) ;;;
        ret (true, "Undid move: restored " +:+ name (source action))
      else ret (false, "Cannot undo: " +:+ name dst +:+ " no longer exists")
  | DELETE =>
      match backup_path action with
      | Some bp =>
          e <~ ask (fun fs => exists_ fs bp) ;;
          if e then
            d <~ ask (fun fs => is_dir fs bp) ;;
            (if d then
               shutil_copytree bp (source action) ;;;
               call (fun fs => rmtree fs bp)
             else
               call (fun fs => copy2 fs bp (source action)) ;;;
               call (fun fs => unlink fs bp)) ;;;
            ret (true, "Undid delete: restored " +:+ name (source action))
          else ret (false, "Cannot undo: backup not found")
      | None => ret (false, "Cannot undo: backup not found")
      end
  | MKDIR =>
      e <~ ask (fun fs => exists_ fs (source action)) ;;
      d <~ ask (fun fs => is_dir fs (source action)) ;;
      if e && d then
        try_except
          (call (fun fs => rmdir fs (source action)) ;;;
           ret (true, "Undid mkdir: removed " +:+ name (source action)))
          (fun x =>
             if is_OSError x
             then ret (false, "Cannot undo: " +:+ name (source action) +:+ " is not empty")
             else raise x)
      else ret (false, "Cannot undo: " +:+ name (source action) +:+ " no longer exists")
  | RENAME =>
      dst <~ the_path (destination action) ;;
      e <~ ask (fun fs => exists_ fs dst) ;;
      if e then
        call (fun fs => os_rename fs dst (source action)) ;;;
        ret (true, "Undid rename: restored " +:+ name (source action))
      else ret (false, "Cannot undo: " +:+ name dst +:+ " no longer exists")
  end.

(** [self.history.pop()] on a non-empty list. *)
Definition pop_tail (h : list UndoAction) : option (UndoAction * list UndoAction) :=
  match h with
  | [] => None
  | a :: t => Some (List.last t a, removelast h)
  end.

(** [UndoManager.undo]: the entry is popped before the [try]; the final
    [return False, "Unknown action type"] of the source cannot be reached,
    every action type having its branch. *)
Definition undo : M (bool * string) :=
  h <~ get_history ;;
  match pop_tail h with
  | None => ret (false, "Nothing to undo")
  | Some (action, rest) =>
      set_history rest ;;;
      try_except (reverse_action action)
                 (fun e => ret (false, "Undo failed: " +:+ exn_text e))
  end.

(** [shutil.rmtree(p, ignore_errors=True)]. *)
Definition rmtree_ignore_errors (p : path) : M unit :=
  try_except (call (fun fs => rmtree fs p)) (fun _ => ret tt).

(** [UndoManager.cleanup]. *)
Definition cleanup : M unit :=
  m <~ get_manager ;;
  e <~ ask (fun fs => exists_ fs (backup_dir m)) ;;
  if e then rmtree_ignore_errors (backup_dir m) else ret tt.

(** * Notions used in the statements *)

(** ** Managers, worlds and single steps of the engine *)

Definition set_mgr_history (m : UndoManager) (h : list UndoAction) : UndoManager :=
  mkManager h (max_history m) (tmpdir m).

(** The world [w] with the history replaced by [h]. *)
Definition with_history (w : World) (h : list UndoAction) : World :=
  mkWorld (set_mgr_history (mgr w) h) (disk w).

(** A computation that leaves the manager object as it found it. *)
Definition keeps_mgr {A} (c : M A) : Prop :=
  forall w, mgr (snd (c w)) = mgr w.

(** The reversal of one action as [undo] runs it: inside the [try]. *)
Definition reversal (a : UndoAction) : M (bool * string) :=
  try_except (reverse_action a) (fun e => ret (false, "Undo failed: " +:+ exn_text e)).

(** The clean-up [_add_action] performs for an evicted entry's backup. *)
Definition discard (fs : fsys) (bp : path) : res fsys :=
  if exists_ fs bp then
    if is_dir fs bp then rmtree fs bp else unlink fs bp
  else Ok fs.

(** The history [_add_action] leaves: the entry at the tail, the head
    dropped when the bound is exceeded. *)
Definition appended (m : UndoManager) (a : UndoAction) : list UndoAction :=
  let h := history m ++ [a] in
  if (Z.of_nat (length h) >? max_history m)%Z then tail h else h.

(** The backup path [record_delete] computes for [p], and the copy it
    attempts: [copytree] for a directory, [copy2] otherwise.  [undo] restores
    a backup with the same pair of calls. *)
Definition backup_target (m : UndoManager) (p : path) : path :=
  backup_dir m ++ [backup_name (history m) p].

Definition backup_copy (fs : fsys) (p bp : path) : res fsys :=
  if is_dir fs p then copytree fs p bp else copy2 fs p bp.

(** The disk a backup copy that fails leaves. *)
Definition backup_leaves (fs : fsys) (p bp : path) : fsys :=
  if is_dir fs p then copytree_leaves fs p bp else fs.

(** ** The class invariant

    Only Delete entries own a backup, and every backup lies directly in
    the backup directory. *)

Definition in_store (m : UndoManager) (a : UndoAction) : Prop :=
  forall bp, backup_path a = Some bp ->
    action_type a = DELETE /\ exists n, bp = backup_dir m ++ [n].

Definition backups_in_store (m : UndoManager) : Prop :=
  Forall (in_store m) (history m).

(** ** Sessions *)

(** The five recording calls. *)
Inductive request :=
| RecordCopy (src dst : path)
| RecordMove (src dst : path)
| RecordDelete (p : path)
| RecordMkdir (p : path)
| RecordRename (old_path new_path : path).

Definition record (q : request) : M unit :=
  match q with
  | RecordCopy s d => record_copy s d
  | RecordMove s d => record_move s d
  | RecordDelete p => record_delete p ;;; ret tt
  | RecordMkdir p => record_mkdir p
  | RecordRename o n => record_rename o n
  end.

(** What happens to a manager during a run of the application: a
    recording call, an [undo] call, or the application (or anything else)
    changing the disk in between, here into [d]. *)
Inductive event :=
| Record (q : request)
| Undo
| Outside (d : fsys).

Definition step (e : event) (w : World) : World :=
  match e with
  | Record q => snd (record q w)
  | Undo => snd (undo w)
  | Outside d => mkWorld (mgr w) d
  end.

Definition run (es : list event) (w : World) : World :=
  fold_left (fun w e => step e w) es w.

(** A session without [undo] calls. *)
Definition recording (e : event) : Prop :=
  match e with Undo => False | _ => True end.

(** The entry a recording call appends in world [w]; [record_delete]
    appends none when its backup copy fails. *)
Definition logged (q : request) (w : World) : option UndoAction :=
  match q with
  | RecordCopy s d => Some (mkAction COPY s (Some d) None)
  | RecordMove s d => Some (mkAction MOVE s (Some d) None)
  | RecordDelete p =>
      match backup_copy (disk w) p (backup_target (mgr w) p) with
      | Ok _ => Some (mkAction DELETE p None (Some (backup_target (mgr w) p)))
      | Raise _ => None
      end
  | RecordMkdir p => Some (mkAction MKDIR p None None)
  | RecordRename o n => Some (mkAction RENAME o (Some n) None)
  end.

(** The entries recorded during a session, in recording order. *)
Fixpoint log (es : list event) (w : World) : list UndoAction :=
  match es with
  | [] => []
  | e :: es' =>
      match e with
      | Record q => match logged q w with Some a => [a] | None => [] end
      | _ => []
      end ++ log es' (step e w)
  end.

(** The number of recording calls of a session, and the sessions in which
    each of them records (no backup copy fails). *)
Fixpoint count_records (es : list event) : nat :=
  match es with
  | [] => 0
  | Record _ :: es' => S (count_records es')
  | _ :: es' => count_records es'
  end.

Fixpoint all_recorded (es : list event) (w : World) : Prop :=
  match es with
  | [] => True
  | e :: es' =>
      match e with
      | Record q => logged q w <> None
      | _ => True
      end /\ all_recorded es' (step e w)
  end.

(** The last [n] elements of a list. *)
Definition lastn {A} (n : nat) (l : list A) : list A := drop (length l - n) l.

(** ** The backup store and its owners *)

(** Neither path is above the other. *)
Definition disjoint (a b : path) : Prop :=
  is_prefix a b = false /\ is_prefix b a = false.

(** The directory [b] holds no entry under [fs'] that it does not hold
    under [fs]. *)
Definition store_le (b : path) (fs' fs : fsys) : Prop :=
  forall n, exists_ fs' (b ++ [n]) = true -> exists_ fs (b ++ [n]) = true.

(** A computation that adds no entry to the directory [b]. *)
Definition shrinks {A} (b : path) (c : M A) : Prop :=
  forall w, store_le b (disk (snd (c w))) (disk w).

(** Every backup on disk is the backup of an entry of the history. *)
Definition owned (w : World) : Prop :=
  forall n, exists_ (disk w) (backup_dir (mgr w) ++ [n]) = true ->
    exists a, a ∈ history (mgr w) /\ backup_path a = Some (backup_dir (mgr w) ++ [n]).

Definition sources_outside (m : UndoManager) : Prop :=
  Forall (fun a => disjoint (source a) (backup_dir m)) (history m).

(** The invariant of a session: the class invariant, every recorded source
    outside the backup directory, every backup on disk owned by an entry. *)
Definition session_inv (w : World) : Prop :=
  backups_in_store (mgr w) /\ sources_outside (mgr w) /\ owned w.

(** The path a recording call stores as [source]. *)
Definition request_source (q : request) : path :=
  match q with
  | RecordCopy s _ => s
  | RecordMove s _ => s
  | RecordDelete p => p
  | RecordMkdir p => p
  | RecordRename o _ => o
  end.

(** The well-behaved sessions: recorded sources lie outside the backup
    directory, nothing but the manager adds entries to it, and no Delete
    reversal raises. *)
Definition tame_event (e : event) (w : World) : Prop :=
  match e with
  | Record q => disjoint (request_source q) (backup_dir (mgr w))
  | Outside d => store_le (backup_dir (mgr w)) d (disk w)
  | Undo =>
      forall a rest, pop_tail (history (mgr w)) = Some (a, rest) ->
        action_type a = DELETE ->
        exists r, fst (reverse_action a (with_history w rest)) = Ok r
  end.

Fixpoint tame (es : list event) (w : World) : Prop :=
  match es with
  | [] => True
  | e :: es' => tame_event e w /\ tame es' (step e w)
  end.

(** The number of Delete entries of a history. *)
Definition is_delete (a : UndoAction) : bool :=
  match action_type a with DELETE => true | _ => false end.

Fixpoint count_deletes (h : list UndoAction) : nat :=
  match h with
  | [] => 0
  | a :: t => (if is_delete a then 1 else 0) + count_deletes t
  end.

(** The name under which an entry's backup is stored. *)
Definition store_name (a : UndoAction) : option string :=
  match backup_path a with Some bp => Some (name bp) | None => None end.

(** ** Concrete disks and sessions *)

Definition store_ex : path := ["tmp"; "mocommander_undo"].

(** Four files called x in four directories, and an empty temporary
    directory. *)
Definition disk_files : fsys :=
  Dir {[ "tmp" := Dir ∅;
         "a" := Dir {[ "x" := File "A" ]};
         "b" := Dir {[ "x" := File "B" ]};
         "c" := Dir {[ "x" := File "C" ]};
         "d" := Dir {[ "x" := File "D" ]} ]}.

(** A directory holding one file, and an empty one. *)
Definition disk_dirs : fsys :=
  Dir {[ "tmp" := Dir ∅;
         "d" := Dir {[ "f" := File "F" ]};
         "e" := Dir ∅ ]}.

(** A backup directory that still holds a directory 0_x from an earlier
    run. *)
Definition disk_leftover : fsys :=
  Dir {[ "tmp" := Dir {[ "mocommander_undo" :=
           Dir {[ "0_x" := Dir {[ "y" := Dir {[ "x" := File "data" ]} ]} ]} ]} ]}.

(** Three files and a directory, all called x, and an empty temporary
    directory. *)
Definition disk_mixed : fsys :=
  Dir {[ "tmp" := Dir ∅;
         "a" := Dir {[ "x" := File "A" ]};
         "b" := Dir {[ "x" := File "B" ]};
         "c" := Dir {[ "x" := Dir {[ "f" := File "C" ]} ]};
         "d" := Dir {[ "x" := File "D" ]} ]}.

(** Managers built on these disks. *)
Definition world_files (max : Z) : World := snd (init max ["tmp"] disk_files).

Definition world_dirs : World := snd (init 50 ["tmp"] disk_dirs).

Definition world_leftover : World := snd (init 50 ["tmp"] disk_leftover).

Definition delete_entry (p : path) (n : string) : UndoAction :=
  mkAction DELETE p None (Some (store_ex ++ [n])).

(** Delete an item the way the application does: back it up, then remove
    it. *)
Definition delete_item (p : path) : M bool :=
  record_delete p ;;; delete_file p.

Definition three_deleted : World :=
  snd ((delete_item ["a"; "x"] ;;; delete_item ["b"; "x"] ;;; delete_item ["c"; "x"])
         (world_files 2)).

Definition three_deleted_mixed : World :=
  snd ((delete_item ["a"; "x"] ;;; delete_item ["b"; "x"] ;;; delete_item ["c"; "x"])
         (snd (init 2 ["tmp"] disk_mixed))).

Definition manager_ex : UndoManager := mkManager [] 3 ["tmp"].

Definition copy_ex : UndoAction := mkAction COPY ["a"; "x"] (Some ["b"; "y"]) None.

Definition mkdir_ex : UndoAction := mkAction MKDIR ["d"] None None.

Definition rename_ex : UndoAction := mkAction RENAME ["c"; "x"] (Some ["c"; "z"]) None.

Definition session_ex : list event :=
  [ Record (RecordDelete ["a"; "x"]);
    Record (RecordCopy ["b"; "x"] ["b"; "y"]);
    Outside disk_dirs;
    Record (RecordMkdir ["d"; "new"]);
    Record (RecordDelete ["d"]) ].

Definition tame_ex : list event :=
  [ Record (RecordDelete ["a"; "x"]);
    Record (RecordMkdir ["b"; "new"]);
    Undo;
    Undo ].

Definition world_mkdir : World := snd (record_mkdir ["d"] world_dirs).

Definition world_copied : World :=
  snd (record_copy ["a"; "x"] ["a"; "gone"] (world_files 50)).

(** * The other file operations and the handlers that call the engine *)

(** ** FileOperations (src/core/file_ops.py), continued *)

(** A library call whose outcome on the disk is left open: it returns or
    raises, and may have changed the disk either way. *)
Definition fs_effect : Type := fsys -> res unit * fsys.

Definition effect (f : fs_effect) : M unit :=
  fun w => let '(r, fs') := f (disk w) in (r, mkWorld (mgr w) fs').

(** [shutil.copytree(src, dst, dirs_exist_ok=True)].  When [dst] does not
    exist the flag changes nothing; a regular file at [dst] makes
    [os.makedirs] raise; an existing directory receives the entries of
    [src], which is the library's business: [merge]. *)
Definition copytree_exist_ok (merge : path -> path -> fs_effect) (src dst : path) : M unit :=
  s <~ ask (fun fs => node_at fs src) ;;
  match s with
  | None => raise FileNotFoundError
  | Some (File _) => raise NotADirectoryError
  | Some (Dir _) =>
      d <~ ask (fun fs => node_at fs dst) ;;
      match d with
      | Some (Dir _) => effect (merge src dst)
      | Some (File _) => raise FileExistsError
      | None => shutil_copytree src dst
      end
  end.

(** [FileOperations.copy_file]. *)
Definition copy_file (merge : path -> path -> fs_effect) (src dst : path) : M bool :=
  try_except
    (d <~ ask (fun fs => is_dir fs src) ;;
     (if d then copytree_exist_ok merge src dst
      else call (fun fs => copy2 fs src dst)) ;;;
     ret true)
    (fun _ => ret false).

(** [FileOperations.move_file]. *)
Definition move_file (src dst : path) : M bool :=
  try_except (shutil_move src dst ;;; ret true) (fun _ => ret false).

(** [Path.mkdir(parents=True, exist_ok=True)]: an existing directory is
    accepted, missing ancestors are created, a regular file in the way
    raises. *)
Definition mkdir_parents_exist_ok (fs : fsys) (p : path) : res fsys :=
  match node_at fs p with
  | Some (Dir _) => Ok fs
  | Some (File _) => Raise FileExistsError
  | None => ok_or NotADirectoryError (mkput fs p empty_dir)
  end.

(** [FileOperations.create_directory]. *)
Definition create_directory (p : path) : M bool :=
  try_except (call (fun fs => mkdir_parents_exist_ok fs p) ;;; ret true)
             (fun _ => ret false).

(** [target / item_path.name], the place of an item in another directory.
    The name of a path is one of its components, or empty for the root;
    joining the empty name changes nothing. *)
Definition join (dir : path) (n : string) : path :=
  if decide (n = "") then dir else dir ++ [n].

(** [c in s]. *)
Fixpoint contains_char (c : Ascii.ascii) (s : string) : bool :=
  match s with
  | EmptyString => false
  | String a r => if Ascii.eqb a c then true else contains_char c r
  end.

(** A text that is one component of a path: not empty, not a dot or two,
    with no separator and no null character in it. *)
Definition plain_name (n : string) : bool :=
  negb (String.eqb n "") && negb (String.eqb n ".") && negb (String.eqb n "..")
  && negb (contains_char "/"%char n) && negb (contains_char "000"%char n).

(** [src.parent / new_name] for a text the user typed.  A plain name gives
    the sibling of that name.  Any other text (several components, an
    absolute path, dots to be resolved by the system) names a place the
    normalised paths of this model do not follow: [None]. *)
Definition sibling (src : path) (new_name : string) : option path :=
  if plain_name new_name then Some (parent src ++ [new_name]) else None.

(** [FileOperations.rename_file], where [sibling] follows the new name. *)
Definition rename_file (src : path) (new_name : string) : option (M bool) :=
  dst ← sibling src new_name ;
  Some (try_except (call (fun fs => os_rename fs src dst) ;;; ret true)
                   (fun _ => ret false)).

(** ** UndoManager.get_last_action_description *)

Definition get_last_action_description : M string :=
  h <~ get_history ;;
  match pop_tail h with
  | None => ret "Nothing to undo"
  | Some (action, _) =>
      match action_type action with
      | COPY => dst <~ the_path (destination action) ;; ret ("Undo copy of " +:+ name dst)
      | MOVE => ret ("Undo move of " +:+ name (source action))
      | DELETE => ret ("Undo delete of " +:+ name (source action))
      | MKDIR => ret ("Undo mkdir " +:+ name (source action))
      | RENAME => ret ("Undo rename of " +:+ name (source action))
      end
  end.

(** ** The handlers of the application (src/main.py) that drive the engine

    Each one asks FileOperations first and records on success; deletion
    records first and deletes whatever the recording answered.  The
    notifications and the refreshing of the panels are left out; the value
    returned tells which notification is shown. *)

(** [action_copy], one item (the focused one, or one turn of the loop). *)
Definition copy_item (merge : path -> path -> fs_effect) (src dst : path) : M bool :=
  ok <~ copy_file merge src dst ;;
  if ok then record_copy src dst ;;; ret true else ret false.

(** [action_move], one item. *)
Definition move_item (src dst : path) : M bool :=
  ok <~ move_file src dst ;;
  if ok then record_move src dst ;;; ret true else ret false.

(** [action_mkdir], once a name has been entered. *)
Definition mkdir_item (new_dir : path) : M bool :=
  ok <~ create_directory new_dir ;;
  if ok then record_mkdir new_dir ;;; ret true else ret false.


(** [action_copy] and [action_move] over the selected items: every item
    goes to the directory of the other panel under its own name; the
    successes and the failures are counted. *)
Fixpoint transfer_items (one : path -> path -> M bool) (target : path)
    (items : list path) (success_count failed_count : nat) : M (nat * nat) :=
  match items with
  | [] => ret (success_count, failed_count)
  | item_path :: rest =>
      ok <~ one item_path (join target (name item_path)) ;;
      if ok then transfer_items one target rest (S success_count) failed_count
      else transfer_items one target rest success_count (S failed_count)
  end.

(** The [try]/[except] at the heart of [shutil.move], for the place
    [real_dst] the item is to end at (it is the local part of
    [shutil_move]). *)
Definition relocate (src dst real_dst : path) : M unit :=
  try_except
    (call (fun fs => os_rename fs src real_dst))
    (fun e =>
       if is_OSError e then
         d <~ ask (fun fs => is_dir fs src) ;;
         if d then
           if is_prefix src dst then raise ShutilError
           else shutil_copytree src real_dst ;;;
                call (fun fs => rmtree fs src)
         else call (fun fs => copy2 fs src real_dst) ;;;
              call (fun fs => unlink fs src)
       else raise e).


(** A computation that leaves what is at the path [q] as it found it. *)
Definition leaves {A} (q : path) (c : M A) : Prop :=
  forall w, node_at (disk (snd (c w))) q = node_at (disk w) q.


(** [_delete_multiple_items]: the selected items are taken one by one;
    each is asked about (the dialog answers "yes", "no" or "all") until
    "all" has been answered once.  [answers] are the answers the user will
    give; with none left a dialog stays open ([None]); at the end the two
    counters are reported.

    [delete_next] calls itself for the next item.  While a dialog is asked
    the call returns, and the answer arrives in a call-back on a fresh
    stack; after "all" every item is one more nested call.  [room] is the
    number of nested calls the stack still has room for; what a call made
    with none left does is [stack_overflow]. *)
Inductive answer := Yes | No | All.

Fixpoint delete_next (room : nat) (items : list path) (answers : list answer)
    (delete_all : bool) (deleted_count failed_count : nat) {struct items} :
    M (option (nat * nat)) :=
  match room with
  | O => stack_overflow items deleted_count failed_count
  | S room_left =>
      match items with
      | [] => ret (Some (deleted_count, failed_count))
      | item_path :: rest =>
          let delete_and_go_on (room : nat) (more : list answer) (delete_all : bool) :=
            ok <~ delete_item item_path ;;
            if ok then delete_next room rest more delete_all (S deleted_count) failed_count
            else delete_next room rest more delete_all deleted_count (S failed_count) in
          if delete_all then delete_and_go_on room_left answers true
          else
            match answers with
            | [] => ret None
            | No :: more => delete_next stack_room rest more false deleted_count failed_count
            | Yes :: more => delete_and_go_on stack_room more false
            | All :: more => delete_and_go_on stack_room more true
            end
      end
  end.

Definition _delete_multiple_items (items : list path) (answers : list answer) :
    M (option (nat * nat)) :=
  delete_next stack_room items answers false 0 0.


(** * The file panel: sorting the entries (src/ui/panels.py) *)

(** ** The string operations [_sort_entries] uses *)

(** [s.rsplit(c, 1)[0]]: what precedes the last [c], the whole string when
    there is none. *)
Fixpoint before_last (c : Ascii.ascii) (s : string) : string :=
  match s with
  | EmptyString => EmptyString
  | String a r =>
      if contains_char c r then String a (before_last c r)
      else if Ascii.eqb a c then EmptyString
      else String a r
  end.

(** [s.rsplit(c, 1)[-1]]: what follows the last [c], the whole string when
    there is none. *)
Fixpoint after_last (c : Ascii.ascii) (s : string) : string :=
  match s with
  | EmptyString => EmptyString
  | String a r =>
      if contains_char c r then after_last c r
      else if Ascii.eqb a c then r
      else String a r
  end.

(** [s.endswith(suffix)]. *)
Fixpoint endswith (s suffix : string) : bool :=
  if String.eqb s suffix then true
  else match s with
       | EmptyString => false
       | String _ r => endswith r suffix
       end.

(** ** [list.sort]

    Python's sort is stable: of two elements neither of which is smaller
    than the other, the one that came first stays first, also with
    [reverse=True].  Straight insertion, taking the elements from the
    back, is such a sort. *)

Fixpoint sort_insert {A} (le : A -> A -> bool) (x : A) (l : list A) : list A :=
  match l with
  | [] => [x]
  | y :: r => if le x y then x :: y :: r else y :: sort_insert le x r
  end.

Fixpoint stable_sort {A} (le : A -> A -> bool) (l : list A) : list A :=
  match l with
  | [] => []
  | x :: r => sort_insert le x (stable_sort le r)
  end.

(** [l.sort(key=key, reverse=reverse)], for keys compared by [kle]. *)
Definition sort_by {A K} (kle : K -> K -> bool) (key : A -> K) (reverse : bool)
    (l : list A) : list A :=
  stable_sort (fun a b => if reverse then kle (key b) (key a) else kle (key a) (key b)) l.

(** The comparison of the tuples [(not is_dir, k)]: [False] before [True],
    then the second components. *)
Definition pair_le {K} (kle : K -> K -> bool) (a b : bool * K) : bool :=
  match fst a, fst b with
  | false, true => true
  | true, false => false
  | _, _ => kle (snd a) (snd b)
  end.

(** An entry of the listing: [(name, is_dir, size, mtime, path)]; the time
    stamp is a float, that is, a rational number. *)
Record entry := mkEntry {
  entry_name : string;
  entry_is_dir : bool;
  entry_size : Z;
  entry_mtime : QArith_base.Q;
  entry_path : path
}.

Section Sorting.

(** [str.lower] is the library's. *)
Variable lower : string -> string.

Definition get_ext (n : string) : string :=
  if contains_char "."%char n then lower (after_last "."%char n) else "".

(** [FilePanel._sort_entries] for the panel's [sort_order]. *)
Definition _sort_entries (sort_order : string) (entries : list entry) : list entry :=
  let sort_key := before_last "_"%char sort_order in
  let reverse := endswith sort_order "_desc" in
  if String.eqb sort_key "name" then
    let entries :=
      sort_by (pair_le String.leb)
              (fun x => (negb (entry_is_dir x), lower (entry_name x))) false entries in
    if reverse then
      let dirs := List.filter (fun e => entry_is_dir e) entries in
      let files := List.filter (fun e => negb (entry_is_dir e)) entries in
      let dirs := sort_by String.leb (fun x => lower (entry_name x)) true dirs in
      let files := sort_by String.leb (fun x => lower (entry_name x)) true files in
      dirs ++ files
    else entries
  else if String.eqb sort_key "size" then
    sort_by (pair_le Z.leb)
            (fun x => (negb (entry_is_dir x),
                       if negb reverse then entry_size x else (- entry_size x)%Z))
            false entries
  else if String.eqb sort_key "date" then
    sort_by (pair_le QArith_base.Qle_bool)
            (fun x => (negb (entry_is_dir x),
                       if negb reverse then entry_mtime x
                       else QArith_base.Qopp (entry_mtime x)))
            false entries
  else if String.eqb sort_key "ext" then
    let entries :=
      sort_by (pair_le String.leb)
              (fun x => (negb (entry_is_dir x), get_ext (entry_name x))) false entries in
    if reverse then
      let dirs := List.filter (fun e => entry_is_dir e) entries in
      let files := List.filter (fun e => negb (entry_is_dir e)) entries in
      let dirs := sort_by String.leb (fun x => get_ext (entry_name x)) true dirs in
      let files := sort_by String.leb (fun x => get_ext (entry_name x)) true files in
      dirs ++ files
    else entries
  else
    sort_by (pair_le String.leb)
            (fun x => (negb (entry_is_dir x), lower (entry_name x))) false entries.

End Sorting.


(** * Properties *)

(** ** Paths and the tree *)

Section Tree.

Implicit Types (fs n x : node) (p q : path) (c : string).

Lemma is_prefix_refl p : is_prefix p p = true.
Proof. induction p as [|c p IH]; simpl; [done|]. by rewrite decide_True. Qed.

Lemma is_prefix_app p q : is_prefix p (p ++ q) = true.
Proof. induction p as [|c p IH]; simpl; [done|]. by rewrite decide_True. Qed.

Lemma is_prefix_spec p q : is_prefix p q = true <-> exists r, q = p ++ r.
Proof.
  split.
  - revert q. induction p as [|c p IH]; intros q H; simpl in *.
    + by exists q.
    + destruct q as [|d q]; [done|]. case_decide; [|done]. subst d.
      destruct (IH _ H) as [r ->]. by exists r.
  - intros [r ->]. apply is_prefix_app.
Qed.

Lemma node_at_app fs p q :
  node_at fs (p ++ q) = match node_at fs p with Some n => node_at n q | None => None end.
Proof.
  revert fs. induction p as [|c p IH]; intros fs; simpl; [done|].
  destruct fs as [d|es]; [done|]. destruct (es !! c); [apply IH|done].
Qed.

(** Below a path that leads nowhere there is nothing. *)
Lemma node_at_None_prefix fs p q :
  node_at fs p = None -> is_prefix p q = true -> node_at fs q = None.
Proof.
  intros Hp [r ->]%is_prefix_spec. by rewrite node_at_app, Hp.
Qed.

(** Below a regular file there is nothing. *)
Lemma node_at_File_below fs p d q :
  node_at fs p = Some (File d) -> q <> [] -> node_at fs (p ++ q) = None.
Proof.
  intros Hp Hq. rewrite node_at_app, Hp. by destruct q.
Qed.

Lemma node_at_remove_eq fs p fs' : remove fs p = Some fs' -> node_at fs' p = None.
Proof.
  revert fs fs'. induction p as [|c p IH]; intros fs fs' H; simpl in *; [done|].
  destruct fs as [d|es]; [done|]. destruct p as [|c' p].
  - destruct (es !! c); [|done]. injection H as <-. simpl. by rewrite lookup_delete_eq.
  - destruct (es !! c) as [n'|]; [|done].
    destruct (remove n' (c' :: p)) as [n''|] eqn:E; [|done]. injection H as <-.
    cbn [node_at]. rewrite lookup_insert_eq. by eapply IH.
Qed.

(** Removal leaves every path that is neither above nor below untouched. *)
Lemma node_at_remove_frame fs p fs' q :
  remove fs p = Some fs' ->
  is_prefix p q = false -> is_prefix q p = false ->
  node_at fs' q = node_at fs q.
Proof.
  revert fs fs' q. induction p as [|c p IH]; intros fs fs' q H Hpq Hqp; simpl in *; [done|].
  destruct fs as [d|es]; [done|].
  destruct q as [|k q]; [done|]. simpl in Hpq, Hqp.
  destruct p as [|c' p].
  - destruct (es !! c); [|done]. injection H as <-. simpl.
    destruct (decide (c = k)) as [->|Hne]; [done|]. by rewrite lookup_delete_ne.
  - destruct (es !! c) as [n'|] eqn:Ec; [|done].
    destruct (remove n' (c' :: p)) as [n''|] eqn:E; [|done]. injection H as <-.
    cbn [node_at]. destruct (decide (c = k)) as [->|Hne].
    + rewrite lookup_insert_eq, Ec. rewrite decide_True in Hqp by done.
      by apply (IH n').
    + by rewrite lookup_insert_ne.
Qed.

Lemma remove_is_Some fs p n : p <> [] -> node_at fs p = Some n -> is_Some (remove fs p).
Proof.
  revert fs. induction p as [|c p IH]; intros fs Hp H; [done|]. simpl in *.
  destruct fs as [d|es]; [done|]. destruct (es !! c) as [n'|] eqn:Ec; [|done].
  destruct p as [|c' p]; [by eexists|].
  destruct (IH n') as [n'' ->]; [done|done|]. by eexists.
Qed.

Lemma node_at_put_eq fs p x fs' : put fs p x = Some fs' -> node_at fs' p = Some x.
Proof.
  revert fs fs'. induction p as [|c p IH]; intros fs fs' H; simpl in *; [done|].
  destruct fs as [d|es]; [done|]. destruct p as [|c' p].
  - injection H as <-. simpl. by rewrite lookup_insert_eq.
  - destruct (es !! c) as [n'|]; [|done].
    destruct (put n' (c' :: p) x) as [n''|] eqn:E; [|done]. injection H as <-.
    cbn [node_at]. rewrite lookup_insert_eq. by eapply IH.
Qed.

Lemma node_at_put_frame fs p x fs' q :
  put fs p x = Some fs' ->
  is_prefix p q = false -> is_prefix q p = false ->
  node_at fs' q = node_at fs q.
Proof.
  revert fs fs' q. induction p as [|c p IH]; intros fs fs' q H Hpq Hqp; simpl in *; [done|].
  destruct fs as [d|es]; [done|].
  destruct q as [|k q]; [done|]. simpl in Hpq, Hqp.
  destruct p as [|c' p].
  - injection H as <-. simpl.
    destruct (decide (c = k)) as [->|Hne]; [done|]. by rewrite lookup_insert_ne.
  - destruct (es !! c) as [n'|] eqn:Ec; [|done].
    destruct (put n' (c' :: p) x) as [n''|] eqn:E; [|done]. injection H as <-.
    cbn [node_at]. destruct (decide (c = k)) as [->|Hne].
    + rewrite lookup_insert_eq, Ec. rewrite decide_True in Hqp by done.
      by apply (IH n').
    + by rewrite lookup_insert_ne.
Qed.

(** [put] succeeds exactly below an existing directory. *)
Lemma put_is_Some fs p x es :
  p <> [] -> node_at fs (parent p) = Some (Dir es) -> is_Some (put fs p x).
Proof.
  unfold parent. revert fs. induction p as [|c p IH]; intros fs Hp H; [done|].
  destruct p as [|c' p].
  - simpl in *. injection H as ->. by eexists.
  - change (removelast (c :: c' :: p)) with (c :: removelast (c' :: p)) in H.
    simpl in H. destruct fs as [d|es']; [done|].
    cbn [put]. destruct (es' !! c) as [n'|]; [|done].
    destruct (IH n') as [n'' Hn]; [done|done|].
    cbn [put] in Hn. rewrite Hn. by eexists.
Qed.

Lemma node_at_mkput_eq fs p x fs' : mkput fs p x = Some fs' -> node_at fs' p = Some x.
Proof.
  revert fs fs'. induction p as [|c p IH]; intros fs fs' H; simpl in *; [by injection H as <-|].
  destruct fs as [d|es]; [done|].
  destruct (mkput (default empty_dir (es !! c)) p x) as [n''|] eqn:E; [|done].
  injection H as <-. simpl. rewrite lookup_insert_eq. by apply IH in E.
Qed.

Lemma node_at_mkput_frame fs p x fs' q :
  mkput fs p x = Some fs' ->
  is_prefix p q = false -> is_prefix q p = false ->
  node_at fs' q = node_at fs q.
Proof.
  revert fs fs' q. induction p as [|c p IH]; intros fs fs' q H Hpq Hqp; simpl in *; [done|].
  destruct fs as [d|es]; [done|].
  destruct q as [|k q]; [done|]. simpl in Hpq, Hqp.
  destruct (mkput (default empty_dir (es !! c)) p x) as [n''|] eqn:E; [|done].
  injection H as <-. simpl. destruct (decide (c = k)) as [->|Hne].
  - rewrite lookup_insert_eq. rewrite decide_True in Hqp by done.
    rewrite (IH _ _ _ E Hpq Hqp).
    destruct (es !! k) as [n'|]; [done|]. simpl. destruct q; [done|]. simpl.
    by rewrite lookup_empty.
  - by rewrite lookup_insert_ne.
Qed.

Lemma mkput_is_Some fs p x es :
  p <> [] -> node_at fs (parent p) = Some (Dir es) -> is_Some (mkput fs p x).
Proof.
  unfold parent. revert fs. induction p as [|c p IH]; intros fs Hp H; [done|].
  destruct p as [|c' p].
  - simpl in *. injection H as ->. by eexists.
  - change (removelast (c :: c' :: p)) with (c :: removelast (c' :: p)) in H.
    simpl in H. destruct fs as [d|es']; [done|].
    cbn [mkput]. destruct (es' !! c) as [n'|]; [|done]. simpl.
    destruct (IH n') as [n'' Hn]; [done|done|].
    cbn [mkput] in Hn. rewrite Hn. by eexists.
Qed.

End Tree.

(** ** The monad: computations that leave the manager alone *)

Lemma keeps_ret {A} (a : A) : keeps_mgr (ret a).
Proof. by intros w. Qed.

Lemma keeps_raise {A} e : keeps_mgr (@raise A e).
Proof. by intros w. Qed.

Lemma keeps_ask {A} (q : fsys -> A) : keeps_mgr (ask q).
Proof. by intros w. Qed.

Lemma keeps_call f : keeps_mgr (call f).
Proof. intros w. unfold call. by destruct (f (disk w)). Qed.

Lemma keeps_shutil_copytree src dst : keeps_mgr (shutil_copytree src dst).
Proof. intros w. unfold shutil_copytree. by destruct (copytree (disk w) src dst). Qed.

Lemma keeps_the_path o : keeps_mgr (the_path o).
Proof. destruct o; [apply keeps_ret | apply keeps_raise]. Qed.

Lemma keeps_bind {A B} (c : M A) (k : A -> M B) :
  keeps_mgr c -> (forall a, keeps_mgr (k a)) -> keeps_mgr (bind c k).
Proof.
  intros Hc Hk w. unfold bind. specialize (Hc w).
  destruct (c w) as [[a|e] w1]; simpl in *; [|done].
  by rewrite (Hk a w1).
Qed.

Lemma keeps_try {A} (c : M A) (h : exn -> M A) :
  keeps_mgr c -> (forall e, keeps_mgr (h e)) -> keeps_mgr (try_except c h).
Proof.
  intros Hc Hh w. unfold try_except. specialize (Hc w).
  destruct (c w) as [[a|e] w1]; simpl in *; [done|].
  by rewrite (Hh e w1).
Qed.

Lemma keeps_if {A} (b : bool) (c d : M A) :
  keeps_mgr c -> keeps_mgr d -> keeps_mgr (if b then c else d).
Proof. by destruct b. Qed.

Ltac keeps :=
  repeat first
    [ apply keeps_ret | apply keeps_raise | apply keeps_ask | apply keeps_call
    | apply keeps_shutil_copytree | apply keeps_the_path
    | apply keeps_bind; [|intros ?] | apply keeps_try; [|intros ?]
    | apply keeps_if
    | match goal with |- keeps_mgr (if decide ?P then _ else _) => destruct (decide P) end
    | match goal with |- keeps_mgr (match ?o with Some _ => _ | None => _ end) => destruct o end ].

Lemma keeps_shutil_move src dst : keeps_mgr (shutil_move src dst).
Proof. unfold shutil_move. keeps. Qed.

Lemma keeps_delete_file p : keeps_mgr (delete_file p).
Proof. unfold delete_file. keeps. Qed.

(** No reversal touches the manager object: what [undo] popped stays popped. *)
Lemma keeps_reverse_action a : keeps_mgr (reverse_action a).
Proof.
  unfold reverse_action. destruct (action_type a); keeps; try apply keeps_shutil_move.
Qed.

(** ** The history as a stack *)

Lemma last_cons_default {A} (t : list A) (b d : A) :
  List.last (b :: t) d = List.last t b.
Proof.
  revert b d. induction t as [|x t IH]; intros b d; [done|].
  change (List.last (b :: x :: t) d) with (List.last (x :: t) d).
  by rewrite !IH.
Qed.

Lemma pop_tail_snoc h a : pop_tail (h ++ [a]) = Some (a, h).
Proof.
  unfold pop_tail. destruct (h ++ [a]) as [|b t] eqn:E.
  - by destruct h.
  - rewrite <- (last_cons_default t b a), <- E.
    by rewrite last_last, removelast_last.
Qed.

Lemma pop_tail_nonempty h : h <> [] -> exists a rest, h = rest ++ [a] /\ pop_tail h = Some (a, rest).
Proof.
  intros Hh. destruct (exists_last Hh) as (rest & a & ->).
  exists a, rest. split; [done|apply pop_tail_snoc].
Qed.

(** [undo] on a non-empty history: pop, then run the reversal inside the
    [try]. *)
Lemma undo_snoc w h a :
  history (mgr w) = h ++ [a] ->
  undo w = try_except (reverse_action a)
             (fun e => ret (false, "Undo failed: " +:+ exn_text e))
             (with_history w h).
Proof.
  intros Hh. unfold undo, bind, get_history. rewrite Hh, pop_tail_snoc. done.
Qed.

Lemma undo_returns w : exists r, fst (undo w) = Ok r.
Proof.
  unfold undo, bind, get_history. destruct (pop_tail (history (mgr w))) as [[a rest]|].
  - simpl. unfold try_except.
    destruct (reverse_action a _) as [[r|e] w1]; simpl; eauto.
  - simpl. eauto.
Qed.

(** C6: on a non-empty history, [undo] returns (it never raises) and leaves
    the history without its tail entry, one shorter than before, whatever
    the outcome of the reversal; the other fields of the manager are as
    they were. *)
Theorem undo_pops_exactly_the_tail (w : World) :
  history (mgr w) <> [] ->
  exists (success : bool) (message : string) (w' : World),
    undo w = (Ok (success, message), w') /\
    history (mgr w') = removelast (history (mgr w)) /\
    (length (history (mgr w')) + 1 = length (history (mgr w)))%nat /\
    max_history (mgr w') = max_history (mgr w) /\
    tmpdir (mgr w') = tmpdir (mgr w).
Proof.
  intros Hne. destruct (pop_tail_nonempty _ Hne) as (a & h & Hh & _).
  destruct (undo_returns w) as [[s msg] Hr].
  exists s, msg, (snd (undo w)). split.
  { rewrite <- Hr. by destruct (undo w). }
  assert (Hm : mgr (snd (undo w)) = mgr (with_history w h)).
  { rewrite (undo_snoc w h a Hh).
    apply (keeps_try _ _ (keeps_reverse_action a)). intros e. apply keeps_ret. }
  rewrite Hm, Hh, removelast_last, length_app. simpl. done.
Qed.

(** ** Reversal of the single action types *)

Ltac run_undo H Ht :=
  rewrite (undo_snoc _ _ _ H); unfold reverse_action; rewrite Ht;
  unfold try_except, bind, ask, the_path, ret, with_history; simpl.

(** C10: with nothing at the recorded destination, undoing a Copy still
    reports success with the "removed" message and changes nothing on
    disk, while undoing a Move or a Rename reports failure with the
    "no longer exists" message. *)
Theorem undo_copy_succeeds_without_destination
    (w : World) (h : list UndoAction) (a : UndoAction) (dst : path) :
  history (mgr w) = h ++ [a] ->
  destination a = Some dst ->
  exists_ (disk w) dst = false ->
  (action_type a = COPY ->
     undo w = (Ok (true, "Undid copy: removed " +:+ name dst), with_history w h)) /\
  (action_type a = MOVE \/ action_type a = RENAME ->
     undo w = (Ok (false, "Cannot undo: " +:+ name dst +:+ " no longer exists"),
               with_history w h)).
Proof.
  intros Hh Hd He. split.
  - intros Ht. run_undo Hh Ht. rewrite Hd. simpl. by rewrite He.
  - intros [Ht|Ht]; run_undo Hh Ht; rewrite Hd; simpl; by rewrite He.
Qed.

Lemma size_zero_empty (es : gmap string node) : Nat.eqb (size es) 0 = true <-> es = ∅.
Proof. rewrite Nat.eqb_eq. apply map_size_empty_iff. Qed.

(** The MKDIR branch of [undo], computed. *)
Lemma reverse_mkdir (a : UndoAction) (w : World) :
  action_type a = MKDIR ->
  reverse_action a w =
    match node_at (disk w) (source a) with
    | Some (Dir es) =>
        if Nat.eqb (size es) 0 then
          match remove (disk w) (source a) with
          | Some fs' => (Ok (true, "Undid mkdir: removed " +:+ name (source a)),
                         mkWorld (mgr w) fs')
          | None => (Ok (false, "Cannot undo: " +:+ name (source a) +:+ " is not empty"), w)
          end
        else (Ok (false, "Cannot undo: " +:+ name (source a) +:+ " is not empty"), w)
    | _ => (Ok (false, "Cannot undo: " +:+ name (source a) +:+ " no longer exists"), w)
    end.
Proof.
  intros Ht. unfold reverse_action. rewrite Ht.
  unfold try_except, bind, ask, ret, call, rmdir, exists_, is_dir. simpl.
  destruct (node_at (disk w) (source a)) as [[d|es]|] eqn:Hn; simpl; try done.
  rewrite Hn. destruct (Nat.eqb (size es) 0); simpl; [|done].
  by destruct (remove (disk w) (source a)).
Qed.

Ltac run_mkdir Hh Ht :=
  rewrite (undo_snoc _ _ _ Hh); unfold try_except;
  rewrite (reverse_mkdir _ _ Ht); unfold with_history; simpl.

(** C8: undoing a MakeDirectory never destroys data.  A non-empty
    directory at the recorded path makes [undo] fail with the "is not empty"
    message and the disk is left as it was; a path that is absent or is not
    a directory makes it fail with "no longer exists", the disk again
    untouched; success is reported only for a directory that existed and
    was empty, and the disk it leaves is the old one with that one entry
    removed, so that every path neither above nor below the recorded one
    keeps its content; and every empty directory other than the root is
    removed with success, in the same way. *)
Theorem undo_mkdir_never_destroys_data
    (w : World) (h : list UndoAction) (a : UndoAction) :
  history (mgr w) = h ++ [a] ->
  action_type a = MKDIR ->
  (forall es, node_at (disk w) (source a) = Some (Dir es) -> es <> ∅ ->
     undo w = (Ok (false, "Cannot undo: " +:+ name (source a) +:+ " is not empty"),
               with_history w h)) /\
  (is_dir (disk w) (source a) = false ->
     undo w = (Ok (false, "Cannot undo: " +:+ name (source a) +:+ " no longer exists"),
               with_history w h)) /\
  (forall message w', undo w = (Ok (true, message), w') ->
     node_at (disk w) (source a) = Some (Dir ∅) /\
     message = "Undid mkdir: removed " +:+ name (source a) /\
     mgr w' = mgr (with_history w h) /\
     remove (disk w) (source a) = Some (disk w') /\
     node_at (disk w') (source a) = None /\
     (forall q, disjoint (source a) q -> node_at (disk w') q = node_at (disk w) q)) /\
  (node_at (disk w) (source a) = Some (Dir ∅) -> source a <> [] ->
     exists w', undo w = (Ok (true, "Undid mkdir: removed " +:+ name (source a)), w') /\
                mgr w' = mgr (with_history w h) /\
                remove (disk w) (source a) = Some (disk w') /\
                node_at (disk w') (source a) = None /\
                (forall q, disjoint (source a) q ->
                   node_at (disk w') q = node_at (disk w) q)).
Proof.
  intros Hh Ht. split; [|split; [|split]].
  - intros es Hn Hes. run_mkdir Hh Ht. rewrite Hn.
    destruct (Nat.eqb (size es) 0) eqn:E; [by apply size_zero_empty in E|done].
  - unfold is_dir. intros Hd. run_mkdir Hh Ht.
    by destruct (node_at (disk w) (source a)) as [[d|es]|].
  - intros message w'. run_mkdir Hh Ht.
    destruct (node_at (disk w) (source a)) as [[d|es]|] eqn:Hn; try by intros [=].
    destruct (Nat.eqb (size es) 0) eqn:E; [|by intros [=]].
    apply size_zero_empty in E. subst es.
    destruct (remove (disk w) (source a)) eqn:R; [|by intros [=]].
    intros [= <- <-]. simpl. rewrite (node_at_remove_eq _ _ _ R).
    repeat split; try done.
    intros q [D1 D2]. by apply (node_at_remove_frame _ _ _ _ R).
  - intros Hn Hp. run_mkdir Hh Ht. rewrite Hn, map_size_empty. simpl.
    destruct (remove_is_Some _ _ _ Hp Hn) as [fs' R]. rewrite R.
    eexists. split; [done|]. simpl. rewrite (node_at_remove_eq _ _ _ R).
    repeat split; try done.
    intros q [D1 D2]. by apply (node_at_remove_frame _ _ _ _ R).
Qed.

Lemma backup_dir_nonempty m : backup_dir m <> [].
Proof. unfold backup_dir. by destruct (tmpdir m). Qed.

(** C9: [cleanup] returns, leaves no directory (hence no backup entry) at
    the backup location and does not touch the manager object, so that
    [can_undo] answers as before: true exactly when the history is not
    empty.  On the disk nothing but the backup directory changes: where
    there is no directory at the backup location the world is left as it
    was, where there is one the disk is the old one with that one entry
    removed, and every path neither above nor below the backup location
    keeps its content. *)
Theorem cleanup_only_clears_backup_storage (w : World) :
  exists w',
    cleanup w = (Ok tt, w') /\
    mgr w' = mgr w /\
    is_dir (disk w') (backup_dir (mgr w)) = false /\
    entry_count (disk w') (backup_dir (mgr w)) = 0%nat /\
    (forall es, node_at (disk w) (backup_dir (mgr w)) = Some (Dir es) ->
                node_at (disk w') (backup_dir (mgr w)) = None /\
                remove (disk w) (backup_dir (mgr w)) = Some (disk w')) /\
    (is_dir (disk w) (backup_dir (mgr w)) = false -> w' = w) /\
    (forall q, disjoint (backup_dir (mgr w)) q ->
               node_at (disk w') q = node_at (disk w) q) /\
    fst (can_undo w') = fst (can_undo w) /\
    (fst (can_undo w') = Ok true <-> history (mgr w) <> []).
Proof.
  assert (Hc : forall m : UndoManager,
             (Ok (0 <? length (history m))%nat : res bool) = Ok true <-> history m <> []).
  { intros m. destruct (history m); simpl; split; intros; done. }
  assert (Hrun : cleanup w =
            match node_at (disk w) (backup_dir (mgr w)) with
            | Some (Dir _) =>
                match remove (disk w) (backup_dir (mgr w)) with
                | Some fs' => (Ok tt, mkWorld (mgr w) fs')
                | None => (Ok tt, w)
                end
            | _ => (Ok tt, w)
            end).
  { unfold cleanup, rmtree_ignore_errors, try_except, bind, get_manager, ask, call, ret,
      exists_, rmtree. simpl.
    destruct (node_at (disk w) (backup_dir (mgr w))) as [[d|es]|] eqn:Hn; simpl;
      rewrite ?Hn; try done.
    by destruct (remove (disk w) (backup_dir (mgr w))). }
  rewrite Hrun. unfold is_dir, entry_count, can_undo, bind, get_history, ret. simpl.
  destruct (node_at (disk w) (backup_dir (mgr w))) as [[d|es]|] eqn:Hn.
  - exists w. rewrite Hn. repeat split; try done; apply Hc.
  - destruct (remove_is_Some _ _ _ (backup_dir_nonempty (mgr w)) Hn) as [fs' R].
    rewrite R. eexists. split; [done|]. simpl.
    rewrite (node_at_remove_eq _ _ _ R). repeat split; try done; try apply Hc.
    intros q [D1 D2]. by apply (node_at_remove_frame _ _ _ _ R).
  - exists w. rewrite Hn. repeat split; try done; apply Hc.
Qed.

(** ** Appending to the bounded history *)

Lemma discard_ok fs bp :
  bp <> [] -> exists fs', discard fs bp = Ok fs' /\ node_at fs' bp = None.
Proof.
  intros Hbp. unfold discard, exists_, is_dir, rmtree, unlink.
  destruct (node_at fs bp) as [n|] eqn:Hn; [|by exists fs].
  destruct (remove_is_Some _ _ _ Hbp Hn) as [fs' R].
  exists fs'. rewrite R. split; [by destruct n|]. by apply node_at_remove_eq in R.
Qed.

(** What is outside the discarded backup is not touched. *)
Lemma discard_frame fs bp fs' q :
  discard fs bp = Ok fs' ->
  is_prefix bp q = false -> is_prefix q bp = false ->
  node_at fs' q = node_at fs q.
Proof.
  unfold discard, exists_, is_dir, rmtree, unlink, ok_or. intros H Hpq Hqp.
  destruct (node_at fs bp) as [[d|es]|]; [| |by injection H as <-];
    (destruct (remove fs bp) eqn:R; [|done]); injection H as <-;
    by apply (node_at_remove_frame _ _ _ _ R).
Qed.

(** [_add_action] below the bound: the entry goes to the tail and nothing
    else happens. *)
Lemma add_action_room a w :
  (Z.of_nat (length (history (mgr w) ++ [a])) <= max_history (mgr w))%Z ->
  _add_action a w = (Ok tt, with_history w (history (mgr w) ++ [a])).
Proof.
  intros Hle. unfold _add_action, bind, get_history, set_history, get_manager. simpl.
  destruct (Z.gtb_spec (Z.of_nat (length (history (mgr w) ++ [a]))) (max_history (mgr w)));
    [lia|done].
Qed.

(** [_add_action] beyond the bound: the head entry leaves and its backup,
    if it has one, is discarded from the disk. *)
Lemma add_action_full a w oldest rest :
  history (mgr w) ++ [a] = oldest :: rest ->
  (max_history (mgr w) < Z.of_nat (length (history (mgr w) ++ [a])))%Z ->
  _add_action a w =
    match backup_path oldest with
    | Some bp =>
        match discard (disk w) bp with
        | Ok fs' => (Ok tt, mkWorld (set_mgr_history (mgr w) rest) fs')
        | Raise e => (Raise e, with_history w rest)
        end
    | None => (Ok tt, with_history w rest)
    end.
Proof.
  intros Hh Hlt. unfold _add_action, bind, get_history, set_history, get_manager. simpl.
  destruct (Z.gtb_spec (Z.of_nat (length (history (mgr w) ++ [a]))) (max_history (mgr w)));
    [|lia].
  rewrite Hh. simpl. destruct (backup_path oldest) as [bp|]; [|done].
  unfold discard, ask, call, ret, exists_, is_dir. simpl.
  destruct (node_at (disk w) bp) as [[d|es]|] eqn:Hn; simpl; rewrite ?Hn; done.
Qed.

Lemma keeps_reversal a : keeps_mgr (reversal a).
Proof. apply (keeps_try _ _ (keeps_reverse_action a)). intros e. apply keeps_ret. Qed.

Lemma undo_snoc_world m d h a :
  history m = h ++ [a] ->
  undo (mkWorld m d) = reversal a (mkWorld (set_mgr_history m h) d).
Proof. intros Hh. by rewrite (undo_snoc _ h a). Qed.

Lemma undo_empty w :
  history (mgr w) = [] -> undo w = (Ok (false, "Nothing to undo"), w).
Proof. intros Hh. unfold undo, bind, get_history. by rewrite Hh. Qed.

(** C2: undo is last-in first-out.  On a manager with an empty history and
    room for three entries, whatever the disk looks like at each call:
    recording A1, A2, A3 leaves the history [A1; A2; A3]; the first [undo]
    runs the reversal of A3 on the history [A1; A2], the second that of A2
    on [A1], the third that of A1 on the empty history; the fourth reports
    "Nothing to undo" and leaves manager and disk as they are. *)
Theorem undo_is_lifo
    (m : UndoManager) (A1 A2 A3 : UndoAction) (d1 d2 d3 e1 e2 e3 e4 : fsys) :
  history m = [] ->
  (3 <= max_history m)%Z ->
  let r1 := _add_action A1 (mkWorld m d1) in
  let r2 := _add_action A2 (mkWorld (mgr (snd r1)) d2) in
  let r3 := _add_action A3 (mkWorld (mgr (snd r2)) d3) in
  let u1 := undo (mkWorld (mgr (snd r3)) e1) in
  let u2 := undo (mkWorld (mgr (snd u1)) e2) in
  let u3 := undo (mkWorld (mgr (snd u2)) e3) in
  let u4 := undo (mkWorld (mgr (snd u3)) e4) in
  history (mgr (snd r3)) = [A1; A2; A3] /\
  u1 = reversal A3 (mkWorld (set_mgr_history m [A1; A2]) e1) /\
  u2 = reversal A2 (mkWorld (set_mgr_history m [A1]) e2) /\
  u3 = reversal A1 (mkWorld (set_mgr_history m []) e3) /\
  u4 = (Ok (false, "Nothing to undo"), mkWorld (set_mgr_history m []) e4).
Proof.
  intros Hh Hmax r1 r2 r3 u1 u2 u3 u4.
  assert (E1 : mgr (snd r1) = set_mgr_history m [A1]).
  { subst r1. rewrite add_action_room; simpl; rewrite Hh; simpl; [done|lia]. }
  assert (E2 : mgr (snd r2) = set_mgr_history m [A1; A2]).
  { subst r2. rewrite E1, add_action_room; simpl; [done|lia]. }
  assert (E3 : mgr (snd r3) = set_mgr_history m [A1; A2; A3]).
  { subst r3. rewrite E2, add_action_room; simpl; [done|lia]. }
  assert (U1 : u1 = reversal A3 (mkWorld (set_mgr_history m [A1; A2]) e1)).
  { subst u1. rewrite E3. by rewrite (undo_snoc_world _ _ [A1; A2] A3). }
  assert (U2 : u2 = reversal A2 (mkWorld (set_mgr_history m [A1]) e2)).
  { subst u2. rewrite U1, keeps_reversal. simpl.
    by rewrite (undo_snoc_world _ _ [A1] A2). }
  assert (U3 : u3 = reversal A1 (mkWorld (set_mgr_history m []) e3)).
  { subst u3. rewrite U2, keeps_reversal. simpl.
    by rewrite (undo_snoc_world _ _ [] A1). }
  repeat split; try done.
  - by rewrite E3.
  - subst u4. rewrite U3, keeps_reversal. simpl. by rewrite undo_empty.
Qed.

(** ** The class invariant and [record_delete] *)

Lemma in_store_nonroot m a bp : in_store m a -> backup_path a = Some bp -> bp <> [].
Proof.
  intros Ha Hb. destruct (Ha bp Hb) as [_ [n ->]]. unfold backup_dir.
  by destruct (tmpdir m).
Qed.

Lemma snoc_is_cons {A} (h : list A) (a : A) : exists o rest, h ++ [a] = o :: rest.
Proof. destruct h as [|o h]; simpl; eauto. Qed.

Lemma add_action_mgr a w :
  mgr (snd (_add_action a w)) = set_mgr_history (mgr w) (appended (mgr w) a).
Proof.
  unfold appended. simpl.
  destruct (Z.gtb_spec (Z.of_nat (length (history (mgr w) ++ [a]))) (max_history (mgr w)))
    as [Hgt|Hle].
  - destruct (snoc_is_cons (history (mgr w)) a) as (o & rest & Hh).
    rewrite (add_action_full a w o rest Hh) by lia. rewrite Hh. simpl.
    destruct (backup_path o) as [bp|]; [|done]. by destruct (discard (disk w) bp).
  - by rewrite add_action_room.
Qed.

(** Under the invariant no clean-up of an evicted backup can fail, so
    [_add_action] does not raise. *)
Lemma add_action_returns a w :
  backups_in_store (mgr w) -> in_store (mgr w) a ->
  fst (_add_action a w) = Ok tt.
Proof.
  intros Hinv Ha.
  destruct (Z.gtb_spec (Z.of_nat (length (history (mgr w) ++ [a]))) (max_history (mgr w)))
    as [Hgt|Hle]; [|by rewrite add_action_room].
  destruct (snoc_is_cons (history (mgr w)) a) as (o & rest & Hh).
  rewrite (add_action_full a w o rest Hh) by lia.
  destruct (backup_path o) as [bp|] eqn:Hb; [|done].
  assert (Ho : in_store (mgr w) o).
  { assert (Hall : Forall (in_store (mgr w)) (history (mgr w) ++ [a])).
    { apply Forall_app. split; [done|]. by apply Forall_singleton. }
    rewrite Hh in Hall. by apply Forall_cons_1 in Hall as [? _]. }
  destruct (discard_ok (disk w) bp (in_store_nonroot _ _ _ Ho Hb)) as (fs' & -> & _).
  done.
Qed.

(** ** What [copytree] does *)

Lemma strip_prefix_spec a b r : strip_prefix a b = Some r <-> b = a ++ r.
Proof.
  revert b. induction a as [|x a IH]; intros b; simpl.
  - split; [by intros [= ->]|by intros ->].
  - destruct b as [|y b]; [split; [done|by destruct a]|].
    destruct (decide (x = y)) as [->|Hne].
    + rewrite IH. split; [by intros ->|by intros [= ->]].
    + split; [done|intros [= -> _]; done].
Qed.

Lemma into_itself_prefix fs src dst :
  into_itself fs src dst = true -> is_prefix src dst = true.
Proof.
  unfold into_itself. destruct (strip_prefix src dst) as [r|] eqn:E; [|done].
  intros _. apply strip_prefix_spec in E as ->. apply is_prefix_app.
Qed.

Lemma copytree_leaves_id fs src dst :
  into_itself fs src dst = false -> copytree_leaves fs src dst = fs.
Proof. unfold copytree_leaves. intros ->. by rewrite andb_false_r. Qed.

Lemma copytree_leaves_frame fs src dst q :
  disjoint dst q -> node_at (copytree_leaves fs src dst) q = node_at fs q.
Proof.
  intros [D1 D2]. unfold copytree_leaves.
  destruct (is_dir fs src && negb (exists_ fs dst) && into_itself fs src dst); [|done].
  destruct (mkput fs dst _) as [fs'|] eqn:P; [|done]. simpl.
  by apply (node_at_mkput_frame _ _ _ _ _ P).
Qed.

(** A copy that succeeds has put the entries of [src] at [dst]. *)
Lemma copytree_ok fs src dst fs' :
  copytree fs src dst = Ok fs' ->
  exists es, node_at fs src = Some (Dir es) /\ exists_ fs dst = false /\
             into_itself fs src dst = false /\ mkput fs dst (Dir es) = Some fs'.
Proof.
  unfold copytree, ok_or. destruct (node_at fs src) as [[d|es]|]; try done.
  destruct (exists_ fs dst); [done|].
  destruct (into_itself fs src dst); [by destruct (mkput fs dst empty_dir)|].
  destruct (mkput fs dst (Dir es)) eqn:P; [|done]. intros [= <-]. by exists es.
Qed.

Lemma copytree_not_nested fs src dst es :
  node_at fs src = Some (Dir es) -> exists_ fs dst = false ->
  into_itself fs src dst = false ->
  copytree fs src dst = ok_or NotADirectoryError (mkput fs dst (Dir es)).
Proof. unfold copytree. by intros -> -> ->. Qed.

Lemma backup_leaves_id fs p bp :
  into_itself fs p bp = false -> backup_leaves fs p bp = fs.
Proof.
  intros H. unfold backup_leaves. destruct (is_dir fs p); [|done].
  by apply copytree_leaves_id.
Qed.

Lemma backup_leaves_frame fs p bp q :
  disjoint bp q -> node_at (backup_leaves fs p bp) q = node_at fs q.
Proof.
  intros H. unfold backup_leaves. destruct (is_dir fs p); [|done].
  by apply copytree_leaves_frame.
Qed.

Lemma world_eta w : mkWorld (mgr w) (disk w) = w.
Proof. by destruct w. Qed.

Lemma record_delete_run p w :
  record_delete p w =
    match backup_copy (disk w) p (backup_target (mgr w) p) with
    | Ok fs1 =>
        match _add_action (mkAction DELETE p None (Some (backup_target (mgr w) p)))
                          (mkWorld (mgr w) fs1) with
        | (Ok _, w') => (Ok true, w')
        | (Raise _, w') => (Ok false, w')
        end
    | Raise _ =>
        (Ok false, mkWorld (mgr w) (backup_leaves (disk w) p (backup_target (mgr w) p)))
    end.
Proof.
  unfold record_delete, backup_copy, backup_leaves, backup_target, try_except, bind,
    get_history, get_manager, ask, call, shutil_copytree, ret. simpl.
  destruct (is_dir (disk w) p); simpl.
  - destruct (copytree (disk w) p _) as [fs1|e]; [|done].
    by destruct (_add_action _ _) as [[[]|e] w'].
  - destruct (copy2 (disk w) p _) as [fs1|e]; [|by destruct w].
    by destruct (_add_action _ _) as [[[]|e] w'].
Qed.

(** C7 (as amended): [record_delete] is all or nothing for the history.  It returns
    [True] exactly when the backup copy succeeds; then the world is the one
    [_add_action] leaves after appending the Delete entry with that backup
    path to the history (on the disk that holds the copy).  When the copy
    fails it returns [False] and the manager is exactly as before; so is
    the disk, unless the copy was one of a directory into its own subtree:
    what that one created below the backup path stays, and nothing else
    has changed. *)
Theorem record_delete_all_or_nothing (w : World) (p : path) :
  backups_in_store (mgr w) ->
  let bp := backup_target (mgr w) p in
  let entry := mkAction DELETE p None (Some bp) in
  (fst (record_delete p w) = Ok true <->
     exists fs1, backup_copy (disk w) p bp = Ok fs1) /\
  (forall fs1, backup_copy (disk w) p bp = Ok fs1 ->
     record_delete p w = (Ok true, snd (_add_action entry (mkWorld (mgr w) fs1))) /\
     history (mgr (snd (record_delete p w))) = appended (mgr w) entry) /\
  (forall e, backup_copy (disk w) p bp = Raise e ->
     exists w',
       record_delete p w = (Ok false, w') /\
       mgr w' = mgr w /\
       (into_itself (disk w) p bp = false -> w' = w) /\
       (forall q, disjoint bp q -> node_at (disk w') q = node_at (disk w) q)).
Proof.
  intros Hinv bp entry.
  assert (Hentry : in_store (mgr w) entry).
  { intros bp' [= <-]. split; [done|by eexists]. }
  assert (Hok : forall fs1, backup_copy (disk w) p bp = Ok fs1 ->
            record_delete p w = (Ok true, snd (_add_action entry (mkWorld (mgr w) fs1)))).
  { intros fs1 Hc. rewrite record_delete_run. fold bp. rewrite Hc. fold entry.
    pose proof (add_action_returns entry (mkWorld (mgr w) fs1) Hinv Hentry) as Hr.
    destruct (_add_action entry _) as [r w']. simpl in *. by subst r. }
  assert (Hfail : forall e, backup_copy (disk w) p bp = Raise e ->
            record_delete p w = (Ok false, mkWorld (mgr w) (backup_leaves (disk w) p bp))).
  { intros e Hc. rewrite record_delete_run. fold bp. by rewrite Hc. }
  split; [|split].
  - destruct (backup_copy (disk w) p bp) as [fs1|e] eqn:Hc.
    + rewrite (Hok fs1 eq_refl). split; eauto.
    + rewrite (Hfail e eq_refl). split; [done|by intros [? ?]].
  - intros fs1 Hc. split; [by apply Hok|].
    rewrite (Hok fs1 Hc). simpl. by rewrite add_action_mgr.
  - intros e Hc. eexists. split; [by apply (Hfail e)|]. simpl.
    split; [done|]. split.
    + intros Hn. rewrite (backup_leaves_id _ _ _ Hn). apply world_eta.
    + intros q Hq. by apply backup_leaves_frame.
Qed.

(** ** Sessions of recording calls *)

Lemma lastn_length {A} n (l : list A) : length (lastn n l) = Nat.min n (length l).
Proof. unfold lastn. rewrite length_drop. lia. Qed.

Lemma lastn_all {A} n (l : list A) : (length l <= n)%nat -> lastn n l = l.
Proof. intros H. unfold lastn. by replace (length l - n)%nat with 0%nat by lia. Qed.

Lemma lastn_app_lastn {A} n (l r : list A) : lastn n (lastn n l ++ r) = lastn n (l ++ r).
Proof.
  destruct (decide (length l <= n)%nat) as [Hle|Hgt]; [by rewrite (lastn_all n l)|].
  unfold lastn at 1 3. rewrite !length_app, lastn_length.
  unfold lastn. set (k := (length l - n)%nat).
  replace (Nat.min n (length l) + length r - n)%nat with (length r) by lia.
  replace (length l + length r - n)%nat with (k + length r)%nat by lia.
  rewrite <- drop_drop. f_equal. rewrite drop_app_le by lia. done.
Qed.

Lemma appended_lastn m a :
  (0 <= max_history m)%Z ->
  (length (history m) <= Z.to_nat (max_history m))%nat ->
  appended m a = lastn (Z.to_nat (max_history m)) (history m ++ [a]).
Proof.
  intros H0 Hlen. unfold appended, lastn. rewrite length_app. simpl.
  destruct (Z.gtb_spec (Z.of_nat (length (history m) + 1)) (max_history m)) as [Hgt|Hle].
  - replace (length (history m) + 1 - Z.to_nat (max_history m))%nat with 1%nat by lia.
    by destruct (history m ++ [a]).
  - by replace (length (history m) + 1 - Z.to_nat (max_history m))%nat with 0%nat by lia.
Qed.

Lemma record_mgr q w :
  mgr (snd (record q w)) =
    match logged q w with
    | Some a => set_mgr_history (mgr w) (appended (mgr w) a)
    | None => mgr w
    end.
Proof.
  destruct q as [s d|s d|p|p|o n]; simpl;
    try (unfold record_copy, record_move, record_mkdir, record_rename; apply add_action_mgr).
  unfold bind. rewrite record_delete_run.
  destruct (backup_copy (disk w) p _) as [fs1|e]; [|done].
  pose proof (add_action_mgr (mkAction DELETE p None (Some (backup_target (mgr w) p)))
                (mkWorld (mgr w) fs1)) as Hm.
  destruct (_add_action _ _) as [[[]|e] w']; simpl in *; by rewrite Hm.
Qed.

Lemma undo_mgr w :
  mgr (snd (undo w)) = set_mgr_history (mgr w) (removelast (history (mgr w))).
Proof.
  destruct (history (mgr w)) as [|a0 h0] eqn:Hh.
  - rewrite undo_empty by done. destruct w as [[h M t] d]. simpl in *. by subst h.
  - destruct (pop_tail_nonempty (a0 :: h0)) as (a & rest & E & _); [done|].
    rewrite E in Hh |- *. rewrite (undo_snoc w rest a Hh).
    fold (reversal a). rewrite keeps_reversal, removelast_last. done.
Qed.

Lemma step_fields e w :
  max_history (mgr (step e w)) = max_history (mgr w) /\
  tmpdir (mgr (step e w)) = tmpdir (mgr w).
Proof.
  destruct e as [q| |d]; simpl; [| |done].
  - rewrite record_mgr. by destruct (logged q w).
  - by rewrite undo_mgr.
Qed.

Lemma run_fields es w :
  max_history (mgr (run es w)) = max_history (mgr w) /\
  tmpdir (mgr (run es w)) = tmpdir (mgr w).
Proof.
  revert w. induction es as [|e es IH]; intros w; [done|]. simpl.
  destruct (IH (step e w)) as [-> ->]. apply step_fields.
Qed.

Lemma run_app es1 es2 w : run (es1 ++ es2) w = run es2 (run es1 w).
Proof. apply fold_left_app. Qed.

(** When no backup copy fails, every recording call records. *)
Lemma log_length_all es w :
  all_recorded es w -> length (log es w) = count_records es.
Proof.
  revert w. induction es as [|e es IH]; intros w H; [done|].
  destruct H as [He H]. simpl. rewrite length_app, (IH _ H).
  destruct e as [q| |d]; [|done|done].
  by destruct (logged q w).
Qed.

(** A session of recordings keeps the most recent entries. *)
Lemma run_history_recordings es w :
  Forall recording es ->
  (0 <= max_history (mgr w))%Z ->
  (length (history (mgr w)) <= Z.to_nat (max_history (mgr w)))%nat ->
  history (mgr (run es w)) =
    lastn (Z.to_nat (max_history (mgr w))) (history (mgr w) ++ log es w).
Proof.
  revert w. induction es as [|e es IH]; intros w Hrec H0 Hlen.
  - simpl. rewrite app_nil_r. by rewrite lastn_all.
  - apply Forall_cons_1 in Hrec as [He Hrec]. simpl.
    destruct (step_fields e w) as [EM _].
    assert (Hstep : history (mgr (step e w)) =
              lastn (Z.to_nat (max_history (mgr w)))
                (history (mgr w) ++
                 match e with
                 | Record q => match logged q w with Some a => [a] | None => [] end
                 | _ => []
                 end)).
    { destruct e as [q| |d]; [|done|].
      - simpl. rewrite record_mgr. destruct (logged q w) as [a|]; simpl.
        + by apply appended_lastn.
        + by rewrite app_nil_r, lastn_all.
      - simpl. by rewrite app_nil_r, lastn_all. }
    rewrite IH; [|done|lia|].
    + rewrite EM, Hstep, lastn_app_lastn. by rewrite app_assoc.
    + rewrite EM, Hstep, lastn_length. lia.
Qed.

Lemma in_store_set m h a : in_store (set_mgr_history m h) a <-> in_store m a.
Proof. done. Qed.

Lemma logged_in_store q w a : logged q w = Some a -> in_store (mgr w) a.
Proof.
  destruct q as [s d|s d|p|p|o n]; simpl; try (intros [= <-]; by intros bp [=]).
  destruct (backup_copy _ _ _); [|done]. intros [= <-] bp [= <-].
  split; [done|by eexists].
Qed.

Lemma appended_in_store m a :
  backups_in_store m -> in_store m a -> Forall (in_store m) (appended m a).
Proof.
  intros Hinv Ha. unfold appended.
  assert (Hall : Forall (in_store m) (history m ++ [a])).
  { apply Forall_app. split; [done|]. by apply Forall_singleton. }
  destruct (_ >? _)%Z; [|done].
  destruct (history m ++ [a]) as [|o rest]; [done|]. simpl.
  by apply Forall_cons_1 in Hall as [_ ?].
Qed.

Lemma Forall_removelast {A} (P : A -> Prop) (l : list A) :
  Forall P l -> Forall P (removelast l).
Proof.
  intros H. destruct (decide (l = [])) as [->|Hne]; [done|].
  destruct (exists_last Hne) as (l' & a & ->).
  rewrite removelast_last. by apply Forall_app in H as [? _].
Qed.

(** Every call preserves the class invariant. *)
Lemma step_in_store e w :
  backups_in_store (mgr w) -> backups_in_store (mgr (step e w)).
Proof.
  intros Hinv. destruct e as [q| |d]; simpl; [| |done].
  - rewrite record_mgr. destruct (logged q w) as [a|] eqn:Hq; [|done].
    unfold backups_in_store. simpl.
    apply (appended_in_store _ _ Hinv), (logged_in_store _ _ _ Hq).
  - rewrite undo_mgr. unfold backups_in_store. simpl.
    by apply (Forall_removelast (in_store (mgr w))).
Qed.

Lemma run_in_store es w :
  backups_in_store (mgr w) -> backups_in_store (mgr (run es w)).
Proof.
  revert w. induction es as [|e es IH]; intros w Hinv; [done|].
  simpl. by apply IH, step_in_store.
Qed.

(** A manager as [__init__] leaves it satisfies the invariant. *)
Lemma init_mgr max tmp fs : mgr (snd (init max tmp fs)) = mkManager [] max tmp.
Proof. unfold init. by rewrite keeps_call. Qed.

Lemma init_in_store max tmp fs : backups_in_store (mgr (snd (init max tmp fs))).
Proof. rewrite init_mgr. by apply Forall_nil. Qed.

(** An eviction: the head entry leaves the history and its backup leaves
    the disk. *)
Lemma add_action_evicts a w o rest bp :
  backups_in_store (mgr w) -> in_store (mgr w) a ->
  history (mgr w) ++ [a] = o :: rest ->
  (max_history (mgr w) < Z.of_nat (length (history (mgr w) ++ [a])))%Z ->
  backup_path o = Some bp ->
  exists fs', _add_action a w = (Ok tt, mkWorld (set_mgr_history (mgr w) rest) fs') /\
              node_at fs' bp = None.
Proof.
  intros Hinv Ha Hh Hlt Hb. rewrite (add_action_full a w o rest Hh Hlt), Hb.
  assert (Ho : in_store (mgr w) o).
  { assert (Hall : Forall (in_store (mgr w)) (history (mgr w) ++ [a])).
    { apply Forall_app. split; [done|]. by apply Forall_singleton. }
    rewrite Hh in Hall. by apply Forall_cons_1 in Hall as [? _]. }
  destruct (discard_ok (disk w) bp (in_store_nonroot _ _ _ Ho Hb)) as (fs' & -> & Hn).
  by exists fs'.
Qed.

Lemma record_evicts q w a o rest bp :
  backups_in_store (mgr w) ->
  logged q w = Some a ->
  history (mgr w) ++ [a] = o :: rest ->
  (max_history (mgr w) < Z.of_nat (length (history (mgr w) ++ [a])))%Z ->
  backup_path o = Some bp ->
  history (mgr (snd (record q w))) = rest /\
  node_at (disk (snd (record q w))) bp = None.
Proof.
  intros Hinv Hq Hh Hlt Hb.
  pose proof (logged_in_store _ _ _ Hq) as Ha.
  destruct q as [s d|s d|p|p|o' n]; simpl in Hq |- *;
    try (injection Hq as <-;
         unfold record_copy, record_move, record_mkdir, record_rename;
         destruct (add_action_evicts _ w o rest bp Hinv Ha Hh Hlt Hb) as (fs' & -> & Hn);
         done).
  unfold bind. rewrite record_delete_run.
  destruct (backup_copy (disk w) p _) as [fs1|e]; [|done]. injection Hq as <-.
  destruct (add_action_evicts _ (mkWorld (mgr w) fs1) o rest bp Hinv Ha Hh Hlt Hb)
    as (fs' & -> & Hn).
  done.
Qed.

(** C3 (as amended): the history is bounded and keeps the most recent
    entries.  On a manager built with a bound M >= 0, during any session
    of recording calls (with the disk changing arbitrarily in between): N
    entries are
    recorded, as many as there are calls when no backup copy of a
    [record_delete] fails; the history never holds more than M entries;
    when M < N it ends with exactly M entries, the M most recently
    recorded ones in recording order; and whenever a recording evicts the
    oldest entry, that entry leaves the history and the backup it owns is
    no longer on disk when the call returns. *)
Theorem bounded_history_keeps_most_recent
    (max : Z) (tmp : path) (d0 : fsys) (es : list event) :
  (0 <= max)%Z ->
  Forall recording es ->
  let w0 := snd (init max tmp d0) in
  let recorded := log es w0 in
  (all_recorded es w0 -> length recorded = count_records es) /\
  (forall k, (Z.of_nat (length (history (mgr (run (take k es) w0)))) <= max)%Z) /\
  ((max < Z.of_nat (length recorded))%Z ->
     history (mgr (run es w0)) = drop (length recorded - Z.to_nat max) recorded /\
     Z.of_nat (length (history (mgr (run es w0)))) = max) /\
  (forall k q a oldest rest bp,
     es !! k = Some (Record q) ->
     let w := run (take k es) w0 in
     logged q w = Some a ->
     (max < Z.of_nat (length (history (mgr w) ++ [a])))%Z ->
     history (mgr w) ++ [a] = oldest :: rest ->
     backup_path oldest = Some bp ->
     history (mgr (step (Record q) w)) = rest /\
     node_at (disk (step (Record q) w)) bp = None).
Proof.
  intros H0 Hrec w0 recorded.
  assert (Hm : mgr w0 = mkManager [] max tmp) by apply init_mgr.
  assert (Hgen : forall es', Forall recording es' ->
            history (mgr (run es' w0)) = lastn (Z.to_nat max) (log es' w0)).
  { intros es' Hrec'. rewrite run_history_recordings; rewrite ?Hm; simpl; try done. lia. }
  split; [apply log_length_all|]. split; [|split].
  - intros k. rewrite Hgen by by apply Forall_take. rewrite lastn_length. lia.
  - intros Hlt. rewrite (Hgen es Hrec). split; [done|].
    rewrite lastn_length. fold recorded. lia.
  - intros k q a oldest rest bp Hk w Hq Hlt Hh Hb. simpl.
    assert (Hinv : backups_in_store (mgr w)) by apply run_in_store, init_in_store.
    assert (HM : max_history (mgr w) = max).
    { subst w. destruct (run_fields (take k es) w0) as [-> _]. by rewrite Hm. }
    apply (record_evicts q w a oldest rest bp Hinv Hq Hh); [|done]. by rewrite HM.
Qed.

(** ** Delete, then undo *)

Lemma remove_cons2 es c c' p :
  remove (Dir es) (c :: c' :: p) =
    match es !! c with
    | Some n' =>
        match remove n' (c' :: p) with
        | Some n'' => Some (Dir (<[c:=n'']> es))
        | None => None
        end
    | None => None
    end.
Proof. done. Qed.

Lemma remove_parent fs p fs' :
  remove fs p = Some fs' -> exists es, node_at fs' (parent p) = Some (Dir es).
Proof.
  unfold parent. revert fs fs'. induction p as [|c p IH]; intros fs fs' H; [done|].
  destruct p as [|c' p].
  - simpl in *. destruct fs as [d|es]; [done|]. destruct (es !! c); [|done].
    injection H as <-. by eexists.
  - change (removelast (c :: c' :: p)) with (c :: removelast (c' :: p)).
    destruct fs as [d|es]; [done|]. rewrite remove_cons2 in H.
    destruct (es !! c) as [n'|]; [|done].
    destruct (remove n' (c' :: p)) as [n''|] eqn:R; [|done]. injection H as <-.
    cbn [node_at]. rewrite lookup_insert_eq. by apply (IH n').
Qed.

(** A successful [delete_file] detaches the path and nothing else. *)
Lemma delete_file_true p w w' :
  delete_file p w = (Ok true, w') ->
  exists fs', remove (disk w) p = Some fs' /\ w' = mkWorld (mgr w) fs'.
Proof.
  unfold delete_file, try_except, bind, ask, call, ret, rmtree, unlink, is_dir. simpl.
  destruct (node_at (disk w) p) as [[d|es]|] eqn:Hn; simpl; rewrite ?Hn; simpl;
    try (by intros [=]);
    (destruct (remove (disk w) p) as [fs'|]; simpl; [|by intros [=]]);
    intros [= <-]; by exists fs'.
Qed.

(** The DELETE branch of [undo], computed. *)
Lemma reverse_delete (a : UndoAction) (w : World) (bp : path) :
  action_type a = DELETE ->
  backup_path a = Some bp ->
  reverse_action a w =
    if exists_ (disk w) bp then
      match backup_copy (disk w) bp (source a) with
      | Ok fs1 =>
          match (if is_dir (disk w) bp then rmtree fs1 bp else unlink fs1 bp) with
          | Ok fs2 => (Ok (true, "Undid delete: restored " +:+ name (source a)),
                       mkWorld (mgr w) fs2)
          | Raise e => (Raise e, mkWorld (mgr w) fs1)
          end
      | Raise e => (Raise e, mkWorld (mgr w) (backup_leaves (disk w) bp (source a)))
      end
    else (Ok (false, "Cannot undo: backup not found"), w).
Proof.
  intros Ht Hb. unfold reverse_action. rewrite Ht, Hb.
  unfold bind, ask, call, shutil_copytree, ret, backup_copy, backup_leaves. simpl.
  destruct (exists_ (disk w) bp) eqn:He; simpl; [|done].
  destruct (is_dir (disk w) bp) eqn:Hd; simpl.
  - destruct (copytree (disk w) bp (source a)) as [fs1|e] eqn:Hc; simpl; [|done].
    by destruct (rmtree fs1 bp).
  - destruct (copy2 (disk w) bp (source a)) as [fs1|e] eqn:Hc; simpl; [|by destruct w].
    by destruct (unlink fs1 bp).
Qed.

Lemma is_prefix_nil_r p : is_prefix p [] = true -> p = [].
Proof. by destruct p. Qed.

(** Restoring a backup to a free place whose parent directory exists, and
    which does not lie inside the backup itself: the copy arrives, the
    backup goes. *)
Lemma restore_ok fs bp p n es :
  node_at fs bp = Some n ->
  node_at fs p = None ->
  node_at fs (parent p) = Some (Dir es) ->
  is_prefix bp p = false ->
  exists fs1 fs2,
    backup_copy fs bp p = Ok fs1 /\
    (if is_dir fs bp then rmtree fs1 bp else unlink fs1 bp) = Ok fs2 /\
    node_at fs2 p = Some n /\
    node_at fs2 bp = None.
Proof.
  intros Hbp Hp Hpar Hpre.
  assert (Hp0 : p <> []) by (intros ->; simpl in Hp; done).
  assert (Hbp0 : bp <> []) by (intros ->; done).
  assert (Hpre' : is_prefix p bp = false).
  { destruct (is_prefix p bp) eqn:E; [|done].
    by rewrite (node_at_None_prefix _ _ _ Hp E) in Hbp. }
  assert (Hfin : forall fs1, node_at fs1 p = Some n -> node_at fs1 bp = Some n ->
            exists fs2, remove fs1 bp = Some fs2 /\ node_at fs2 p = Some n /\
                        node_at fs2 bp = None).
  { intros fs1 H1 H2. destruct (remove_is_Some _ _ _ Hbp0 H2) as [fs2 R].
    exists fs2. split; [done|]. split.
    - by rewrite (node_at_remove_frame _ _ _ _ R Hpre Hpre').
    - by apply node_at_remove_eq in R. }
  assert (Hnot : into_itself fs bp p = false).
  { destruct (into_itself fs bp p) eqn:E; [|done].
    apply into_itself_prefix in E. congruence. }
  assert (Hex : exists_ fs p = false) by (unfold exists_; by rewrite Hp).
  destruct n as [d|es'].
  all: unfold backup_copy, is_dir, copy2, rmtree, unlink, exists_; rewrite Hbp.
  - replace (is_dir fs p) with false by (unfold is_dir; by rewrite Hp).
    rewrite Hp. rewrite decide_False by (intros ->; congruence).
    destruct (put_is_Some fs p (File d) es Hp0 Hpar) as [fs1 P]. rewrite P. simpl.
    destruct (Hfin fs1) as (fs2 & R & ? & ?).
    { by apply node_at_put_eq in P. }
    { by rewrite (node_at_put_frame _ _ _ _ _ P Hpre' Hpre). }
    exists fs1, fs2. rewrite (node_at_put_frame _ _ _ _ _ P Hpre' Hpre), Hbp, R. done.
  - rewrite (copytree_not_nested fs bp p es' Hbp Hex Hnot).
    destruct (mkput_is_Some fs p (Dir es') es Hp0 Hpar) as [fs1 P]. rewrite P. simpl.
    destruct (Hfin fs1) as (fs2 & R & ? & ?).
    { by apply node_at_mkput_eq in P. }
    { by rewrite (node_at_mkput_frame _ _ _ _ _ P Hpre' Hpre). }
    exists fs1, fs2. rewrite (node_at_mkput_frame _ _ _ _ _ P Hpre' Hpre), Hbp, R. done.
Qed.


(** ** What a call can add to the backup store *)

Lemma disjoint_sym a b : disjoint a b -> disjoint b a.
Proof. by intros [? ?]. Qed.

Lemma is_prefix_snoc_inv (q d : path) (x : string) :
  is_prefix q (d ++ [x]) = true -> is_prefix q d = true \/ q = d ++ [x].
Proof.
  intros [r Hr]%is_prefix_spec.
  destruct (decide (r = [])) as [->|Hne].
  - right. by rewrite app_nil_r in Hr.
  - destruct (exists_last Hne) as (r' & y & ->).
    rewrite app_assoc in Hr. apply app_inj_tail in Hr as [-> _].
    left. apply is_prefix_app.
Qed.

Lemma is_prefix_trans_app (d q : path) (r : path) :
  is_prefix (d ++ r) q = true -> is_prefix d q = true.
Proof.
  intros [s ->]%is_prefix_spec. rewrite <- app_assoc. apply is_prefix_app.
Qed.

Lemma disjoint_child d q x : disjoint d q -> disjoint (d ++ [x]) q.
Proof.
  intros [H1 H2]. split.
  - destruct (is_prefix (d ++ [x]) q) eqn:E; [|done].
    apply is_prefix_trans_app in E. congruence.
  - destruct (is_prefix q (d ++ [x])) eqn:E; [|done].
    apply is_prefix_snoc_inv in E as [E| ->]; [congruence|].
    by rewrite is_prefix_app in H1.
Qed.

Lemma disjoint_siblings (b : path) (n k : string) :
  n <> k -> disjoint (b ++ [n]) (b ++ [k]).
Proof.
  intros Hne. induction b as [|c b IH]; simpl.
  - split; simpl; by rewrite decide_False.
  - destruct IH as [H1 H2]. split; simpl; by rewrite decide_True.
Qed.

Lemma store_le_refl b fs : store_le b fs fs.
Proof. by intros n. Qed.

Lemma store_le_trans b fs1 fs2 fs3 :
  store_le b fs1 fs2 -> store_le b fs2 fs3 -> store_le b fs1 fs3.
Proof. intros H1 H2 n Hn. by apply H2, H1. Qed.

(** Removal creates nothing. *)
Lemma remove_exists_mono fs q fs' r :
  remove fs q = Some fs' -> exists_ fs' r = true -> exists_ fs r = true.
Proof.
  unfold exists_. revert fs fs' r. induction q as [|c q IH]; intros fs fs' r H; [done|].
  destruct fs as [d|es]; [done|]. destruct r as [|k r]; [done|].
  destruct q as [|c' q].
  - simpl in H. destruct (es !! c) eqn:Ec; [|done]. injection H as <-. simpl.
    destruct (decide (c = k)) as [->|Hne].
    + by rewrite lookup_delete_eq.
    + by rewrite lookup_delete_ne.
  - rewrite remove_cons2 in H. destruct (es !! c) as [n'|] eqn:Ec; [|done].
    destruct (remove n' (c' :: q)) as [n''|] eqn:R; [|done]. injection H as <-.
    cbn [node_at]. destruct (decide (c = k)) as [->|Hne].
    + rewrite lookup_insert_eq, Ec. apply (IH _ _ r R).
    + by rewrite lookup_insert_ne.
Qed.

Lemma remove_store_le b fs q fs' : remove fs q = Some fs' -> store_le b fs' fs.
Proof. intros R n. apply (remove_exists_mono _ _ _ _ R). Qed.

Lemma unlink_store_le b fs q fs' : unlink fs q = Ok fs' -> store_le b fs' fs.
Proof.
  unfold unlink, ok_or. destruct (node_at fs q) as [[d|es]|]; try done.
  destruct (remove fs q) eqn:R; [|done]. intros [= <-]. by apply (remove_store_le _ _ q).
Qed.

Lemma rmtree_store_le b fs q fs' : rmtree fs q = Ok fs' -> store_le b fs' fs.
Proof.
  unfold rmtree, ok_or. destruct (node_at fs q) as [[d|es]|]; try done.
  destruct (remove fs q) eqn:R; [|done]. intros [= <-]. by apply (remove_store_le _ _ q).
Qed.

Lemma rmdir_store_le b fs q fs' : rmdir fs q = Ok fs' -> store_le b fs' fs.
Proof.
  unfold rmdir, ok_or. destruct (node_at fs q) as [[d|es]|]; try done.
  destruct (Nat.eqb (size es) 0); [|done].
  destruct (remove fs q) eqn:R; [|done]. intros [= <-]. by apply (remove_store_le _ _ q).
Qed.

(** A copy changes nothing at the paths disjoint from its destination. *)
Lemma copy2_frame fs src dst fs' q :
  copy2 fs src dst = Ok fs' -> disjoint dst q -> node_at fs' q = node_at fs q.
Proof.
  unfold copy2, ok_or. intros H Hd.
  assert (Hd' : disjoint (if is_dir fs dst then dst ++ [name src] else dst) q).
  { destruct (is_dir fs dst); [by apply disjoint_child|done]. }
  destruct (node_at fs src) as [[d|es]|]; try done.
  case_decide; [done|].
  set (t := if is_dir fs dst then dst ++ [name src] else dst) in *.
  destruct Hd' as [D1 D2].
  destruct (node_at fs t) as [[d'|es']|];
    try done; (destruct (put fs t (File d)) eqn:P; [|done]); injection H as <-;
    by apply (node_at_put_frame _ _ _ _ _ P).
Qed.

Lemma copytree_frame fs src dst fs' q :
  copytree fs src dst = Ok fs' -> disjoint dst q -> node_at fs' q = node_at fs q.
Proof.
  intros H [D1 D2]. apply copytree_ok in H as (es & _ & _ & _ & P).
  by apply (node_at_mkput_frame _ _ _ _ _ P).
Qed.

Lemma backup_copy_frame fs src dst fs' q :
  backup_copy fs src dst = Ok fs' -> disjoint dst q -> node_at fs' q = node_at fs q.
Proof.
  unfold backup_copy. destruct (is_dir fs src); [apply copytree_frame|apply copy2_frame].
Qed.

Lemma frame_store_le b fs fs' dst :
  (forall q, disjoint dst q -> node_at fs' q = node_at fs q) ->
  disjoint dst b -> store_le b fs' fs.
Proof.
  intros Hf Hd n. unfold exists_.
  rewrite Hf; [done|]. by apply disjoint_sym, disjoint_child, disjoint_sym.
Qed.

Lemma os_rename_store_le b fs src dst fs' :
  os_rename fs src dst = Ok fs' -> disjoint dst b -> store_le b fs' fs.
Proof.
  unfold os_rename, ok_or. intros H Hd.
  destruct (node_at fs src) as [n|]; [|done].
  case_decide; [injection H as <-; apply store_le_refl|].
  destruct (is_prefix src dst); [done|].
  assert (Hre : match remove fs src with
                | Some fs1 => match put fs1 dst n with
                              | Some a => Ok a
                              | None => Raise FileNotFoundError
                              end
                | None => Raise InvalidArgument
                end = Ok fs' -> store_le b fs' fs).
  { destruct (remove fs src) as [fs1|] eqn:R; [|done].
    destruct (put fs1 dst n) as [fs2|] eqn:P; [|done]. intros [= <-].
    apply (store_le_trans _ _ fs1); [|by apply (remove_store_le _ _ src)].
    apply (frame_store_le _ _ _ dst); [|done].
    intros q [D1 D2]. by apply (node_at_put_frame _ _ _ _ _ P). }
  destruct n as [d|es]; destruct (node_at fs dst) as [[d'|es']|]; try done;
    try by apply Hre.
  destruct (Nat.eqb (size es') 0); [by apply Hre|done].
Qed.

Lemma shrinks_ret {A} b (a : A) : shrinks b (ret a).
Proof. intros w. apply store_le_refl. Qed.

Lemma shrinks_raise {A} b e : shrinks b (@raise A e).
Proof. intros w. apply store_le_refl. Qed.

Lemma shrinks_ask {A} b (q : fsys -> A) : shrinks b (ask q).
Proof. intros w. apply store_le_refl. Qed.

Lemma shrinks_the_path b o : shrinks b (the_path o).
Proof. destruct o; [apply shrinks_ret | apply shrinks_raise]. Qed.

Lemma shrinks_call b f :
  (forall fs fs', f fs = Ok fs' -> store_le b fs' fs) -> shrinks b (call f).
Proof.
  intros Hf w. unfold call. destruct (f (disk w)) as [fs'|e] eqn:E; simpl.
  - by apply Hf.
  - apply store_le_refl.
Qed.

Lemma shrinks_bind {A B} b (c : M A) (k : A -> M B) :
  shrinks b c -> (forall a, shrinks b (k a)) -> shrinks b (bind c k).
Proof.
  intros Hc Hk w. unfold bind. specialize (Hc w).
  destruct (c w) as [[a|e] w1]; simpl in *; [|done].
  by apply (store_le_trans _ _ (disk w1)); [apply Hk|].
Qed.

Lemma shrinks_try {A} b (c : M A) (h : exn -> M A) :
  shrinks b c -> (forall e, shrinks b (h e)) -> shrinks b (try_except c h).
Proof.
  intros Hc Hh w. unfold try_except. specialize (Hc w).
  destruct (c w) as [[a|e] w1]; simpl in *; [done|].
  by apply (store_le_trans _ _ (disk w1)); [apply Hh|].
Qed.

Lemma shrinks_if {A} b (t : bool) (c d : M A) :
  shrinks b c -> shrinks b d -> shrinks b (if t then c else d).
Proof. by destruct t. Qed.

Ltac shrink_step :=
  first
    [ apply shrinks_ret | apply shrinks_raise | apply shrinks_ask
    | apply shrinks_the_path
    | apply shrinks_bind; [|intros ?] | apply shrinks_try; [|intros ?]
    | apply shrinks_if
    | match goal with |- shrinks _ (if decide ?P then _ else _) => destruct (decide P) end
    | match goal with |- shrinks _ (match ?o with Some _ => _ | None => _ end) => destruct o end
    | apply shrinks_call; intros ? ? ? ].

Ltac shrink := repeat shrink_step.

Lemma copy_store_le b fs src dst fs' :
  backup_copy fs src dst = Ok fs' -> disjoint dst b -> store_le b fs' fs.
Proof.
  intros H Hd. apply (frame_store_le _ _ _ dst); [|done].
  intros q Hq. by apply (backup_copy_frame _ src dst).
Qed.

Lemma shrinks_shutil_copytree b src dst :
  disjoint dst b -> shrinks b (shutil_copytree src dst).
Proof.
  intros Hd w. unfold shutil_copytree.
  destruct (copytree (disk w) src dst) as [fs'|e] eqn:E; simpl;
    apply (frame_store_le _ _ _ dst); try done; intros q Hq.
  - by apply (copytree_frame _ src dst).
  - by apply copytree_leaves_frame.
Qed.

Lemma shrinks_shutil_move b src dst : disjoint dst b -> shrinks b (shutil_move src dst).
Proof.
  intros Hd. unfold shutil_move. shrink;
    try (by apply shrinks_shutil_copytree; first [done | by apply disjoint_child]);
    try (by eapply os_rename_store_le; [eassumption|try apply disjoint_child]);
    try (by eapply rmtree_store_le); try (by eapply unlink_store_le);
    try (eapply (frame_store_le _ _ _ _);
         [intros q Hq; first [by eapply copytree_frame | by eapply copy2_frame]
         |first [done | by apply disjoint_child]]).
Qed.

(** Outside of the Delete branch a reversal adds nothing to the store, as
    long as the recorded source lies outside the backup directory. *)
Lemma shrinks_reverse_action b a :
  action_type a <> DELETE -> disjoint (source a) b -> shrinks b (reverse_action a).
Proof.
  intros Ht Hd. unfold reverse_action. destruct (action_type a); [| |done| |];
    repeat first [ by apply shrinks_shutil_move | shrink_step ];
    try (by eapply rmtree_store_le); try (by eapply unlink_store_le);
    try (by eapply rmdir_store_le);
    try (by eapply os_rename_store_le).
Qed.

(** ** Backups and the entries that own them *)

Lemma name_snoc (b : path) (n : string) : name (b ++ [n]) = n.
Proof. unfold name. apply last_last. Qed.

Lemma snoc_inj (b : path) (n k : string) : b ++ [n] = b ++ [k] -> n = k.
Proof. by intros [_ ?]%app_inj_tail. Qed.

Lemma discard_store_le b fs bp fs' : discard fs bp = Ok fs' -> store_le b fs' fs.
Proof.
  unfold discard. destruct (exists_ fs bp); [|intros [= <-]; apply store_le_refl].
  destruct (is_dir fs bp); [apply rmtree_store_le|apply unlink_store_le].
Qed.

Lemma logged_source q w a : logged q w = Some a -> source a = request_source q.
Proof.
  destruct q; simpl; try by intros [= <-].
  destruct (backup_copy _ _ _); [|done]. by intros [= <-].
Qed.

(** [_add_action] keeps the invariant, provided every backup on disk is
    owned by an entry of the history or by the entry being added. *)
Lemma add_action_session a w :
  backups_in_store (mgr w) -> sources_outside (mgr w) ->
  in_store (mgr w) a -> disjoint (source a) (backup_dir (mgr w)) ->
  (forall n, exists_ (disk w) (backup_dir (mgr w) ++ [n]) = true ->
     exists a', a' ∈ history (mgr w) ++ [a] /\
                backup_path a' = Some (backup_dir (mgr w) ++ [n])) ->
  session_inv (snd (_add_action a w)).
Proof.
  intros I1 I2 Ha Hsrc J.
  assert (A1 : Forall (in_store (mgr w)) (history (mgr w) ++ [a])).
  { apply Forall_app. split; [done|]. by apply Forall_singleton. }
  assert (A2 : Forall (fun a => disjoint (source a) (backup_dir (mgr w)))
                 (history (mgr w) ++ [a])).
  { apply Forall_app. split; [done|]. by apply Forall_singleton. }
  destruct (Z.gtb_spec (Z.of_nat (length (history (mgr w) ++ [a]))) (max_history (mgr w)))
    as [Hgt|Hle].
  - destruct (snoc_is_cons (history (mgr w)) a) as (o & rest & Hh).
    rewrite (add_action_full a w o rest Hh) by lia.
    rewrite Hh in A1, A2, J.
    apply Forall_cons_1 in A1 as [Ho A1]. apply Forall_cons_1 in A2 as [_ A2].
    destruct (backup_path o) as [bp|] eqn:Hb.
    + destruct (discard_ok (disk w) bp (in_store_nonroot _ _ _ Ho Hb)) as (fs' & Hd & Hn).
      rewrite Hd. split; [done|]. split; [done|]. intros n Hex. simpl in *.
      destruct (J n) as (a' & [->|Hin]%elem_of_cons & Hb').
      { by apply (discard_store_le _ _ _ _ Hd). }
      * rewrite Hb in Hb'. injection Hb' as ->.
        unfold exists_, backup_dir in *. simpl in *. by rewrite Hn in Hex.
      * by exists a'.
    + split; [done|]. split; [done|]. intros n Hex. simpl in *.
      destruct (J n Hex) as (a' & [->|Hin]%elem_of_cons & Hb'); [congruence|].
      by exists a'.
  - rewrite add_action_room by lia. split; [done|]. split; [done|]. done.
Qed.

Lemma record_session q w :
  session_inv w -> disjoint (request_source q) (backup_dir (mgr w)) ->
  session_inv (snd (record q w)).
Proof.
  intros (I1 & I2 & J) Hsrc.
  assert (Hplain : forall a, logged q w = Some a -> backup_path a = None ->
            session_inv (snd (_add_action a w))).
  { intros a Hq Hb. apply add_action_session; try done.
    - by apply (logged_in_store q).
    - by rewrite (logged_source _ _ _ Hq).
    - intros n Hex. destruct (J n Hex) as (a' & Hin & Hb').
      exists a'. split; [|done]. apply elem_of_app. by left. }
  destruct q as [s d|s d|p|p|o n]; simpl;
    try (unfold record_copy, record_move, record_mkdir, record_rename; by apply Hplain).
  unfold bind. rewrite record_delete_run.
  destruct (backup_copy (disk w) p _) as [fs1|e] eqn:Hc.
  2:{ rewrite backup_leaves_id, world_eta; [done|].
      destruct (into_itself (disk w) p (backup_target (mgr w) p)) eqn:E; [|done].
      apply into_itself_prefix in E.
      destruct (disjoint_child _ _ (backup_name (history (mgr w)) p) (disjoint_sym _ _ Hsrc))
        as [_ D]. unfold backup_target in E. simpl in D. congruence. }
  set (entry := mkAction DELETE p None (Some (backup_target (mgr w) p))).
  assert (Hinv : session_inv (snd (_add_action entry (mkWorld (mgr w) fs1)))).
  { apply add_action_session; simpl; try done.
    - intros bp [= <-]. split; [done|by eexists].
    - intros n Hex.
      destruct (decide (n = backup_name (history (mgr w)) p)) as [->|Hne].
      + exists entry. split; [|done]. apply elem_of_app. right. by apply list_elem_of_singleton.
      + destruct (J n) as (a' & Hin & Hb').
        { unfold exists_ in *.
          rewrite <- (backup_copy_frame _ _ _ _ (backup_dir (mgr w) ++ [n]) Hc); [done|].
          by apply disjoint_siblings. }
        exists a'. split; [|done]. apply elem_of_app. by left. }
  by destruct (_add_action entry _) as [[[]|e] w'].
Qed.

Lemma removal_gone (t : bool) fs bp fs' :
  (if t then rmtree fs bp else unlink fs bp) = Ok fs' ->
  node_at fs' bp = None /\ forall b, store_le b fs' fs.
Proof.
  intros H. split.
  - destruct t; unfold rmtree, unlink, ok_or in H;
      destruct (node_at fs bp) as [[d|es]|]; try done;
      (destruct (remove fs bp) eqn:R; [|done]); injection H as <-;
      by apply node_at_remove_eq in R.
  - intros b. destruct t; [by eapply rmtree_store_le|by eapply unlink_store_le].
Qed.

Lemma undo_session w : session_inv w -> tame_event Undo w -> session_inv (step Undo w).
Proof.
  intros (I1 & I2 & J) Htame. simpl in *.
  destruct (history (mgr w)) as [|a0 h0] eqn:Hnil.
  { rewrite undo_empty by done. repeat split; done. }
  rewrite <- Hnil in *.
  destruct (pop_tail_nonempty (history (mgr w))) as (a & rest & Hh0 & Hpop);
    [by rewrite Hnil|]. clear Hnil a0 h0.
  unfold backups_in_store, sources_outside in I1, I2. rewrite Hh0 in I1, I2.
  apply Forall_app in I1 as [I1 Ia]. apply Forall_inv in Ia.
  apply Forall_app in I2 as [I2 Is]. apply Forall_inv in Is.
  specialize (Htame a rest Hpop).
  rewrite (undo_snoc w rest a Hh0). fold (reversal a).
  pose proof (keeps_reversal a (with_history w rest)) as Hm.
  assert (Hgoal : forall n,
            exists_ (disk (snd (reversal a (with_history w rest))))
                    (backup_dir (mgr w) ++ [n]) = true ->
            exists_ (disk w) (backup_dir (mgr w) ++ [n]) = true /\
            backup_path a <> Some (backup_dir (mgr w) ++ [n])).
  { destruct (decide (action_type a = DELETE)) as [Ht|Ht].
    - destruct (Htame Ht) as [r Hr]. unfold reversal, try_except.
      destruct (backup_path a) as [bp|] eqn:Hb.
      + rewrite (reverse_delete a _ bp Ht Hb) in Hr |- *. simpl in *.
        destruct (exists_ (disk w) bp) eqn:Hex.
        * destruct (backup_copy (disk w) bp (source a)) as [fs1|e] eqn:Hc; [|done].
          destruct (if is_dir (disk w) bp then rmtree fs1 bp else unlink fs1 bp)
            as [fs2|e] eqn:Hr2; [|done].
          destruct (removal_gone _ _ _ _ Hr2) as [Hgone Hle]. simpl.
          intros n Hn. split.
          -- eapply copy_store_le; [exact Hc|done|]. by apply Hle.
          -- intros [= ->]. unfold exists_ in Hn. by rewrite Hgone in Hn.
        * simpl. intros n Hn. split; [done|]. intros [= ->]. congruence.
      + unfold reverse_action. rewrite Ht, Hb. simpl. by intros n Hn.
    - assert (Hb : backup_path a = None).
      { destruct (backup_path a) as [bp|] eqn:Hb; [|done]. by destruct (Ia bp Hb). }
      assert (Hs : shrinks (backup_dir (mgr w)) (reversal a)).
      { unfold reversal. apply shrinks_try; [by apply shrinks_reverse_action|].
        intros e. apply shrinks_ret. }
      intros n Hn. split; [by apply (Hs (with_history w rest) n)|by rewrite Hb]. }
  destruct (reversal a (with_history w rest)) as [r w']. simpl in *.
  unfold session_inv, backups_in_store, sources_outside, owned. rewrite Hm.
  split; [done|]. split; [done|].
  intros n Hn. simpl. destruct (Hgoal n Hn) as [Hex Hne].
  destruct (J n Hex) as (a' & Hin & Hb'). rewrite Hh0 in Hin.
  apply elem_of_app in Hin as [Hin|Hin%list_elem_of_singleton]; [by exists a'|].
  subst a'. done.
Qed.

Lemma step_session e w : session_inv w -> tame_event e w -> session_inv (step e w).
Proof.
  destruct e as [q| |d]; [apply record_session|apply undo_session|].
  intros (I1 & I2 & J) Htame. repeat split; try done.
  intros n Hn. by apply J, Htame.
Qed.

Lemma run_session es w : session_inv w -> tame es w -> session_inv (run es w).
Proof.
  revert w. induction es as [|e es IH]; intros w Hinv Ht; [done|].
  destruct Ht as [He Ht]. simpl. by apply IH; [apply step_session|].
Qed.

Lemma tame_take k es w : tame es w -> tame (take k es) w.
Proof.
  revert k w. induction es as [|e es IH]; intros k w Ht; [by destruct k|].
  destruct k as [|k]; [done|]. destruct Ht as [He Ht]. simpl. split; [done|by apply IH].
Qed.

(** A manager as [__init__] leaves it, on a disk whose backup directory
    holds nothing, satisfies the session invariant. *)
Lemma init_session max tmp d0 :
  (forall n, exists_ d0 (tmp ++ ["mocommander_undo"] ++ [n]) = false) ->
  session_inv (snd (init max tmp d0)).
Proof.
  intros Hempty. split; [apply init_in_store|]. split.
  { unfold sources_outside. rewrite init_mgr. by apply Forall_nil. }
  intros n. rewrite init_mgr. unfold backup_dir. simpl.
  unfold init, call, mkdir_exist_ok, ok_or. simpl.
  set (b := tmp ++ ["mocommander_undo"]).
  assert (Hn : exists_ d0 (b ++ [n]) = false) by (unfold b; rewrite <- app_assoc; apply Hempty).
  destruct (node_at d0 b) as [[d|es]|] eqn:Hb; simpl; try congruence.
  destruct (put d0 b empty_dir) as [fs'|] eqn:P; simpl; [|congruence].
  unfold exists_. rewrite node_at_app, (node_at_put_eq _ _ _ _ P). simpl.
  by rewrite lookup_empty.
Qed.

Lemma size_list_to_set_le (l : list string) :
  (size (list_to_set l : gset string) <= length l)%nat.
Proof.
  induction l as [|x l IH].
  { rewrite list_to_set_nil, size_empty. done. }
  rewrite list_to_set_cons, size_union_alt, size_singleton. simpl.
  assert (Hsub : list_to_set l ∖ {[x]} ⊆ (list_to_set l : gset string)).
  { intros y Hy. by apply elem_of_difference in Hy as [? _]. }
  apply subseteq_size in Hsub. lia.
Qed.

Lemma omap_store_name_le m h :
  Forall (in_store m) h -> (length (omap store_name h) <= count_deletes h)%nat.
Proof.
  induction 1 as [|a h Ha _ IH]; simpl; [done|].
  unfold store_name at 1, is_delete.
  destruct (backup_path a) as [bp|] eqn:Hb; simpl.
  - destruct (Ha bp Hb) as [-> _]. simpl. apply le_n_S, IH.
  - destruct (action_type a); simpl; first [exact IH | apply le_S, IH].
Qed.

(** Under the session invariant the store holds at most as many entries
    as the history holds Delete entries. *)
Lemma session_count w :
  session_inv w ->
  (entry_count (disk w) (backup_dir (mgr w)) <= count_deletes (history (mgr w)))%nat.
Proof.
  intros (I1 & _ & J). unfold entry_count.
  destruct (node_at (disk w) (backup_dir (mgr w))) as [[d|es]|] eqn:Hb; try lia.
  etransitivity; [|by apply (omap_store_name_le (mgr w))].
  etransitivity; [|apply size_list_to_set_le].
  rewrite <- size_dom. apply subseteq_size. intros n Hn.
  apply elem_of_dom in Hn as [x Hx].
  destruct (J n) as (a & Hin & Ha).
  { unfold exists_. rewrite node_at_app, Hb. simpl. by rewrite Hx. }
  apply elem_of_list_to_set, list_elem_of_omap. exists a. split; [done|].
  unfold store_name. by rewrite Ha, name_snoc.
Qed.

(** The world [record_delete] leaves when it answers [True]. *)
Lemma record_delete_true p w w1 :
  record_delete p w = (Ok true, w1) ->
  exists fs1,
    backup_copy (disk w) p (backup_target (mgr w) p) = Ok fs1 /\
    w1 = snd (_add_action (mkAction DELETE p None (Some (backup_target (mgr w) p)))
                          (mkWorld (mgr w) fs1)).
Proof.
  rewrite record_delete_run.
  destruct (backup_copy (disk w) p _) as [fs1|e]; [|by intros [=]].
  destruct (_add_action _ _) as [[[]|e] w'] eqn:E; intros [= <-].
  exists fs1. by rewrite E.
Qed.

(** A copy to a free place puts the source's node there. *)
Lemma backup_copy_arrives fs p bp fs1 :
  backup_copy fs p bp = Ok fs1 -> exists_ fs bp = false ->
  node_at fs1 bp = node_at fs p.
Proof.
  unfold backup_copy. intros H Hfree. destruct (is_dir fs p) eqn:Hd.
  { apply copytree_ok in H as (es & Hs & _ & _ & P). rewrite Hs.
    by apply node_at_mkput_eq in P. }
  revert H Hfree Hd. unfold copy2, is_dir, exists_, ok_or. intros H Hfree Hd.
  destruct (node_at fs bp) eqn:Hbp; [done|].
  destruct (node_at fs p) as [[d|es]|] eqn:Hp; try done.
  case_decide; [done|]. rewrite Hbp in H.
  destruct (put fs bp (File d)) eqn:P; [|done]. injection H as <-.
  by apply node_at_put_eq in P.
Qed.

(** The disk [_add_action] leaves: the one it found, or that one without
    the backup of the evicted head entry. *)
Lemma add_action_disk a w :
  disk (snd (_add_action a w)) = disk w \/
  exists o rest bp,
    history (mgr w) ++ [a] = o :: rest /\ backup_path o = Some bp /\
    discard (disk w) bp = Ok (disk (snd (_add_action a w))).
Proof.
  destruct (Z.gtb_spec (Z.of_nat (length (history (mgr w) ++ [a]))) (max_history (mgr w)))
    as [Hgt|Hle]; [|left; by rewrite add_action_room].
  destruct (snoc_is_cons (history (mgr w)) a) as (o & rest & Hh).
  rewrite (add_action_full a w o rest Hh) by lia.
  destruct (backup_path o) as [bp|] eqn:Hb; [|by left].
  destruct (discard (disk w) bp) as [fs'|e] eqn:Hd; [|by left].
  right. by exists o, rest, bp.
Qed.

(** After a recorded deletion and the removal of the path, a backup that
    is on disk and was written to a free place holds what the path held. *)
Lemma backup_holds_original w w1 w2 p :
  backups_in_store (mgr w) ->
  record_delete p w = (Ok true, w1) ->
  delete_file p w1 = (Ok true, w2) ->
  is_prefix (backup_target (mgr w) p) p = false ->
  exists_ (disk w) (backup_target (mgr w) p) = false ->
  exists_ (disk w2) (backup_target (mgr w) p) = true ->
  node_at (disk w2) (backup_target (mgr w) p) = node_at (disk w) p.
Proof.
  intros Hinv Hrec Hdel Hpre Hfree Hex.
  set (bp := backup_target (mgr w) p) in *.
  set (entry := mkAction DELETE p None (Some bp)).
  destruct (record_delete_true _ _ _ Hrec) as (fs1 & Hc & Hw1).
  fold bp in Hc, Hw1. fold entry in Hw1.
  destruct (delete_file_true _ _ _ Hdel) as (fs2 & R & ->). simpl in Hex |- *.
  assert (Hpre' : is_prefix p bp = false).
  { destruct (is_prefix p bp) eqn:E; [|done]. unfold exists_ in Hex.
    by rewrite (node_at_None_prefix _ _ _ (node_at_remove_eq _ _ _ R) E) in Hex. }
  rewrite (node_at_remove_frame _ _ _ _ R Hpre' Hpre).
  rewrite <- (backup_copy_arrives _ _ _ _ Hc Hfree).
  pose proof (add_action_disk entry (mkWorld (mgr w) fs1)) as Hd.
  rewrite <- Hw1 in Hd. simpl in Hd.
  destruct Hd as [Hd|(o & rest & bpo & Hh & Hb & Hd)]; [by rewrite Hd|].
  assert (Ho : in_store (mgr w) o).
  { assert (Hall : Forall (in_store (mgr w)) (history (mgr w) ++ [entry])).
    { apply Forall_app. split; [done|]. apply Forall_singleton.
      intros bp' [= <-]. split; [done|by eexists]. }
    rewrite Hh in Hall. by apply Forall_cons_1 in Hall as [? _]. }
  destruct (Ho bpo Hb) as [_ [n ->]].
  destruct (decide (n = backup_name (history (mgr w)) p)) as [->|Hne].
  - destruct (discard_ok fs1 bp) as (fs' & Hd' & Hn); [by intros ->|].
    unfold bp, backup_target in Hd'. rewrite Hd in Hd'. injection Hd' as <-.
    unfold exists_ in Hex.
    rewrite (node_at_remove_frame _ _ _ _ R Hpre' Hpre) in Hex.
    by rewrite Hn in Hex.
  - destruct (disjoint_siblings (backup_dir (mgr w)) n (backup_name (history (mgr w)) p) Hne)
      as [D1 D2].
    apply (discard_frame _ _ _ _ Hd D1 D2).
Qed.

(** Delete, then undo, away from the backup.  When [record_delete]
    returned [True] for a path that does not lie inside its own backup, the
    Delete entry is at the tail of the history and [delete_file] removed
    the path:
    if the backup is still there, [undo] puts its content at the original
    path, removes the backup from the store and reports success with the
    item's name; if the backup is gone, [undo] reports failure with
    "backup not found" and changes nothing on disk.  Either way the entry
    has left the history.  A backup that is still there and was written to
    a free place of the store holds what the path held before the deletion,
    so that this content is what [undo] brings back. *)
Theorem delete_then_undo_restores
    (w w1 w2 : World) (p : path) (rest : list UndoAction) :
  let bp := backup_target (mgr w) p in
  record_delete p w = (Ok true, w1) ->
  history (mgr w1) = rest ++ [mkAction DELETE p None (Some bp)] ->
  delete_file p w1 = (Ok true, w2) ->
  is_prefix bp p = false ->
  (exists_ (disk w2) bp = true ->
     exists w3,
       undo w2 = (Ok (true, "Undid delete: restored " +:+ name p), w3) /\
       node_at (disk w3) p = node_at (disk w2) bp /\
       node_at (disk w3) bp = None /\
       mgr w3 = set_mgr_history (mgr w1) rest /\
       (backups_in_store (mgr w) -> exists_ (disk w) bp = false ->
        node_at (disk w3) p = node_at (disk w) p)) /\
  (exists_ (disk w2) bp = false ->
     undo w2 = (Ok (false, "Cannot undo: backup not found"), with_history w2 rest)).
Proof.
  intros bp Hrec Hh Hdel Hpre.
  pose proof (fun Hinv Hfree Hex =>
                backup_holds_original w w1 w2 p Hinv Hrec Hdel Hpre Hfree Hex) as Horig.
  fold bp in Horig.
  destruct (delete_file_true _ _ _ Hdel) as (fs2 & R & ->). simpl in *.
  assert (Hu : undo (mkWorld (mgr w1) fs2) =
            reversal (mkAction DELETE p None (Some bp))
                     (mkWorld (set_mgr_history (mgr w1) rest) fs2)).
  { by apply undo_snoc_world. }
  rewrite Hu. unfold reversal, try_except.
  rewrite (reverse_delete (mkAction DELETE p None (Some bp)) _ bp eq_refl eq_refl). simpl.
  split; intros He; rewrite He; [|done].
  assert (He' := He).
  unfold exists_ in He. destruct (node_at fs2 bp) as [n|] eqn:Hbp; [|done].
  destruct (remove_parent _ _ _ R) as [es Hpar].
  destruct (restore_ok fs2 bp p n es Hbp (node_at_remove_eq _ _ _ R) Hpar Hpre)
    as (fs3 & fs4 & -> & -> & Hn & Hb).
  eexists. split; [done|]. simpl. rewrite Hn, Hb. repeat split; try done.
  intros Hinv Hfree. by rewrite <- (Horig Hinv Hfree He').
Qed.

(** C5 (as amended): backups do not outnumber the Delete entries.  Take a
    manager built on a disk whose backup directory holds no entry, and a
    session of recording and undo calls in which the recorded source paths
    lie outside the backup directory, nothing but the manager adds entries
    to that directory, and no Delete reversal raises.  Then at every point
    of the session every backup on disk is owned by an entry still in the
    history, and the number of entries of the backup directory is at most
    the number of Delete entries in the history. *)
Theorem backups_never_outnumber_delete_entries
    (max : Z) (tmp : path) (d0 : fsys) (es : list event) :
  entry_count d0 (tmp ++ ["mocommander_undo"]) = 0%nat ->
  tame es (snd (init max tmp d0)) ->
  forall k,
    let w := run (take k es) (snd (init max tmp d0)) in
    owned w /\
    (entry_count (disk w) (backup_dir (mgr w)) <= count_deletes (history (mgr w)))%nat.
Proof.
  intros Hempty Htame k w.
  assert (Hinv : session_inv w).
  { apply run_session; [|by apply tame_take]. apply init_session.
    intros n. rewrite app_assoc. unfold exists_, entry_count in *.
    rewrite node_at_app.
    destruct (node_at d0 (tmp ++ ["mocommander_undo"])) as [[d|es']|]; try done.
    simpl. apply map_size_empty_iff in Hempty. subst es'. by rewrite lookup_empty. }
  split; [apply Hinv|by apply session_count].
Qed.

(** * Further properties: the file operations and their undo *)

(** ** More on the tree *)

Lemma put_cons2 es c c' p x :
  put (Dir es) (c :: c' :: p) x =
    match es !! c with
    | Some n' =>
        match put n' (c' :: p) x with
        | Some n'' => Some (Dir (<[c:=n'']> es))
        | None => None
        end
    | None => None
    end.
Proof. done. Qed.


(** Storing a node at a free place and detaching it again gives the tree
    one started from. *)
Lemma remove_put_id fs p n fs1 :
  node_at fs p = None -> put fs p n = Some fs1 -> remove fs1 p = Some fs.
Proof.
  revert fs fs1. induction p as [|c p IH]; intros fs fs1 Hn P; [done|].
  destruct fs as [d|es]; [done|]. destruct p as [|c' p].
  - simpl in *. destruct (es !! c) as [n'|] eqn:Ec; [done|].
    injection P as <-. simpl. by rewrite lookup_insert_eq, delete_insert_id.
  - rewrite put_cons2 in P. cbn [node_at] in Hn.
    destruct (es !! c) as [n'|] eqn:Ec; [|done].
    destruct (put n' (c' :: p) n) as [n''|] eqn:P'; [|done]. injection P as <-.
    rewrite remove_cons2, lookup_insert_eq, (IH n' n'' Hn P').
    by rewrite insert_insert_eq, insert_id.
Qed.

Lemma mkput_cons es c q x :
  mkput (Dir es) (c :: q) x =
    match mkput (default empty_dir (es !! c)) q x with
    | Some n'' => Some (Dir (<[c:=n'']> es))
    | None => None
    end.
Proof. done. Qed.

(** Below an existing directory [os.makedirs] has nothing to create. *)
Lemma mkput_put fs p x es :
  p <> [] -> node_at fs (parent p) = Some (Dir es) -> mkput fs p x = put fs p x.
Proof.
  unfold parent. revert fs. induction p as [|c p IH]; intros fs Hp H; [done|].
  destruct p as [|c' p].
  - simpl in *. injection H as ->. done.
  - change (removelast (c :: c' :: p)) with (c :: removelast (c' :: p)) in H.
    simpl in H. destruct fs as [d|es']; [done|].
    rewrite put_cons2, mkput_cons.
    destruct (es' !! c) as [n'|]; [|done].
    change (default empty_dir (Some n')) with n'.
    by rewrite (IH n').
Qed.

(** What is stored at a path shows in the directory above it. *)
Lemma node_at_put_parent fs p c x fs1 es :
  put fs (p ++ [c]) x = Some fs1 -> node_at fs p = Some (Dir es) ->
  node_at fs1 p = Some (Dir (<[c:=x]> es)).
Proof.
  revert fs fs1. induction p as [|k p IH]; intros fs fs1 P Hn.
  - simpl in *. injection Hn as ->. by injection P as <-.
  - destruct fs as [d|es']; [done|]. cbn [node_at] in Hn.
    destruct (es' !! k) as [n'|] eqn:Ek; [|done].
    assert (E : (k :: p) ++ [c] = k :: (p ++ [c])) by done. rewrite E in P.
    destruct (p ++ [c]) as [|c' q] eqn:Eq; [by destruct p|].
    rewrite put_cons2, Ek in P.
    destruct (put n' (c' :: q) x) as [n''|] eqn:P'; [|done]. injection P as <-.
    cbn [node_at]. rewrite lookup_insert_eq. by apply (IH n').
Qed.



(** ** Copy, and the undo of a copy *)

(** The COPY branch of [undo], computed: whatever is at the destination is
    detached, a file by [unlink], a directory by [rmtree]. *)
Lemma reverse_copy (a : UndoAction) (w : World) (dst : path) :
  action_type a = COPY ->
  destination a = Some dst ->
  reverse_action a w =
    match node_at (disk w) dst with
    | None => (Ok (true, "Undid copy: removed " +:+ name dst), w)
    | Some _ =>
        match remove (disk w) dst with
        | Some fs' => (Ok (true, "Undid copy: removed " +:+ name dst), mkWorld (mgr w) fs')
        | None => (Raise InvalidArgument, w)
        end
    end.
Proof.
  intros Ht Hd. unfold reverse_action. rewrite Ht, Hd.
  unfold bind, ask, the_path, ret, call, exists_, is_dir, rmtree, unlink. simpl.
  destruct (node_at (disk w) dst) as [[d|es]|] eqn:Hn; simpl; rewrite ?Hn; try done;
    by destruct (remove (disk w) dst).
Qed.

(** X1: undoing a Copy removes whatever is at the recorded destination
    at that moment, a file or a whole directory, without comparing it with
    what was copied; it reports success, the entry leaves the history, and
    every path that is neither above nor below the destination keeps its
    content. *)
Theorem undo_copy_removes_whatever_is_there
    (w : World) (h : list UndoAction) (a : UndoAction) (dst : path) (x : node) :
  history (mgr w) = h ++ [a] ->
  action_type a = COPY ->
  destination a = Some dst ->
  node_at (disk w) dst = Some x ->
  dst <> [] ->
  exists w',
    undo w = (Ok (true, "Undid copy: removed " +:+ name dst), w') /\
    mgr w' = set_mgr_history (mgr w) h /\
    node_at (disk w') dst = None /\
    (forall q, disjoint dst q -> node_at (disk w') q = node_at (disk w) q).
Proof.
  intros Hh Ht Hd Hn Hne.
  rewrite (undo_snoc w h a Hh). unfold try_except.
  rewrite (reverse_copy a _ dst Ht Hd). simpl. rewrite Hn.
  destruct (remove_is_Some _ _ _ Hne Hn) as [fs' R]. rewrite R.
  eexists. split; [done|]. split; [done|]. simpl. split.
  - by apply node_at_remove_eq in R.
  - intros q [D1 D2]. by apply (node_at_remove_frame _ _ _ _ R).
Qed.

(** [copy_file] on a regular file is [copy2]. *)
Lemma copy_file_file merge src dst w d :
  node_at (disk w) src = Some (File d) ->
  copy_file merge src dst w =
    match copy2 (disk w) src dst with
    | Ok fs1 => (Ok true, mkWorld (mgr w) fs1)
    | Raise _ => (Ok false, w)
    end.
Proof.
  intros Hs. unfold copy_file, try_except, bind, ask, call, ret, is_dir. simpl.
  rewrite Hs. by destruct (copy2 (disk w) src dst).
Qed.

(** [copy_file] to a free place is [copytree] for a directory and [copy2]
    otherwise: the library's merging is not involved. *)
Lemma copy_file_free merge src dst w :
  node_at (disk w) dst = None ->
  copy_file merge src dst w =
    match backup_copy (disk w) src dst with
    | Ok fs1 => (Ok true, mkWorld (mgr w) fs1)
    | Raise _ => (Ok false, mkWorld (mgr w) (backup_leaves (disk w) src dst))
    end.
Proof.
  intros Hd.
  unfold copy_file, copytree_exist_ok, backup_copy, backup_leaves, try_except, bind, ask,
    call, shutil_copytree, ret, raise, is_dir. simpl.
  destruct (node_at (disk w) src) as [[d|es]|] eqn:Hs; simpl.
  - destruct (copy2 (disk w) src dst); [done|by destruct w].
  - rewrite Hs. simpl. rewrite Hd. simpl. by destruct (copytree (disk w) src dst).
  - destruct (copy2 (disk w) src dst); [done|by destruct w].
Qed.

(** A copy to a free place below an existing directory stores the source's
    node there and does nothing else. *)
Lemma backup_copy_free fs src dst fs1 es :
  backup_copy fs src dst = Ok fs1 ->
  node_at fs dst = None -> node_at fs (parent dst) = Some (Dir es) ->
  exists x, node_at fs src = Some x /\ put fs dst x = Some fs1.
Proof.
  unfold backup_copy. intros H Hd Hpar.
  assert (Hne : dst <> []) by (intros ->; done).
  destruct (is_dir fs src) eqn:Hdir.
  { apply copytree_ok in H as (es' & Hs & _ & _ & P). exists (Dir es'). split; [done|].
    by rewrite <- (mkput_put _ _ _ es Hne Hpar). }
  revert H Hdir. unfold copy2, is_dir, ok_or. rewrite Hd. intros H Hdir.
  destruct (node_at fs src) as [[d|es']|] eqn:Hs; try done.
  case_decide; [done|]. rewrite Hd in H. exists (File d). split; [done|].
  by destruct (put fs dst (File d)) eqn:P; [injection H as <-|].
Qed.

(** The handler with room in the history: the answer of the operation,
    and on success one more entry and the disk the operation left. *)
Lemma record_after (op : M bool) (a : UndoAction) (w : World) (b : bool) (w1 : World) :
  keeps_mgr op ->
  (Z.of_nat (length (history (mgr w))) < max_history (mgr w))%Z ->
  op w = (Ok b, w1) ->
  (ok <~ op ;; if ok then _add_action a ;;; ret true else ret false) w =
    (Ok b, if b then with_history w1 (history (mgr w) ++ [a]) else w1).
Proof.
  intros Hk Hroom Hop. unfold bind at 1. rewrite Hop.
  destruct b; [|done]. unfold bind.
  pose proof (Hk w) as Hm. rewrite Hop in Hm. simpl in Hm.
  rewrite add_action_room.
  2:{ rewrite Hm, length_app. simpl. lia. }
  simpl. by rewrite Hm.
Qed.

Lemma keeps_effect f : keeps_mgr (effect f).
Proof. intros w. unfold effect. by destruct (f (disk w)). Qed.

Lemma keeps_copy_file merge src dst : keeps_mgr (copy_file merge src dst).
Proof.
  unfold copy_file, copytree_exist_ok.
  repeat first [ apply keeps_effect | apply keeps_ret | apply keeps_raise | apply keeps_ask
               | apply keeps_call | apply keeps_shutil_copytree
               | apply keeps_bind; [|intros ?]
               | apply keeps_try; [|intros ?] | apply keeps_if
               | match goal with |- keeps_mgr (match ?o with _ => _ end) => destruct o end ].
Qed.

Lemma keeps_move_file src dst : keeps_mgr (move_file src dst).
Proof. unfold move_file. keeps. Qed.

Lemma keeps_create_directory p : keeps_mgr (create_directory p).
Proof. unfold create_directory. keeps. Qed.

Lemma keeps_rename_file src n run : rename_file src n = Some run -> keeps_mgr run.
Proof.
  unfold rename_file. destruct (sibling src n) as [dst|]; [|done].
  intros [= <-]. keeps.
Qed.

(** X2: copy, then undo, is a round trip when the destination was free.
    If the handler copies an item (a file or a directory) to a place where
    nothing was, inside an existing directory, and there is room in the
    history, then [undo] reports success and leaves the world, disk and
    history, exactly as it was before the copy. *)
Theorem copy_then_undo_round_trip
    (merge : path -> path -> fs_effect) (w w1 : World) (src dst : path)
    (es : gmap string node) :
  node_at (disk w) dst = None ->
  node_at (disk w) (parent dst) = Some (Dir es) ->
  (Z.of_nat (length (history (mgr w))) < max_history (mgr w))%Z ->
  copy_item merge src dst w = (Ok true, w1) ->
  (exists x, node_at (disk w) src = Some x /\ node_at (disk w1) dst = Some x) /\
  undo w1 = (Ok (true, "Undid copy: removed " +:+ name dst), w).
Proof.
  intros Hd Hpar Hroom Hitem.
  destruct (copy_file merge src dst w) as [r w0] eqn:Hc.
  assert (Hr : exists b, r = Ok b).
  { rewrite (copy_file_free _ _ _ _ Hd) in Hc.
    destruct (backup_copy (disk w) src dst); injection Hc as <- <-; eauto. }
  destruct Hr as [b ->].
  unfold copy_item, record_copy in Hitem.
  rewrite (record_after _ _ w b w0 (keeps_copy_file merge src dst) Hroom Hc) in Hitem.
  injection Hitem as -> <-.
  rewrite (copy_file_free _ _ _ _ Hd) in Hc.
  destruct (backup_copy (disk w) src dst) as [fs1|e] eqn:Hb; [|done].
  injection Hc as <-.
  destruct (backup_copy_free _ _ _ _ es Hb Hd Hpar) as (x & Hx & P).
  split.
  { exists x. split; [done|]. simpl. by apply node_at_put_eq in P. }
  set (a := mkAction COPY src (Some dst) None).
  rewrite (undo_snoc (with_history (mkWorld (mgr w) fs1) (history (mgr w) ++ [a]))
             (history (mgr w)) a eq_refl).
  unfold try_except.
  rewrite (reverse_copy a _ dst eq_refl eq_refl). simpl.
  rewrite (node_at_put_eq _ _ _ _ P), (remove_put_id _ _ _ _ Hd P).
  by destruct w as [[h0 m0 t0] d0].
Qed.


Lemma copy2_keeps_destination fs src dst fs1 x0 :
  copy2 fs src dst = Ok fs1 -> node_at fs dst = Some x0 ->
  exists x1, node_at fs1 dst = Some x1.
Proof.
  unfold copy2, is_dir, ok_or. intros H Hd. rewrite Hd in H.
  destruct (node_at fs src) as [[d|es]|]; try done.
  destruct x0 as [d0|es0].
  - case_decide; [done|]. rewrite Hd in H.
    destruct (put fs dst (File d)) eqn:P; [|done]. injection H as <-.
    exists (File d). by apply node_at_put_eq in P.
  - case_decide; [done|].
    destruct (node_at fs (dst ++ [name src])) as [[d1|es1]|]; try done;
      (destruct (put fs (dst ++ [name src]) (File d)) eqn:P; [|done]); injection H as <-;
      eexists; apply (node_at_put_parent _ _ _ _ _ es0 P Hd).
Qed.

(** X3: copy onto something that exists, then undo: the destination is
    gone altogether.  When a regular file is copied to a destination where
    a file or a directory already is (the file is written over the old
    file, or into the directory), the handler records the destination, and
    [undo] then removes it with everything it held before the copy, and
    reports success. *)
Theorem copy_onto_existing_then_undo_removes_it
    (merge : path -> path -> fs_effect) (w w1 : World) (src dst : path)
    (d : string) (x0 : node) :
  node_at (disk w) src = Some (File d) ->
  node_at (disk w) dst = Some x0 ->
  dst <> [] ->
  (Z.of_nat (length (history (mgr w))) < max_history (mgr w))%Z ->
  copy_item merge src dst w = (Ok true, w1) ->
  exists w2,
    undo w1 = (Ok (true, "Undid copy: removed " +:+ name dst), w2) /\
    mgr w2 = mgr w /\
    forall q, node_at (disk w2) (dst ++ q) = None.
Proof.
  intros Hs Hd Hne Hroom Hitem.
  destruct (copy_file merge src dst w) as [r w0] eqn:Hc.
  rewrite (copy_file_file _ _ _ _ _ Hs) in Hc.
  unfold copy_item, record_copy in Hitem.
  destruct (copy2 (disk w) src dst) as [fs1|e] eqn:Hb; injection Hc as <- <-.
  2:{ unfold bind in Hitem. rewrite (copy_file_file _ _ _ _ _ Hs), Hb in Hitem. done. }
  rewrite (record_after _ _ w true (mkWorld (mgr w) fs1)
             (keeps_copy_file merge src dst) Hroom) in Hitem.
  2:{ by rewrite (copy_file_file _ _ _ _ _ Hs), Hb. }
  injection Hitem as <-.
  destruct (copy2_keeps_destination _ _ _ _ _ Hb Hd) as [x1 Hx1].
  set (a := mkAction COPY src (Some dst) None).
  rewrite (undo_snoc (with_history (mkWorld (mgr w) fs1) (history (mgr w) ++ [a]))
             (history (mgr w)) a eq_refl).
  unfold try_except.
  rewrite (reverse_copy a _ dst eq_refl eq_refl). simpl. rewrite Hx1.
  destruct (remove_is_Some _ _ _ Hne Hx1) as [fs2 R]. rewrite R.
  eexists. split; [done|]. simpl. split.
  - by destruct w as [[h0 m0 t0] d0].
  - intros q. apply (node_at_None_prefix _ dst); [|apply is_prefix_app].
    by apply node_at_remove_eq in R.
Qed.

(** ** Move, and the undo of a move *)





Lemma is_prefix_trans a b c :
  is_prefix a b = true -> is_prefix b c = true -> is_prefix a c = true.
Proof.
  intros [r ->]%is_prefix_spec [s ->]%is_prefix_spec.
  rewrite <- app_assoc. apply is_prefix_app.
Qed.

Lemma parent_snoc (p : path) (x : string) : parent (p ++ [x]) = p.
Proof. unfold parent. apply removelast_last. Qed.






(** ** Creating a directory, and the undo of it *)


Lemma put_needs_parent fs p x fs1 :
  put fs p x = Some fs1 -> exists es, node_at fs (parent p) = Some (Dir es).
Proof.
  revert fs fs1. induction p as [|c p IH]; intros fs fs1 P; [done|].
  destruct fs as [d|es]; [done|].
  destruct p as [|c' p]; [by exists es|].
  rewrite put_cons2 in P. destruct (es !! c) as [n'|] eqn:Ec; [|done].
  destruct (put n' (c' :: p) x) as [n''|] eqn:P'; [|done].
  destruct (IH _ _ P') as [es' H]. exists es'.
  unfold parent in *. change (removelast (c :: c' :: p)) with (c :: removelast (c' :: p)).
  cbn [node_at]. by rewrite Ec.
Qed.

Lemma mkput_creates_parent fs q c x fs1 :
  mkput fs (q ++ [c]) x = Some fs1 -> node_at fs q = None ->
  node_at fs1 q = Some (Dir {[ c := x ]}).
Proof.
  revert fs fs1. induction q as [|k q IH]; intros fs fs1 P Hn; [done|].
  change ((k :: q) ++ [c]) with (k :: (q ++ [c])) in P.
  destruct fs as [d|es]; [done|]. rewrite mkput_cons in P. cbn [node_at] in Hn.
  destruct (mkput (default empty_dir (es !! k)) (q ++ [c]) x) as [n''|] eqn:P'; [|done].
  injection P as <-. cbn [node_at]. rewrite lookup_insert_eq.
  destruct (es !! k) as [n'|] eqn:Ek.
  - by apply (IH n').
  - simpl in P'. destruct q as [|k' q].
    + simpl in P'. injection P' as <-. simpl. by rewrite insert_empty.
    + by apply (IH empty_dir).
Qed.

Lemma node_at_remove_parent fs q c fs1 es :
  remove fs (q ++ [c]) = Some fs1 -> node_at fs q = Some (Dir es) ->
  node_at fs1 q = Some (Dir (delete c es)).
Proof.
  revert fs fs1. induction q as [|k q IH]; intros fs fs1 R Hn.
  - simpl in Hn. injection Hn as ->. simpl in R.
    destruct (es !! c); [|done]. by injection R as <-.
  - destruct fs as [d|es']; [done|]. cbn [node_at] in Hn.
    destruct (es' !! k) as [n'|] eqn:Ek; [|done].
    change ((k :: q) ++ [c]) with (k :: (q ++ [c])) in R.
    destruct (q ++ [c]) as [|c' r] eqn:Eq; [by destruct q|].
    rewrite remove_cons2, Ek in R.
    destruct (remove n' (c' :: r)) as [n''|] eqn:R'; [|done]. injection R as <-.
    cbn [node_at]. rewrite lookup_insert_eq. by apply (IH n').
Qed.

Lemma create_directory_run p w :
  create_directory p w =
    match mkdir_parents_exist_ok (disk w) p with
    | Ok fs1 => (Ok true, mkWorld (mgr w) fs1)
    | Raise _ => (Ok false, w)
    end.
Proof.
  unfold create_directory, try_except, bind, call, ret.
  destruct (mkdir_parents_exist_ok (disk w) p); [done|]. by destruct w.
Qed.


(** X7: a directory created together with its parent is only half undone.
    [create_directory] makes the missing ancestors as well, but one Mkdir
    entry for the leaf is recorded: [undo] removes the leaf and reports
    success, and the parent directory that did not exist before the
    operation stays on disk, empty. *)
Theorem mkdir_with_missing_parent_undo_leaves_parent
    (w w1 : World) (q : path) (c : string) :
  node_at (disk w) q = None ->
  (Z.of_nat (length (history (mgr w))) < max_history (mgr w))%Z ->
  mkdir_item (q ++ [c]) w = (Ok true, w1) ->
  node_at (disk w1) q = Some (Dir {[ c := empty_dir ]}) /\
  exists w2,
    undo w1 = (Ok (true, "Undid mkdir: removed " +:+ c), w2) /\
    mgr w2 = mgr w /\
    node_at (disk w2) q = Some empty_dir.
Proof.
  intros Hn Hroom Hitem.
  assert (Hleaf : node_at (disk w) (q ++ [c]) = None).
  { apply (node_at_None_prefix _ q); [done|apply is_prefix_app]. }
  destruct (mkput (disk w) (q ++ [c]) empty_dir) as [fs1|] eqn:P.
  2:{ unfold mkdir_item, bind in Hitem. rewrite create_directory_run in Hitem.
      unfold mkdir_parents_exist_ok in Hitem. rewrite Hleaf, P in Hitem. done. }
  assert (Hc : create_directory (q ++ [c]) w = (Ok true, mkWorld (mgr w) fs1)).
  { rewrite create_directory_run. unfold mkdir_parents_exist_ok. by rewrite Hleaf, P. }
  unfold mkdir_item, record_mkdir in Hitem.
  rewrite (record_after _ _ w true _ (keeps_create_directory _) Hroom Hc) in Hitem.
  injection Hitem as <-. simpl.
  pose proof (mkput_creates_parent _ _ _ _ _ P Hn) as Hq.
  split; [done|].
  set (a := mkAction MKDIR (q ++ [c]) None None).
  rewrite (undo_snoc (with_history (mkWorld (mgr w) fs1) (history (mgr w) ++ [a]))
             (history (mgr w)) a eq_refl).
  unfold try_except. rewrite (reverse_mkdir a _ eq_refl). simpl.
  rewrite (node_at_mkput_eq _ _ _ _ P). simpl.
  assert (Hne : q ++ [c] <> []) by (by destruct q).
  destruct (remove_is_Some fs1 _ _ Hne (node_at_mkput_eq _ _ _ _ P)) as [fs2 R].
  rewrite R, name_snoc. eexists. split; [done|]. simpl.
  split; [by destruct w as [[h0 m0 t0] d0]|].
  rewrite (node_at_remove_parent _ _ _ _ _ R Hq). by rewrite delete_singleton_eq.
Qed.

(** X8: creating a directory that is already there.  [create_directory]
    answers [True] without touching the disk, and the handler records a
    Mkdir entry for a directory it did not make; [undo] then deletes that
    directory when it is empty, and refuses when it is not. *)
Theorem mkdir_on_existing_directory_is_recorded
    (w : World) (p : path) (es : gmap string node) :
  node_at (disk w) p = Some (Dir es) ->
  p <> [] ->
  (Z.of_nat (length (history (mgr w))) < max_history (mgr w))%Z ->
  exists w1,
    mkdir_item p w = (Ok true, w1) /\
    disk w1 = disk w /\
    (es = ∅ ->
       exists w2, undo w1 = (Ok (true, "Undid mkdir: removed " +:+ name p), w2) /\
                  node_at (disk w2) p = None) /\
    (es <> ∅ ->
       undo w1 = (Ok (false, "Cannot undo: " +:+ name p +:+ " is not empty"), w)).
Proof.
  intros Hn Hne Hroom.
  assert (Hc : create_directory p w = (Ok true, mkWorld (mgr w) (disk w))).
  { rewrite create_directory_run. unfold mkdir_parents_exist_ok. by rewrite Hn. }
  eexists. split.
  { unfold mkdir_item, record_mkdir.
    apply (record_after _ _ w true _ (keeps_create_directory p) Hroom Hc). }
  simpl. split; [done|].
  set (a := mkAction MKDIR p None None).
  rewrite (undo_snoc (with_history (mkWorld (mgr w) (disk w)) (history (mgr w) ++ [a]))
             (history (mgr w)) a eq_refl).
  unfold try_except. rewrite (reverse_mkdir a _ eq_refl). simpl. rewrite Hn.
  split.
  - intros ->. simpl.
    destruct (remove_is_Some _ _ _ Hne Hn) as [fs2 R]. rewrite R.
    eexists. split; [done|]. simpl. by apply node_at_remove_eq in R.
  - intros Hes. destruct (Nat.eqb (size es) 0) eqn:E.
    + by apply size_zero_empty in E.
    + by destruct w as [[h0 m0 t0] d0].
Qed.


(** ** Renaming, and the undo of it *)


Lemma is_prefix_parent_self p : p <> [] -> is_prefix p (parent p) = false.
Proof.
  intros Hne. destruct (is_prefix p (parent p)) eqn:E; [|done].
  apply is_prefix_spec in E as [r E]. apply (f_equal length) in E.
  destruct (exists_last Hne) as (q & c & ->).
  rewrite parent_snoc, !length_app in E. simpl in E. lia.
Qed.




(** ** Deleting *)

Lemma delete_file_run p w :
  p <> [] ->
  delete_file p w =
    match node_at (disk w) p with
    | Some _ =>
        match remove (disk w) p with
        | Some fs' => (Ok true, mkWorld (mgr w) fs')
        | None => (Ok false, w)
        end
    | None => (Ok false, w)
    end.
Proof.
  intros Hne. unfold delete_file, try_except, bind, ask, call, ret, is_dir, rmtree, unlink.
  destruct (node_at (disk w) p) as [[d|es]|] eqn:Hn; simpl; rewrite Hn;
    try (by destruct w);
    (destruct (remove_is_Some _ _ _ Hne Hn) as [fs' R]; by rewrite R).
Qed.

(** X10: what [delete_file] answers and does.  It never raises; it answers
    [False] exactly when nothing is at the path, and then nothing has
    changed; otherwise the item is gone with everything below it, and
    nothing outside it, nor the undo manager, has been touched. *)
Theorem delete_file_removes_exactly_the_item (w : World) (p : path) :
  p <> [] ->
  (node_at (disk w) p = None -> delete_file p w = (Ok false, w)) /\
  (forall x, node_at (disk w) p = Some x ->
     exists fs',
       delete_file p w = (Ok true, mkWorld (mgr w) fs') /\
       (forall q, node_at fs' (p ++ q) = None) /\
       (forall q, disjoint p q -> node_at fs' q = node_at (disk w) q)).
Proof.
  intros Hne. rewrite (delete_file_run _ _ Hne). split.
  - by intros ->.
  - intros x Hn. rewrite Hn. destruct (remove_is_Some _ _ _ Hne Hn) as [fs' R].
    rewrite R. exists fs'. split; [done|]. split.
    + intros q. apply (node_at_None_prefix _ p); [|apply is_prefix_app].
      by apply node_at_remove_eq in R.
    + intros q [H1 H2]. by apply (node_at_remove_frame _ _ _ _ R).
Qed.

Lemma mkput_keeps fs q x fs1 p n :
  mkput fs q x = Some fs1 -> node_at fs p = Some n -> is_prefix q p = false ->
  is_Some (node_at fs1 p).
Proof.
  revert fs fs1 p n. induction q as [|c q IH]; intros fs fs1 p n P Hn Hpre; [done|].
  destruct fs as [d|es]; [done|]. rewrite mkput_cons in P.
  destruct (mkput (default empty_dir (es !! c)) q x) as [n''|] eqn:P'; [|done].
  injection P as <-. destruct p as [|k p]; [by eexists|].
  cbn [node_at] in Hn |- *. simpl in Hpre.
  destruct (decide (c = k)) as [->|Hne].
  - rewrite lookup_insert_eq. destruct (es !! k) as [m|] eqn:Ek; [|done].
    by apply (IH m n'' p n).
  - rewrite lookup_insert_ne by done. destruct (es !! k); [by eexists|done].
Qed.

Lemma is_prefix_app_inv q p r :
  is_prefix q (p ++ r) = true -> is_prefix q p = true \/ is_prefix p q = true.
Proof.
  revert p. induction q as [|x q IH]; intros p; [by left|].
  destruct p as [|y p]; [by right|]. simpl.
  destruct (decide (x = y)) as [->|Hne]; [|done].
  rewrite decide_True by done. apply IH.
Qed.

Lemma disjoint_below p b q : disjoint p q -> is_prefix p b = true -> disjoint b q.
Proof.
  intros [H1 H2] [r ->]%is_prefix_spec. split.
  - destruct (is_prefix (p ++ r) q) eqn:E; [|done].
    apply is_prefix_trans_app in E. congruence.
  - destruct (is_prefix q (p ++ r)) eqn:E; [|done].
    apply is_prefix_app_inv in E as [E|E]; congruence.
Qed.

(** A backup copy that fails leaves the item where it is, and what it
    leaves lies below the item when it leaves anything. *)
Lemma backup_leaves_keeps fs p bp n :
  node_at fs p = Some n -> is_Some (node_at (backup_leaves fs p bp) p).
Proof.
  intros Hn. unfold backup_leaves, copytree_leaves.
  destruct (is_dir fs p); [|by eexists].
  destruct (negb (exists_ fs bp)) eqn:Hex; simpl; [|by eexists].
  destruct (into_itself fs p bp); simpl; [|by eexists].
  destruct (mkput fs bp _) as [fs1|] eqn:P; simpl; [|by eexists].
  apply (mkput_keeps _ _ _ _ _ _ P Hn).
  destruct (is_prefix bp p) eqn:E; [|done].
  unfold exists_ in Hex. destruct (node_at fs bp) eqn:Hbp; [done|].
  by rewrite (node_at_None_prefix _ _ _ Hbp E) in Hn.
Qed.

Lemma backup_leaves_frame_src fs p bp q :
  disjoint p q -> node_at (backup_leaves fs p bp) q = node_at fs q.
Proof.
  intros Hq. destruct (into_itself fs p bp) eqn:E.
  - apply backup_leaves_frame. apply (disjoint_below p); [done|].
    by apply (into_itself_prefix fs).
  - by rewrite backup_leaves_id.
Qed.

(** X11: a delete goes ahead without its backup.  The handler ignores
    what [record_delete] answers: when the backup copy fails, the item is
    deleted all the same, the handler reports the deletion done, and the
    undo manager is exactly as before, so no undo can bring the item
    back. *)
Theorem delete_without_backup_is_final
    (w : World) (p : path) (x : node) (e : exn) :
  node_at (disk w) p = Some x ->
  p <> [] ->
  backup_copy (disk w) p (backup_target (mgr w) p) = Raise e ->
  exists fs',
    delete_item p w = (Ok true, mkWorld (mgr w) fs') /\
    node_at fs' p = None /\
    forall q, disjoint p q -> node_at fs' q = node_at (disk w) q.
Proof.
  intros Hn Hne Hb.
  set (left := backup_leaves (disk w) p (backup_target (mgr w) p)).
  destruct (backup_leaves_keeps (disk w) p (backup_target (mgr w) p) x Hn) as [x' Hx'].
  fold left in Hx'.
  destruct (remove_is_Some _ _ _ Hne Hx') as [fs' R].
  exists fs'. split; [|split].
  - unfold delete_item, bind. rewrite record_delete_run, Hb. fold left.
    rewrite (delete_file_run _ _ Hne). simpl. by rewrite Hx', R.
  - by apply node_at_remove_eq in R.
  - intros q Hq. destruct Hq as [H1 H2].
    rewrite (node_at_remove_frame _ _ _ _ R H1 H2).
    by apply backup_leaves_frame_src.
Qed.

(** X12: with a bound of zero (or less) nothing is kept.  [record_delete]
    answers [True], but the entry it appended is evicted in the same call
    and its backup is removed with it: the history is empty again, the
    backup is not on disk, and [undo] has nothing to undo. *)
Theorem zero_bound_record_delete_keeps_nothing (w w1 : World) (p : path) :
  (max_history (mgr w) <= 0)%Z ->
  history (mgr w) = [] ->
  record_delete p w = (Ok true, w1) ->
  history (mgr w1) = [] /\
  node_at (disk w1) (backup_target (mgr w) p) = None /\
  undo w1 = (Ok (false, "Nothing to undo"), w1).
Proof.
  intros Hmax Hh Hrec. rewrite record_delete_run in Hrec.
  destruct (backup_copy (disk w) p (backup_target (mgr w) p)) as [fs1|e]; [|done].
  set (a := mkAction DELETE p None (Some (backup_target (mgr w) p))) in *.
  rewrite (add_action_full a (mkWorld (mgr w) fs1) a []) in Hrec.
  2:{ simpl. by rewrite Hh. }
  2:{ simpl. rewrite Hh. simpl. lia. }
  simpl in Hrec.
  destruct (discard_ok fs1 (backup_target (mgr w) p)) as (fs2 & Hd & Hgone).
  { unfold backup_target. by destruct (backup_dir (mgr w)). }
  rewrite Hd in Hrec. injection Hrec as <-. simpl.
  split; [done|]. split; [done|]. by apply undo_empty.
Qed.


(** ** What stops [create_directory] *)

Lemma mkput_blocked fs q r x d :
  node_at fs q = Some (File d) -> r <> [] -> mkput fs (q ++ r) x = None.
Proof.
  revert fs. induction q as [|k q IH]; intros fs Hn Hr.
  - simpl in Hn. injection Hn as ->. by destruct r.
  - destruct fs as [d0|es]; [done|]. cbn [node_at] in Hn.
    change ((k :: q) ++ r) with (k :: (q ++ r)). rewrite mkput_cons.
    destruct (es !! k) as [n'|]; [|done]. simpl. by rewrite (IH n').
Qed.

Lemma mkput_None fs p x :
  mkput fs p x = None ->
  exists q d, is_prefix q p = true /\ q <> p /\ node_at fs q = Some (File d).
Proof.
  revert fs. induction p as [|c p IH]; intros fs H; [done|].
  destruct fs as [d|es].
  { exists [], d. by repeat split. }
  rewrite mkput_cons in H.
  destruct (mkput (default empty_dir (es !! c)) p x) as [n''|] eqn:P; [done|].
  destruct (IH _ P) as (q & d & Hpre & Hne & Hn).
  destruct (es !! c) as [n'|] eqn:Ec; simpl in Hn.
  - exists (c :: q), d. simpl. rewrite decide_True by done. repeat split; [done|congruence|].
    by rewrite Ec.
  - destruct q as [|k q]; [done|]. simpl in Hn. by rewrite lookup_empty in Hn.
Qed.

(** X13: what stops [create_directory].  It never raises.  It answers
    [False] when a regular file is at the path or at one of its ancestors,
    and nothing has changed then; in every other case it answers [True],
    a directory is at the path afterwards, and nothing beside the path has
    been touched. *)
Theorem create_directory_fails_only_on_a_file_in_the_way (w : World) (p : path) :
  (forall q d, is_prefix q p = true -> node_at (disk w) q = Some (File d) ->
     create_directory p w = (Ok false, w)) /\
  ((forall q d, is_prefix q p = true -> node_at (disk w) q <> Some (File d)) ->
     exists fs1 es,
       create_directory p w = (Ok true, mkWorld (mgr w) fs1) /\
       node_at fs1 p = Some (Dir es) /\
       (forall q, disjoint p q -> node_at fs1 q = node_at (disk w) q)).
Proof.
  rewrite create_directory_run. unfold mkdir_parents_exist_ok. split.
  - intros q d Hpre Hn. apply is_prefix_spec in Hpre as [r ->].
    destruct r as [|c r].
    + rewrite app_nil_r. by rewrite Hn.
    + rewrite (node_at_File_below _ _ _ (c :: r) Hn) by done.
      by rewrite (mkput_blocked _ _ _ _ _ Hn).
  - intros Hfree. destruct (node_at (disk w) p) as [[d|es]|] eqn:Hn.
    + exfalso. apply (Hfree p d); [apply is_prefix_refl|done].
    + exists (disk w), es. by repeat split.
    + destruct (mkput (disk w) p empty_dir) as [fs1|] eqn:P.
      * exists fs1, ∅. simpl. split; [done|]. split.
        -- by apply node_at_mkput_eq in P.
        -- intros q [H1 H2]. by apply (node_at_mkput_frame _ _ _ _ _ P).
      * exfalso. destruct (mkput_None _ _ _ P) as (q & d & Hpre & _ & Hq).
        by apply (Hfree q d).
Qed.

(** ** Restoring onto a directory *)



(** ** Copying or moving the selected items *)

Lemma try_false_total (c : M bool) (w : World) :
  exists b w1, try_except c (fun _ => ret false) w = (Ok b, w1).
Proof. unfold try_except, ret. destruct (c w) as [[b|e] w1]; eauto. Qed.

(** A handler of the shape "ask FileOperations, record on success" always
    returns, and adds one entry exactly when it answers [True]. *)
Lemma handler_records_on_success (op : M bool) (a : UndoAction) (w : World) :
  keeps_mgr op ->
  (exists b w1, op w = (Ok b, w1)) ->
  (Z.of_nat (length (history (mgr w))) < max_history (mgr w))%Z ->
  exists b w1,
    (ok <~ op ;; if ok then _add_action a ;;; ret true else ret false) w = (Ok b, w1) /\
    max_history (mgr w1) = max_history (mgr w) /\
    length (history (mgr w1)) =
      (length (history (mgr w)) + (if b then 1 else 0))%nat.
Proof.
  intros Hk (b & w1 & Hop) Hroom.
  exists b. eexists. split; [apply (record_after op a w b w1 Hk Hroom Hop)|].
  pose proof (Hk w) as Hm. rewrite Hop in Hm. simpl in Hm.
  destruct b; simpl; rewrite ?Hm; [|split; [done|lia]].
  split; [done|]. rewrite length_app. simpl. lia.
Qed.

Lemma transfer_items_counts (one : path -> path -> M bool) (target : path) :
  (forall src dst w,
     (Z.of_nat (length (history (mgr w))) < max_history (mgr w))%Z ->
     exists b w1,
       one src dst w = (Ok b, w1) /\
       max_history (mgr w1) = max_history (mgr w) /\
       length (history (mgr w1)) =
         (length (history (mgr w)) + (if b then 1 else 0))%nat) ->
  forall items s f w,
    (Z.of_nat (length (history (mgr w)) + length items) <= max_history (mgr w))%Z ->
    exists s' f' w',
      transfer_items one target items s f w = (Ok (s', f'), w') /\
      (s' + f' = s + f + length items)%nat /\
      (s <= s')%nat /\
      length (history (mgr w')) = (length (history (mgr w)) + (s' - s))%nat.
Proof.
  intros Hone items. induction items as [|i items IH]; intros s f w Hroom.
  - exists s, f, w. simpl. repeat split; [lia|lia|lia].
  - simpl in Hroom.
    destruct (Hone i (join target (name i)) w) as (b & w1 & H1 & Hmax & Hlen); [lia|].
    cbn [transfer_items]. unfold bind at 1. rewrite H1.
    destruct b; simpl in Hlen.
    + destruct (IH (S s) f w1) as (s' & f' & w' & Hrun & Hsum & Hle & Hh).
      { rewrite Hmax, Hlen. lia. }
      exists s', f', w'. rewrite Hrun. repeat split; simpl; lia.
    + destruct (IH s (S f) w1) as (s' & f' & w' & Hrun & Hsum & Hle & Hh).
      { rewrite Hmax, Hlen. lia. }
      exists s', f', w'. rewrite Hrun. repeat split; simpl; lia.
Qed.

(** X15: copying or moving a selection counts every item once.  While
    the history has room, the loop over the selected items always comes to
    its end, whatever fails on the way: the two counters add up to the
    number of items, and the history has grown by one entry for each item
    counted as done. *)
Theorem transfer_counts_every_item
    (merge : path -> path -> fs_effect) (target : path) (items : list path) (w : World) :
  (Z.of_nat (length (history (mgr w)) + length items) <= max_history (mgr w))%Z ->
  (exists s f w',
     transfer_items (copy_item merge) target items 0 0 w = (Ok (s, f), w') /\
     (s + f = length items)%nat /\
     length (history (mgr w')) = (length (history (mgr w)) + s)%nat) /\
  (exists s f w',
     transfer_items move_item target items 0 0 w = (Ok (s, f), w') /\
     (s + f = length items)%nat /\
     length (history (mgr w')) = (length (history (mgr w)) + s)%nat).
Proof.
  intros Hroom. split.
  - destruct (transfer_items_counts (copy_item merge) target) with (items := items)
      (s := 0%nat) (f := 0%nat) (w := w) as (s & f & w' & Hrun & Hsum & _ & Hh); [|done|].
    { intros src dst w0 H0. apply handler_records_on_success; [|apply try_false_total|done].
      apply keeps_copy_file. }
    exists s, f, w'. repeat split; [done|lia|lia].
  - destruct (transfer_items_counts move_item target) with (items := items)
      (s := 0%nat) (f := 0%nat) (w := w) as (s & f & w' & Hrun & Hsum & _ & Hh); [|done|].
    { intros src dst w0 H0. apply handler_records_on_success; [|apply try_false_total|done].
      apply keeps_move_file. }
    exists s, f, w'. repeat split; [done|lia|lia].
Qed.


(** * Further properties: what the engine leaves alone *)

Lemma leaves_ret {A} q (a : A) : leaves q (ret a).
Proof. by intros w. Qed.

Lemma leaves_raise {A} q e : leaves q (@raise A e).
Proof. by intros w. Qed.

Lemma leaves_ask {A} q (f : fsys -> A) : leaves q (ask f).
Proof. by intros w. Qed.

Lemma leaves_the_path q o : leaves q (the_path o).
Proof. destruct o; [apply leaves_ret | apply leaves_raise]. Qed.

Lemma leaves_call q f :
  (forall fs fs', f fs = Ok fs' -> node_at fs' q = node_at fs q) -> leaves q (call f).
Proof.
  intros Hf w. unfold call. destruct (f (disk w)) as [fs'|e] eqn:E; simpl; [|done].
  by apply Hf.
Qed.

Lemma leaves_bind {A B} q (c : M A) (k : A -> M B) :
  leaves q c -> (forall a, leaves q (k a)) -> leaves q (bind c k).
Proof.
  intros Hc Hk w. unfold bind. specialize (Hc w).
  destruct (c w) as [[a|e] w1]; simpl in *; [|done].
  by rewrite Hk.
Qed.

Lemma leaves_bind_ret {A B} q (a : A) (k : A -> M B) :
  leaves q (k a) -> leaves q (bind (ret a) k).
Proof. intros H w. apply H. Qed.

Lemma leaves_try {A} q (c : M A) (h : exn -> M A) :
  leaves q c -> (forall e, leaves q (h e)) -> leaves q (try_except c h).
Proof.
  intros Hc Hh w. unfold try_except. specialize (Hc w).
  destruct (c w) as [[a|e] w1]; simpl in *; [done|].
  by rewrite Hh.
Qed.

Lemma leaves_if {A} q (t : bool) (c d : M A) :
  leaves q c -> leaves q d -> leaves q (if t then c else d).
Proof. by destruct t. Qed.

Lemma unlink_frame fs p fs' q :
  unlink fs p = Ok fs' -> disjoint p q -> node_at fs' q = node_at fs q.
Proof.
  unfold unlink, ok_or. intros H [D1 D2]. destruct (node_at fs p) as [[d|es]|]; try done.
  destruct (remove fs p) eqn:R; [|done]. injection H as <-.
  by apply (node_at_remove_frame _ _ _ _ R).
Qed.

Lemma rmtree_frame fs p fs' q :
  rmtree fs p = Ok fs' -> disjoint p q -> node_at fs' q = node_at fs q.
Proof.
  unfold rmtree, ok_or. intros H [D1 D2]. destruct (node_at fs p) as [[d|es]|]; try done.
  destruct (remove fs p) eqn:R; [|done]. injection H as <-.
  by apply (node_at_remove_frame _ _ _ _ R).
Qed.

Lemma rmdir_frame fs p fs' q :
  rmdir fs p = Ok fs' -> disjoint p q -> node_at fs' q = node_at fs q.
Proof.
  unfold rmdir, ok_or. intros H [D1 D2]. destruct (node_at fs p) as [[d|es]|]; try done.
  destruct (Nat.eqb (size es) 0); [|done].
  destruct (remove fs p) eqn:R; [|done]. injection H as <-.
  by apply (node_at_remove_frame _ _ _ _ R).
Qed.

Lemma os_rename_frame fs src dst fs' q :
  os_rename fs src dst = Ok fs' -> disjoint src q -> disjoint dst q ->
  node_at fs' q = node_at fs q.
Proof.
  unfold os_rename, ok_or. intros H [S1 S2] [D1 D2].
  destruct (node_at fs src) as [n|]; [|done].
  case_decide; [by injection H as <-|].
  destruct (is_prefix src dst); [done|].
  assert (Hre : match remove fs src with
                | Some fs1 => match put fs1 dst n with
                              | Some a => Ok a
                              | None => Raise FileNotFoundError
                              end
                | None => Raise InvalidArgument
                end = Ok fs' -> node_at fs' q = node_at fs q).
  { destruct (remove fs src) as [fs1|] eqn:R; [|done].
    destruct (put fs1 dst n) as [fs2|] eqn:P; [|done]. intros [= <-].
    rewrite (node_at_put_frame _ _ _ _ _ P D1 D2).
    by apply (node_at_remove_frame _ _ _ _ R). }
  destruct n as [d|es]; destruct (node_at fs dst) as [[d'|es']|]; try done;
    try by apply Hre.
  destruct (Nat.eqb (size es') 0); [by apply Hre|done].
Qed.

Ltac leave_step :=
  first
    [ apply leaves_ret | apply leaves_raise | apply leaves_ask
    | apply leaves_the_path
    | apply leaves_bind; [|intros ?] | apply leaves_try; [|intros ?]
    | apply leaves_if
    | match goal with |- leaves _ (if decide ?P then _ else _) => destruct (decide P) end
    | match goal with |- leaves _ (match ?o with Some _ => _ | None => _ end) => destruct o end
    | apply leaves_call; intros ? ? ? ].

Ltac frame_call :=
  first
    [ by eapply unlink_frame | by eapply rmtree_frame | by eapply rmdir_frame
    | by eapply os_rename_frame; [eassumption|try done|try done; by apply disjoint_child]
    | by eapply copytree_frame; [eassumption|try done; by apply disjoint_child]
    | by eapply copy2_frame; [eassumption|try done; by apply disjoint_child] ].

Lemma leaves_shutil_copytree q src dst :
  disjoint dst q -> leaves q (shutil_copytree src dst).
Proof.
  intros Hd w. unfold shutil_copytree.
  destruct (copytree (disk w) src dst) as [fs'|e] eqn:E; simpl.
  - by apply (copytree_frame _ _ _ _ _ E).
  - by apply copytree_leaves_frame.
Qed.

Lemma leaves_shutil_move q src dst :
  disjoint src q -> disjoint dst q -> leaves q (shutil_move src dst).
Proof.
  intros Hs Hd. unfold shutil_move.
  repeat first [ by apply leaves_shutil_copytree; first [done|by apply disjoint_child]
               | leave_step ]; frame_call.
Qed.

Lemma leaves_reverse_action q a :
  disjoint (source a) q ->
  (forall d, destination a = Some d -> disjoint d q) ->
  (forall b, backup_path a = Some b -> disjoint b q) ->
  leaves q (reverse_action a).
Proof.
  intros Hs Hd Hb. unfold reverse_action.
  destruct (action_type a).
  - destruct (destination a) as [d|]; [|by intros w0].
    specialize (Hd d eq_refl). apply leaves_bind_ret. repeat leave_step; frame_call.
  - destruct (destination a) as [d|]; [|by intros w0].
    specialize (Hd d eq_refl). apply leaves_bind_ret.
    repeat first [ by apply leaves_shutil_move | leave_step ].
  - destruct (backup_path a) as [b|]; [|apply leaves_ret].
    specialize (Hb b eq_refl).
    repeat first [ by apply leaves_shutil_copytree | leave_step ]; frame_call.
  - repeat leave_step; frame_call.
  - destruct (destination a) as [d|]; [|by intros w0].
    specialize (Hd d eq_refl). apply leaves_bind_ret. repeat leave_step; frame_call.
Qed.

(** X16: [undo] touches only the paths of the entry it pops.  Whatever
    the reversal does, and whether it succeeds, fails or raises half way,
    every path that is neither above nor below the recorded source, the
    recorded destination or the backup keeps its content. *)
Theorem undo_touches_only_the_entry
    (w : World) (h : list UndoAction) (a : UndoAction) (q : path) :
  history (mgr w) = h ++ [a] ->
  disjoint (source a) q ->
  (forall d, destination a = Some d -> disjoint d q) ->
  (forall b, backup_path a = Some b -> disjoint b q) ->
  node_at (disk (snd (undo w))) q = node_at (disk w) q.
Proof.
  intros Hh Hs Hd Hb. rewrite (undo_snoc _ _ _ Hh).
  assert (L : leaves q (try_except (reverse_action a)
                (fun e => ret (false, "Undo failed: " +:+ exn_text e)))).
  { apply leaves_try; [by apply leaves_reverse_action|intros e; apply leaves_ret]. }
  by rewrite L.
Qed.

Lemma leaves_add_action q a w :
  backups_in_store (mgr w) -> in_store (mgr w) a ->
  disjoint (backup_dir (mgr w)) q ->
  node_at (disk (snd (_add_action a w))) q = node_at (disk w) q.
Proof.
  intros Hinv Ha Hq.
  destruct (add_action_disk a w) as [->|(o & rest & bp & Hh & Hbp & Hd)]; [done|].
  assert (Ho : in_store (mgr w) o).
  { assert (Hall : Forall (in_store (mgr w)) (history (mgr w) ++ [a])).
    { apply Forall_app. split; [done|]. by apply Forall_singleton. }
    rewrite Hh in Hall. by apply Forall_cons_1 in Hall as [? _]. }
  destruct (Ho bp Hbp) as (_ & n & ->).
  apply (discard_frame _ _ _ _ Hd); by apply disjoint_child.
Qed.

Lemma record_delete_frame p w q :
  backups_in_store (mgr w) ->
  disjoint (backup_dir (mgr w)) q ->
  node_at (disk (snd (record_delete p w))) q = node_at (disk w) q.
Proof.
  intros Hinv Hq. rewrite record_delete_run.
  destruct (backup_copy (disk w) p (backup_target (mgr w) p)) as [fs1|e] eqn:Hc;
    [|by apply backup_leaves_frame, disjoint_child].
  set (a := mkAction DELETE p None (Some (backup_target (mgr w) p))).
  assert (Hn : node_at (disk (snd (_add_action a (mkWorld (mgr w) fs1)))) q = node_at fs1 q).
  { apply (leaves_add_action q a (mkWorld (mgr w) fs1)); [done| |done].
    intros bp [= <-]. split; [done|]. by eexists. }
  assert (Hf : node_at fs1 q = node_at (disk w) q).
  { apply (backup_copy_frame _ _ _ _ _ Hc). by apply disjoint_child. }
  destruct (_add_action a (mkWorld (mgr w) fs1)) as [[[]|e] w'];
    simpl in *; by rewrite Hn.
Qed.

(** X17: recording touches nothing but the backup directory.  Under the
    class invariant, none of the five recording calls changes a path that
    is neither above nor below the backup directory: the backup copy is
    written there, and eviction removes only there. *)
Theorem record_touches_only_the_store (w : World) (r : request) (q : path) :
  backups_in_store (mgr w) ->
  disjoint (backup_dir (mgr w)) q ->
  node_at (disk (snd (record r w))) q = node_at (disk w) q.
Proof.
  intros Hinv Hq.
  assert (Hplain : forall a, backup_path a = None ->
            node_at (disk (snd (_add_action a w))) q = node_at (disk w) q).
  { intros a Ha. apply leaves_add_action; [done| |done]. intros bp Hbp. congruence. }
  destruct r as [s d|s d|p|p|o n]; simpl;
    try (by apply Hplain).
  unfold bind. pose proof (record_delete_frame p w q Hinv Hq) as Hd.
  by destruct (record_delete p w) as [[b|e] w1].
Qed.

Lemma cleanup_mgr w : mgr (snd (cleanup w)) = mgr w.
Proof.
  unfold cleanup, rmtree_ignore_errors, try_except, bind, get_manager, ask, call, ret.
  simpl. destruct (exists_ (disk w) (backup_dir (mgr w))); [|done].
  by destruct (rmtree (disk w) (backup_dir (mgr w))).
Qed.

Lemma cleanup_no_directory w es :
  node_at (disk (snd (cleanup w))) (backup_dir (mgr w)) <> Some (Dir es).
Proof.
  unfold cleanup, rmtree_ignore_errors, try_except, bind, get_manager, ask, call, ret,
    exists_, rmtree, ok_or.
  simpl. destruct (node_at (disk w) (backup_dir (mgr w))) as [[d|es']|] eqn:Hn; simpl;
    rewrite ?Hn; simpl; rewrite ?Hn; try done.
  destruct (remove_is_Some _ _ _ (backup_dir_nonempty (mgr w)) Hn) as [fs' R].
  rewrite R. simpl. by rewrite (node_at_remove_eq _ _ _ R).
Qed.

(** X18: after [cleanup] no Delete can be undone.  [cleanup] leaves the
    history as it is but removes every backup, so for a Delete entry at
    the tail (with its backup in the backup directory, as the class
    invariant has it) [undo] pops the entry, answers "backup not found"
    and restores nothing. *)
Theorem cleanup_makes_deletes_unrecoverable
    (w : World) (h : list UndoAction) (a : UndoAction) :
  history (mgr w) = h ++ [a] ->
  action_type a = DELETE ->
  in_store (mgr w) a ->
  undo (snd (cleanup w)) =
    (Ok (false, "Cannot undo: backup not found"), with_history (snd (cleanup w)) h).
Proof.
  intros Hh Ht Hin.
  assert (Hh' : history (mgr (snd (cleanup w))) = h ++ [a]) by (by rewrite cleanup_mgr).
  rewrite (undo_snoc _ _ _ Hh'). unfold try_except.
  destruct (backup_path a) as [bp|] eqn:Hb.
  - rewrite (reverse_delete a _ bp Ht Hb). simpl.
    destruct (Hin bp Hb) as (_ & n & ->).
    unfold exists_. rewrite node_at_app.
    pose proof (cleanup_no_directory w) as Hc.
    destruct (node_at (disk (snd (cleanup w))) (backup_dir (mgr w))) as [[d|es]|]; try done.
    by destruct (Hc es).
  - unfold reverse_action. by rewrite Ht, Hb.
Qed.


(** ** Deleting the selected items *)

Lemma record_delete_is_step p w :
  snd (record_delete p w) = step (Record (RecordDelete p)) w.
Proof. unfold step, record, bind. by destruct (record_delete p w) as [[b|e] w1]. Qed.

Lemma record_delete_returns p w : exists b w1, record_delete p w = (Ok b, w1).
Proof. unfold record_delete. apply try_false_total. Qed.

(** One item: the recording, then the deletion.  It always returns; the
    item is gone afterwards, and what was absent outside the backup
    directory is still absent. *)
Lemma delete_item_run p w :
  backups_in_store (mgr w) ->
  exists b w1,
    delete_item p w = (Ok b, w1) /\
    backups_in_store (mgr w1) /\
    tmpdir (mgr w1) = tmpdir (mgr w) /\
    forall q, q <> [] -> disjoint (backup_dir (mgr w)) q ->
      q = p \/ node_at (disk w) q = None -> node_at (disk w1) q = None.
Proof.
  intros Hinv. destruct (record_delete_returns p w) as (b0 & w0 & Hr).
  assert (Hw0 : w0 = step (Record (RecordDelete p)) w).
  { by rewrite <- record_delete_is_step, Hr. }
  assert (Hinv0 : backups_in_store (mgr w0)) by (rewrite Hw0; by apply step_in_store).
  assert (Htmp : tmpdir (mgr w0) = tmpdir (mgr w)) by (rewrite Hw0; apply step_fields).
  assert (Hfr : forall q, disjoint (backup_dir (mgr w)) q ->
                  node_at (disk w0) q = node_at (disk w) q).
  { intros q Hq. pose proof (record_delete_frame p w q Hinv Hq) as H.
    by rewrite Hr in H. }
  destruct (delete_file p w0) as [r w1] eqn:Hd.
  pose proof (keeps_delete_file p w0) as Hm. rewrite Hd in Hm. simpl in Hm.
  unfold delete_file in Hd.
  destruct (try_false_total
              (d <~ ask (fun fs => is_dir fs p) ;;
               (if d then call (fun fs => rmtree fs p) else call (fun fs => unlink fs p)) ;;;
               ret true) w0) as (b & w1' & Ht).
  rewrite Ht in Hd. injection Hd as <- <-.
  exists b, w1'. split.
  { unfold delete_item, bind. rewrite Hr. unfold delete_file. by rewrite Ht. }
  rewrite Hm. split; [done|]. split; [done|].
  intros q Hq0 Hq Hcase.
  fold (delete_file p) in Ht.
  destruct (decide (p = [])) as [->|Hp].
  { destruct Hcase as [->|Hn]; [done|].
    assert (E : w1' = w0).
    { revert Ht. unfold delete_file, try_except, bind, ask, call, ret, is_dir, rmtree, unlink.
      simpl. destruct (disk w0) as [d|es] eqn:Ed; simpl; rewrite ?Ed; simpl;
        by intros [= _ <-]. }
    rewrite E, Hfr; done. }
  rewrite (delete_file_run _ _ Hp) in Ht.
  destruct (node_at (disk w0) p) as [x|] eqn:Hx.
  - destruct (remove (disk w0) p) as [fs'|] eqn:R; injection Ht as <- <-; simpl.
    + destruct Hcase as [->|Hn]; [by apply node_at_remove_eq in R|].
      destruct (node_at fs' q) eqn:E; [|done].
      assert (Hex : exists_ fs' q = true) by (unfold exists_; by rewrite E).
      apply (remove_exists_mono _ _ _ _ R) in Hex. unfold exists_ in Hex.
      by rewrite (Hfr q Hq), Hn in Hex.
    + destruct (remove_is_Some _ _ _ Hp Hx) as [? ?]. congruence.
  - injection Ht as <- <-. destruct Hcase as [->|Hn]; [done|]. by rewrite (Hfr q Hq).
Qed.

Lemma delete_next_all items : forall room answers d f w,
  backups_in_store (mgr w) ->
  (length items < room)%nat ->
  exists d' f' w',
    delete_next room items answers true d f w = (Ok (Some (d', f')), w') /\
    (d' + f' = d + f + length items)%nat /\
    forall q, q <> [] -> disjoint (backup_dir (mgr w)) q ->
      q ∈ items \/ node_at (disk w) q = None -> node_at (disk w') q = None.
Proof.
  induction items as [|p items IH]; intros room answers d f w Hinv Hroom.
  - destruct room as [|room]; [simpl in Hroom; lia|].
    exists d, f, w. simpl. split; [done|]. split; [lia|].
    intros q _ _ [Hq|Hq]; [by apply elem_of_nil in Hq|done].
  - destruct room as [|room]; [simpl in Hroom; lia|].
    assert (Hroom' : (length items < room)%nat) by (simpl in Hroom; lia).
    destruct (delete_item_run p w Hinv) as (b & w1 & Hrun & Hinv1 & Htmp & Hgone).
    assert (Hbd : backup_dir (mgr w1) = backup_dir (mgr w)).
    { unfold backup_dir. by rewrite Htmp. }
    cbn [delete_next]. unfold bind at 1. rewrite Hrun.
    destruct b.
    + destruct (IH room answers (S d) f w1 Hinv1 Hroom') as (d' & f' & w' & Hn & Hsum & Hg).
      exists d', f', w'. rewrite Hn. split; [done|]. split; [simpl; lia|].
      intros q Hq0 Hq Hcase. rewrite Hbd in Hg. apply Hg; [done|done|].
      destruct Hcase as [[->|Hin]%elem_of_cons|Hn0].
      * right. apply Hgone; auto.
      * by left.
      * right. apply Hgone; auto.
    + destruct (IH room answers d (S f) w1 Hinv1 Hroom') as (d' & f' & w' & Hn & Hsum & Hg).
      exists d', f', w'. rewrite Hn. split; [done|]. split; [simpl; lia|].
      intros q Hq0 Hq Hcase. rewrite Hbd in Hg. apply Hg; [done|done|].
      destruct Hcase as [[->|Hin]%elem_of_cons|Hn0].
      * right. apply Hgone; auto.
      * by left.
      * right. apply Hgone; auto.
Qed.

Lemma delete_next_all_ignores_answers items : forall room ans d f w,
  delete_next room items ans true d f w = delete_next room items [] true d f w.
Proof.
  induction items as [|i items IH]; intros [|room] ans d f w; try done.
  cbn [delete_next]. unfold bind.
  destruct (delete_item i w) as [[[]|e] w2]; [apply IH|apply IH|done].
Qed.

(** X19: "Yes to All" deletes the whole selection without asking again,
    when the stack has room for one nested call per selected item and one
    more.  Once the first dialog is answered "all", no further answer is
    looked at: the loop runs to its end, every item is counted as deleted
    or as failed, and every selected item outside the backup directory is
    gone from the disk, whether or not its backup could be made. *)
Theorem yes_to_all_deletes_the_selection
    (items : list path) (more : list answer) (w : World) :
  backups_in_store (mgr w) ->
  (length items < stack_room)%nat ->
  exists d f w',
    _delete_multiple_items items (All :: more) w = (Ok (Some (d, f)), w') /\
    _delete_multiple_items items [All] w = (Ok (Some (d, f)), w') /\
    (d + f = length items)%nat /\
    forall p, p ∈ items -> p <> [] -> disjoint (backup_dir (mgr w)) p ->
      node_at (disk w') p = None.
Proof.
  intros Hinv Hroom. unfold _delete_multiple_items.
  destruct stack_room as [|room] eqn:Hstack; [lia|].
  destruct items as [|p items].
  { exists 0%nat, 0%nat, w. simpl. repeat split; try done.
    intros p Hp. by apply elem_of_nil in Hp. }
  assert (Hsame : forall ans, delete_next (S room) (p :: items) (All :: ans) false 0 0 w =
                              delete_next (S (S room)) (p :: items) [] true 0 0 w).
  { intros ans. cbn [delete_next]. rewrite Hstack. unfold bind.
    destruct (delete_item p w) as [[[]|e] w1]; [| |done];
      apply delete_next_all_ignores_answers. }
  destruct (delete_next_all (p :: items) (S (S room)) [] 0 0 w Hinv) as
    (d & f & w' & Hrun & Hsum & Hg); [lia|].
  exists d, f, w'. rewrite !Hsame. split; [done|]. split; [done|]. split; [done|].
  intros q Hin Hq0 Hq. apply Hg; auto.
Qed.


(** * Further properties: the order of the listing *)


Lemma sort_insert_perm {A} (le : A -> A -> bool) x l : sort_insert le x l ≡ₚ x :: l.
Proof.
  induction l as [|y r IH]; [done|]. simpl. destruct (le x y); [done|].
  rewrite IH. apply Permutation_swap.
Qed.

Lemma stable_sort_perm {A} (le : A -> A -> bool) l : stable_sort le l ≡ₚ l.
Proof.
  induction l as [|x r IH]; [done|]. simpl. by rewrite sort_insert_perm, IH.
Qed.

Lemma sort_by_perm {A K} (kle : K -> K -> bool) (key : A -> K) (reverse : bool) l :
  sort_by kle key reverse l ≡ₚ l.
Proof. apply stable_sort_perm. Qed.

Lemma sort_insert_sorted {A} (le : A -> A -> bool) x l :
  (forall a b, le a b = true \/ le b a = true) ->
  Sorted (fun a b => le a b = true) l ->
  Sorted (fun a b => le a b = true) (sort_insert le x l).
Proof.
  intros Htot. induction l as [|y r IH]; intros Hs.
  - simpl. by repeat constructor.
  - simpl. destruct (le x y) eqn:E.
    + constructor; [done|]. by constructor.
    + apply Sorted_inv in Hs as [Hs Hd]. constructor; [by apply IH|].
      destruct r as [|z r]; simpl.
      * constructor. destruct (Htot x y) as [H|H]; [congruence|done].
      * destruct (le x z).
        -- constructor. destruct (Htot x y) as [H|H]; [congruence|done].
        -- constructor. by apply HdRel_inv in Hd.
Qed.

Lemma stable_sort_sorted {A} (le : A -> A -> bool) l :
  (forall a b, le a b = true \/ le b a = true) ->
  Sorted (fun a b => le a b = true) (stable_sort le l).
Proof.
  intros Htot. induction l as [|x r IH]; [constructor|].
  simpl. by apply sort_insert_sorted.
Qed.

Lemma Sorted_weaken {A} (R R' : A -> A -> Prop) l :
  (forall a b, R a b -> R' a b) -> Sorted R l -> Sorted R' l.
Proof.
  intros HR. induction 1 as [|a l Hs IH Hd]; constructor; [done|].
  destruct Hd; constructor. by apply HR.
Qed.

Lemma sort_by_sorted {A K} (kle : K -> K -> bool) (key : A -> K) (reverse : bool) l :
  (forall a b, kle a b = true \/ kle b a = true) ->
  Sorted (fun a b => (if reverse then kle (key b) (key a) else kle (key a) (key b)) = true)
         (sort_by kle key reverse l).
Proof.
  intros Htot. apply (stable_sort_sorted _ l).
  intros a b. destruct reverse; apply Htot.
Qed.

Lemma pair_le_total {K} (kle : K -> K -> bool) :
  (forall a b, kle a b = true \/ kle b a = true) ->
  forall a b, pair_le kle a b = true \/ pair_le kle b a = true.
Proof.
  intros Htot [[] x] [[] y]; unfold pair_le; simpl; auto.
Qed.

Lemma Zleb_total (a b : Z) : Z.leb a b = true \/ Z.leb b a = true.
Proof. destruct (Z.leb_spec a b); [by left|right; apply Z.leb_le; lia]. Qed.

Lemma Qle_bool_total (a b : QArith_base.Q) :
  QArith_base.Qle_bool a b = true \/ QArith_base.Qle_bool b a = true.
Proof.
  rewrite !QArith_base.Qle_bool_iff.
  destruct (QArith_base.Qlt_le_dec b a) as [H|H]; [right|left]; [|done].
  by apply QArith_base.Qlt_le_weak.
Qed.

(** Where the directories come first, the list splits into the
    directories and the files. *)
Lemma dirs_first_split (l : list entry) :
  Sorted (fun a b => entry_is_dir b = true -> entry_is_dir a = true) l ->
  exists ds fs, l = ds ++ fs /\
    Forall (fun e => entry_is_dir e = true) ds /\
    Forall (fun e => entry_is_dir e = false) fs.
Proof.
  intros Hs. apply Sorted_StronglySorted in Hs.
  2:{ intros a b c H1 H2 Hc. auto. }
  induction Hs as [|a l Hs IH Hall].
  - exists [], []. by repeat split.
  - destruct IH as (ds & fs & -> & Hd & Hf).
    destruct (entry_is_dir a) eqn:Ea.
    + exists (a :: ds), fs. repeat split; [|done]. by constructor.
    + exists [], (a :: ds ++ fs). repeat split; [done|].
      constructor; [done|]. apply Forall_app. split; [|done].
      eapply Forall_impl; [apply (proj1 (Forall_app _ _ _) Hall)|].
      intros b Hb. simpl in Hb. destruct (entry_is_dir b); [|done].
      by specialize (Hb eq_refl).
Qed.

Lemma pair_le_dirs {K} (kle : K -> K -> bool) (k : entry -> K) (a b : entry) :
  pair_le kle (negb (entry_is_dir a), k a) (negb (entry_is_dir b), k b) = true ->
  entry_is_dir b = true -> entry_is_dir a = true.
Proof. unfold pair_le. simpl. by destruct (entry_is_dir a), (entry_is_dir b). Qed.

Lemma pair_le_same {K} (kle : K -> K -> bool) (k : entry -> K) (a b : entry) :
  pair_le kle (negb (entry_is_dir a), k a) (negb (entry_is_dir b), k b) = true ->
  entry_is_dir a = entry_is_dir b -> kle (k a) (k b) = true.
Proof. unfold pair_le. simpl. by destruct (entry_is_dir a), (entry_is_dir b). Qed.

Lemma filter_split_perm (l : list entry) :
  List.filter (fun e => entry_is_dir e) l ++ List.filter (fun e => negb (entry_is_dir e)) l
  ≡ₚ l.
Proof.
  induction l as [|a l IH]; [done|]. simpl. destruct (entry_is_dir a); simpl.
  - by rewrite IH.
  - rewrite <- Permutation_middle. by rewrite IH.
Qed.

Lemma sorted_by_pair_dirs_first {K} (kle : K -> K -> bool) (k : entry -> K) l :
  (forall a b, kle a b = true \/ kle b a = true) ->
  let r := sort_by (pair_le kle) (fun x => (negb (entry_is_dir x), k x)) false l in
  r ≡ₚ l /\
  (exists ds fs, r = ds ++ fs /\
     Forall (fun e => entry_is_dir e = true) ds /\
     Forall (fun e => entry_is_dir e = false) fs) /\
  Sorted (fun a b => entry_is_dir a = entry_is_dir b -> kle (k a) (k b) = true) r.
Proof.
  intros Htot r. split; [apply sort_by_perm|].
  pose proof (sort_by_sorted (pair_le kle) (fun x => (negb (entry_is_dir x), k x)) false l
                (pair_le_total kle Htot)) as Hs.
  fold r in Hs. simpl in Hs. split.
  - apply dirs_first_split. eapply Sorted_weaken; [|exact Hs].
    intros a b. apply pair_le_dirs.
  - eapply Sorted_weaken; [|exact Hs]. intros a b. apply pair_le_same.
Qed.

Lemma Sorted_app_groups (R : entry -> entry -> Prop) ds fs :
  Sorted R ds -> Sorted R fs ->
  Forall (fun e => entry_is_dir e = true) ds ->
  Forall (fun e => entry_is_dir e = false) fs ->
  Sorted (fun a b => entry_is_dir a = entry_is_dir b -> R a b) (ds ++ fs).
Proof.
  intros Hd Hf Hds Hfs. induction Hd as [|a ds Hd IH Hh]; simpl.
  - eapply Sorted_weaken; [|exact Hf]. auto.
  - apply Forall_cons_1 in Hds as [Ha Hds]. constructor; [by apply IH|].
    destruct Hh as [|b ds' Hab]; simpl.
    + destruct fs as [|f fs]; constructor.
      apply Forall_cons_1 in Hfs as [Hf0 _]. intros E. congruence.
    + constructor. auto.
Qed.

Lemma reversed_groups (k : entry -> string) (l : list entry) :
  let dirs := sort_by String.leb k true (List.filter (fun e => entry_is_dir e) l) in
  let files := sort_by String.leb k true (List.filter (fun e => negb (entry_is_dir e)) l) in
  dirs ++ files ≡ₚ l /\
  Forall (fun e => entry_is_dir e = true) dirs /\
  Forall (fun e => entry_is_dir e = false) files /\
  Sorted (fun a b => entry_is_dir a = entry_is_dir b -> String.leb (k b) (k a) = true)
         (dirs ++ files).
Proof.
  intros dirs files.
  assert (Hd : Forall (fun e => entry_is_dir e = true) dirs).
  { unfold dirs. rewrite sort_by_perm. apply Forall_forall. intros e He.
    apply list_elem_of_In, filter_In in He. tauto. }
  assert (Hf : Forall (fun e => entry_is_dir e = false) files).
  { unfold files. rewrite sort_by_perm. apply Forall_forall. intros e He.
    apply list_elem_of_In, filter_In in He. destruct He as [_ He].
    by destruct (entry_is_dir e). }
  split; [|split; [done|split; [done|]]].
  - unfold dirs, files. rewrite !sort_by_perm. apply filter_split_perm.
  - apply (Sorted_app_groups (fun a b => String.leb (k b) (k a) = true)); try done.
    + apply (sort_by_sorted String.leb k true). apply String.leb_total.
    + apply (sort_by_sorted String.leb k true). apply String.leb_total.
Qed.

(** X20: sorting the listing loses nothing and keeps the directories first.
    Whatever the sort order is (one of the eight of the dialog, or any
    other string read from the configuration), the sorted list has
    exactly the entries of the given one, each as often, and all the
    directories come before all the files. *)
Theorem sort_entries_keeps_all_and_puts_directories_first
    (lower : string -> string) (sort_order : string) (entries : list entry) :
  _sort_entries lower sort_order entries ≡ₚ entries /\
  exists ds fs,
    _sort_entries lower sort_order entries = ds ++ fs /\
    Forall (fun e => entry_is_dir e = true) ds /\
    Forall (fun e => entry_is_dir e = false) fs.
Proof.
  assert (Hpair : forall K (kle : K -> K -> bool) (k : entry -> K),
            (forall a b, kle a b = true \/ kle b a = true) ->
            let r := sort_by (pair_le kle) (fun x => (negb (entry_is_dir x), k x)) false
                       entries in
            r ≡ₚ entries /\
            exists ds fs, r = ds ++ fs /\
              Forall (fun e => entry_is_dir e = true) ds /\
              Forall (fun e => entry_is_dir e = false) fs).
  { intros K kle k Htot r.
    destruct (sorted_by_pair_dirs_first kle k entries Htot) as (H1 & H2 & _). by split. }
  assert (Hrev : forall (k0 k : entry -> string),
            let sorted := sort_by (pair_le String.leb)
                            (fun x => (negb (entry_is_dir x), k0 x)) false entries in
            let r := sort_by String.leb k true (List.filter (fun e => entry_is_dir e) sorted)
                     ++ sort_by String.leb k true
                          (List.filter (fun e => negb (entry_is_dir e)) sorted) in
            r ≡ₚ entries /\
            exists ds fs, r = ds ++ fs /\
              Forall (fun e => entry_is_dir e = true) ds /\
              Forall (fun e => entry_is_dir e = false) fs).
  { intros k0 k sorted r.
    destruct (reversed_groups k sorted) as (H1 & H2 & H3 & _). split.
    - unfold r. rewrite H1. apply sort_by_perm.
    - by eexists _, _. }
  unfold _sort_entries.
  destruct (String.eqb (before_last "_" sort_order) "name").
  { destruct (endswith sort_order "_desc"); [apply Hrev|apply Hpair, String.leb_total]. }
  destruct (String.eqb (before_last "_" sort_order) "size").
  { apply Hpair, Zleb_total. }
  destruct (String.eqb (before_last "_" sort_order) "date").
  { apply Hpair, Qle_bool_total. }
  destruct (String.eqb (before_last "_" sort_order) "ext").
  { destruct (endswith sort_order "_desc"); [apply Hrev|apply Hpair, String.leb_total]. }
  apply Hpair, String.leb_total.
Qed.

Lemma Zleb_opp (a b : Z) : Z.leb (- a) (- b) = Z.leb b a.
Proof. destruct (Z.leb_spec (- a) (- b)), (Z.leb_spec b a); lia. Qed.

Lemma Qle_bool_opp (a b : QArith_base.Q) :
  QArith_base.Qle_bool (QArith_base.Qopp a) (QArith_base.Qopp b) = true ->
  QArith_base.Qle_bool b a = true.
Proof.
  rewrite !QArith_base.Qle_bool_iff. intros H.
  apply QArith_base.Qopp_le_compat in H.
  by rewrite !QArith_base.Qopp_involutive in H.
Qed.

(** X21: within the directories and within the files, the listing is in
    the order chosen in the sort dialog.  For each of its eight options,
    any two neighbours of the same kind are in that order: by lower-cased
    name, by size, by time stamp or by lower-cased extension, ascending
    or descending. *)
Theorem sort_entries_orders_each_group
    (lower : string -> string) (entries : list entry) :
  let ordered (sort_order : string) (R : entry -> entry -> Prop) :=
    Sorted (fun a b => entry_is_dir a = entry_is_dir b -> R a b)
           (_sort_entries lower sort_order entries) in
  ordered "name_asc"
    (fun a b => String.leb (lower (entry_name a)) (lower (entry_name b)) = true) /\
  ordered "name_desc"
    (fun a b => String.leb (lower (entry_name b)) (lower (entry_name a)) = true) /\
  ordered "size_asc" (fun a b => (entry_size a <= entry_size b)%Z) /\
  ordered "size_desc" (fun a b => (entry_size b <= entry_size a)%Z) /\
  ordered "date_asc" (fun a b => QArith_base.Qle (entry_mtime a) (entry_mtime b)) /\
  ordered "date_desc" (fun a b => QArith_base.Qle (entry_mtime b) (entry_mtime a)) /\
  ordered "ext_asc"
    (fun a b => String.leb (get_ext lower (entry_name a)) (get_ext lower (entry_name b)) = true) /\
  ordered "ext_desc"
    (fun a b => String.leb (get_ext lower (entry_name b)) (get_ext lower (entry_name a)) = true).
Proof.
  intros ordered. unfold ordered.
  assert (Hasc : forall K (kle : K -> K -> bool) (k : entry -> K),
            (forall a b, kle a b = true \/ kle b a = true) ->
            Sorted (fun a b => entry_is_dir a = entry_is_dir b -> kle (k a) (k b) = true)
              (sort_by (pair_le kle) (fun x => (negb (entry_is_dir x), k x)) false entries)).
  { intros K kle k Htot. by destruct (sorted_by_pair_dirs_first kle k entries Htot) as (_ & _ & H). }
  repeat split.
  - change (_sort_entries lower "name_asc" entries) with
      (sort_by (pair_le String.leb)
         (fun x => (negb (entry_is_dir x), lower (entry_name x))) false entries).
    apply (Hasc _ String.leb), String.leb_total.
  - change (_sort_entries lower "name_desc" entries) with
      (let sorted := sort_by (pair_le String.leb)
                       (fun x => (negb (entry_is_dir x), lower (entry_name x))) false entries in
       sort_by String.leb (fun x => lower (entry_name x)) true
         (List.filter (fun e => entry_is_dir e) sorted) ++
       sort_by String.leb (fun x => lower (entry_name x)) true
         (List.filter (fun e => negb (entry_is_dir e)) sorted)).
    apply reversed_groups.
  - change (_sort_entries lower "size_asc" entries) with
      (sort_by (pair_le Z.leb)
         (fun x => (negb (entry_is_dir x), entry_size x)) false entries).
    eapply Sorted_weaken; [|apply (Hasc _ Z.leb), Zleb_total].
    intros a b H E. by apply Z.leb_le, H.
  - change (_sort_entries lower "size_desc" entries) with
      (sort_by (pair_le Z.leb)
         (fun x => (negb (entry_is_dir x), (- entry_size x)%Z)) false entries).
    eapply Sorted_weaken; [|apply (Hasc _ Z.leb), Zleb_total].
    intros a b H E. simpl in H. specialize (H E). rewrite Zleb_opp in H. by apply Z.leb_le.
  - change (_sort_entries lower "date_asc" entries) with
      (sort_by (pair_le QArith_base.Qle_bool)
         (fun x => (negb (entry_is_dir x), entry_mtime x)) false entries).
    eapply Sorted_weaken; [|apply (Hasc _ QArith_base.Qle_bool), Qle_bool_total].
    intros a b H E. by apply QArith_base.Qle_bool_iff, H.
  - change (_sort_entries lower "date_desc" entries) with
      (sort_by (pair_le QArith_base.Qle_bool)
         (fun x => (negb (entry_is_dir x), QArith_base.Qopp (entry_mtime x))) false entries).
    eapply Sorted_weaken; [|apply (Hasc _ QArith_base.Qle_bool), Qle_bool_total].
    intros a b H E. by apply QArith_base.Qle_bool_iff, Qle_bool_opp, H.
  - change (_sort_entries lower "ext_asc" entries) with
      (sort_by (pair_le String.leb)
         (fun x => (negb (entry_is_dir x), get_ext lower (entry_name x))) false entries).
    apply (Hasc _ String.leb), String.leb_total.
  - change (_sort_entries lower "ext_desc" entries) with
      (let sorted := sort_by (pair_le String.leb)
                       (fun x => (negb (entry_is_dir x), get_ext lower (entry_name x)))
                       false entries in
       sort_by String.leb (fun x => get_ext lower (entry_name x)) true
         (List.filter (fun e => entry_is_dir e) sorted) ++
       sort_by String.leb (fun x => get_ext lower (entry_name x)) true
         (List.filter (fun e => negb (entry_is_dir e)) sorted)).
    apply reversed_groups.
Qed.


(** * The code where a backup name is taken *)

(** C1, the code at a failing input: the backup directory still holds a
    directory 0_x (left by an earlier run, or by an undo that failed), and
    the history is empty, so that [record_delete] picks the name 0_x again.
    Deleting the file 0_x/y/x is recorded with success: the copy lands
    inside the directory 0_x, at 0_x/x, and the entry names 0_x as its
    backup.  The file is removed, the backup path exists and the entry is
    at the tail, yet [undo] reports failure: it copies the directory 0_x
    into its own subdirectory y, which ends with an exception.  The entry
    has left the history, the deleted file is not back (what the
    interrupted copy left is a directory at its path), and the copy of the
    file stays in the backup directory. *)
Theorem delete_inside_reused_backup_cannot_be_undone :
  let p := store_ex ++ ["0_x"; "y"; "x"] in
  let bp := backup_target (mgr world_leftover) p in
  let w1 := snd (record_delete p world_leftover) in
  let w2 := snd (delete_file p w1) in
  let u := undo w2 in
  fst (init 50 ["tmp"] disk_leftover) = Ok tt /\
  history (mgr world_leftover) = [] /\
  node_at (disk world_leftover) p = Some (File "data") /\
  bp = store_ex ++ ["0_x"] /\
  is_dir (disk world_leftover) bp = true /\
  record_delete p world_leftover = (Ok true, w1) /\
  node_at (disk w1) (bp ++ ["x"]) = Some (File "data") /\
  history (mgr w1) = [] ++ [mkAction DELETE p None (Some bp)] /\
  delete_file p w1 = (Ok true, w2) /\
  node_at (disk w2) p = None /\
  exists_ (disk w2) bp = true /\
  fst u = Ok (false, "Undo failed: " +:+ exn_text (fst (nested_copy (disk w2) bp p))) /\
  history (mgr (snd u)) = [] /\
  is_dir (disk (snd u)) p = true /\
  node_at (disk (snd u)) (bp ++ ["x"]) = Some (File "data").
Proof. vm_compute. repeat split; reflexivity. Qed.

End Engine.

(** * The theorems at concrete inputs

    The examples run on an interpreter for which a nested copy leaves an
    empty directory behind, the stack has room for nine hundred nested
    calls, and a deeper loop raises at once. *)

#[global] Instance interpreter_ex : Interpreter :=
  {| nested_copy := fun _ _ _ => (RecursionError, ∅);
     stack_room := 900;
     stack_overflow := fun _ _ _ => raise RecursionError |}.

(** ** The code at concrete inputs *)

(** C4, the code at a failing input: with max_history = 2, after the files
    a/x, b/x and c/x have been deleted the history holds the entries of b/x
    and c/x, and the name [record_delete] picks for d/x is 2_x, the backup
    of the live entry of c/x.  Recording d/x overwrites that backup (it
    held "C", it now holds "D") and leaves two entries sharing it; the
    first [undo] restores d/x and removes the backup, the second finds no
    backup for c/x. *)
Theorem backup_name_reused_after_eviction :
  let w3 := three_deleted in
  let w4 := snd (delete_item ["d"; "x"] w3) in
  let u1 := undo w4 in
  let u2 := undo (snd u1) in
  history (mgr w3) = [delete_entry ["b"; "x"] "1_x"; delete_entry ["c"; "x"] "2_x"] /\
  backup_target (mgr w3) ["d"; "x"] = store_ex ++ ["2_x"] /\
  node_at (disk w3) (store_ex ++ ["2_x"]) = Some (File "C") /\
  fst (record_delete ["d"; "x"] w3) = Ok true /\
  history (mgr w4) = [delete_entry ["c"; "x"] "2_x"; delete_entry ["d"; "x"] "2_x"] /\
  node_at (disk w4) (store_ex ++ ["2_x"]) = Some (File "D") /\
  fst u1 = Ok (true, "Undid delete: restored x") /\
  node_at (disk (snd u1)) ["d"; "x"] = Some (File "D") /\
  fst u2 = Ok (false, "Cannot undo: backup not found") /\
  node_at (disk (snd u2)) ["c"; "x"] = None.
Proof. vm_compute. repeat split; reflexivity. Qed.

(** X22: a reused backup name can make [undo] put another item in place
    of the deleted one.  With max_history = 2, after the files a/x and b/x
    and the directory c/x have been deleted, the name [record_delete]
    picks for the file d/x is 2_x, the backup of the directory c/x, which
    is still in the history.  The copy of d/x lands inside that directory
    and the new entry names the whole directory as its backup.  After the
    deletion, [undo] reports d/x restored, but what it puts at d/x is the
    directory: the backup of c/x with the file x in it.  The backup 2_x is
    then removed, so that the entry of c/x has lost its backup. *)
Theorem undo_after_name_reuse_restores_a_directory :
  let w3 := three_deleted_mixed in
  let p := ["d"; "x"] in
  let bp := backup_target (mgr w3) p in
  let r := record_delete p w3 in
  let w4 := snd (delete_file p (snd r)) in
  let u1 := undo w4 in
  let u2 := undo (snd u1) in
  node_at (disk w3) p = Some (File "D") /\
  history (mgr w3) = [delete_entry ["b"; "x"] "1_x"; delete_entry ["c"; "x"] "2_x"] /\
  bp = store_ex ++ ["2_x"] /\
  node_at (disk w3) bp = Some (Dir {[ "f" := File "C" ]}) /\
  fst r = Ok true /\
  history (mgr (snd r)) = [delete_entry ["c"; "x"] "2_x"; delete_entry p "2_x"] /\
  node_at (disk (snd r)) bp = Some (Dir {[ "f" := File "C"; "x" := File "D" ]}) /\
  delete_file p (snd r) = (Ok true, w4) /\
  node_at (disk w4) p = None /\
  fst u1 = Ok (true, "Undid delete: restored x") /\
  node_at (disk (snd u1)) p = Some (Dir {[ "f" := File "C"; "x" := File "D" ]}) /\
  node_at (disk (snd u1)) bp = None /\
  history (mgr (snd u1)) = [delete_entry ["c"; "x"] "2_x"] /\
  fst u2 = Ok (false, "Cannot undo: backup not found") /\
  node_at (disk (snd u2)) ["c"; "x"] = None.
Proof. vm_compute. repeat split; reflexivity. Qed.

(** C3, counterexample to the claim as stated: on a manager with
    max_history = 1, two calls of [record_delete] for a path that does not
    exist both answer [False] (the backup copy fails) and record nothing:
    after N = 2 recording calls the history holds no entry, not M = 1.
    And on a manager built with max_history = -1, after one [record_mkdir]
    the history is empty, so that its length, 0, is above max_history. *)
Lemma failed_backups_and_negative_bound_break_the_count :
  let w0 := snd (init 1 ["tmp"] disk_files) in
  let calls := [Record (RecordDelete ["nowhere"]); Record (RecordDelete ["nowhere"])] in
  let r1 := record_delete ["nowhere"] w0 in
  let r2 := record_delete ["nowhere"] (snd r1) in
  let n0 := snd (init (-1) ["tmp"] disk_files) in
  let m1 := record_mkdir ["a"; "new"] n0 in
  Forall recording calls /\
  count_records calls = 2%nat /\
  max_history (mgr w0) = 1%Z /\
  fst r1 = Ok false /\
  fst r2 = Ok false /\
  run calls w0 = snd r2 /\
  history (mgr (run calls w0)) = [] /\
  length (history (mgr (run calls w0))) <> 1%nat /\
  max_history (mgr n0) = (-1)%Z /\
  fst m1 = Ok tt /\
  history (mgr (snd m1)) = [] /\
  ~ (Z.of_nat (length (history (mgr (snd m1)))) <= max_history (mgr (snd m1)))%Z.
Proof.
  vm_compute. repeat split; try reflexivity; try discriminate.
  - repeat constructor.
  - intros H. by apply H.
Qed.

(** C7, counterexample to the claim as stated: the temporary directory
    holds the backup directory, so that the backup copy of the temporary
    directory goes into one of its own subdirectories and fails.
    [record_delete] answers [False] and the history is as before, but the
    backup directory, empty before the call, now holds what the interrupted
    copy left under the name 0_tmp. *)
Lemma failed_backup_of_a_directory_above_the_store_leaves_an_entry :
  let w := world_files 50 in
  let p := ["tmp"] in
  let bp := backup_target (mgr w) p in
  let r := record_delete p w in
  backups_in_store (mgr w) /\
  bp = store_ex ++ ["0_tmp"] /\
  is_dir (disk w) p = true /\
  is_dir (disk w) store_ex = true /\
  into_itself (disk w) p bp = true /\
  (exists e, backup_copy (disk w) p bp = Raise e) /\
  fst r = Ok false /\
  mgr (snd r) = mgr w /\
  exists_ (disk w) bp = false /\
  entry_count (disk w) store_ex = 0%nat /\
  exists_ (disk (snd r)) bp = true /\
  entry_count (disk (snd r)) store_ex = 1%nat /\
  snd r <> w.
Proof.
  vm_compute. repeat split; try reflexivity; try discriminate.
  - constructor.
  - by eexists.
Qed.

(** C5, counterexample to the claim as stated: record the deletion of the
    directory d and call [undo] while d is still there.  The restoring copy
    raises (the destination exists), [undo] reports "Undo failed", the entry
    has left the history and its backup stays: one entry in the backup
    directory, no Delete entry in the history. *)
Lemma orphan_backup_after_failed_undo :
  let w1 := run [Record (RecordDelete ["d"])] world_dirs in
  let w2 := run [Record (RecordDelete ["d"]); Undo] world_dirs in
  fst (init 50 ["tmp"] disk_dirs) = Ok tt /\
  entry_count (disk world_dirs) (backup_dir (mgr world_dirs)) = 0%nat /\
  history (mgr w1) = [delete_entry ["d"] "0_d"] /\
  fst (undo w1) = Ok (false, "Undo failed: File exists") /\
  history (mgr w2) = [] /\
  entry_count (disk w2) (backup_dir (mgr w2)) = 1%nat /\
  count_deletes (history (mgr w2)) = 0%nat /\
  ~ (entry_count (disk w2) (backup_dir (mgr w2)) <= count_deletes (history (mgr w2)))%nat.
Proof.
  vm_compute. repeat split; try reflexivity. intros H. inversion H.
Qed.

(** ** The theorems at concrete inputs *)

Lemma delete_then_undo_restores_witness :
  let w := world_files 50 in
  let p := ["a"; "x"] in
  let bp := backup_target (mgr w) p in
  let w1 := snd (record_delete p w) in
  let w2 := snd (delete_file p w1) in
  record_delete p w = (Ok true, w1) /\
  history (mgr w1) = [] ++ [mkAction DELETE p None (Some bp)] /\
  delete_file p w1 = (Ok true, w2) /\
  is_prefix bp p = false /\
  (exists_ (disk w2) bp = true ->
     exists w3,
       undo w2 = (Ok (true, "Undid delete: restored " +:+ name p), w3) /\
       node_at (disk w3) p = node_at (disk w2) bp /\
       node_at (disk w3) bp = None /\
       mgr w3 = set_mgr_history (mgr w1) [] /\
       (backups_in_store (mgr w) -> exists_ (disk w) bp = false ->
        node_at (disk w3) p = node_at (disk w) p)) /\
  (exists_ (disk w2) bp = false ->
     undo w2 = (Ok (false, "Cannot undo: backup not found"), with_history w2 [])).
Proof.
  intros w p bp w1 w2.
  assert (H1 : record_delete p w = (Ok true, w1)) by (vm_compute; reflexivity).
  assert (H2 : history (mgr w1) = [] ++ [mkAction DELETE p None (Some bp)])
    by (vm_compute; reflexivity).
  assert (H3 : delete_file p w1 = (Ok true, w2)) by (vm_compute; reflexivity).
  assert (H4 : is_prefix bp p = false) by (vm_compute; reflexivity).
  split; [exact H1|]. split; [exact H2|]. split; [exact H3|]. split; [exact H4|].
  exact (delete_then_undo_restores w w1 w2 p [] H1 H2 H3 H4).
Defined.

Lemma undo_is_lifo_witness :
  history manager_ex = [] /\
  (3 <= max_history manager_ex)%Z /\
  let r1 := _add_action copy_ex (mkWorld manager_ex disk_files) in
  let r2 := _add_action mkdir_ex (mkWorld (mgr (snd r1)) disk_files) in
  let r3 := _add_action rename_ex (mkWorld (mgr (snd r2)) disk_dirs) in
  let u1 := undo (mkWorld (mgr (snd r3)) disk_dirs) in
  let u2 := undo (mkWorld (mgr (snd u1)) disk_dirs) in
  let u3 := undo (mkWorld (mgr (snd u2)) disk_files) in
  let u4 := undo (mkWorld (mgr (snd u3)) disk_files) in
  history (mgr (snd r3)) = [copy_ex; mkdir_ex; rename_ex] /\
  u1 = reversal rename_ex (mkWorld (set_mgr_history manager_ex [copy_ex; mkdir_ex]) disk_dirs) /\
  u2 = reversal mkdir_ex (mkWorld (set_mgr_history manager_ex [copy_ex]) disk_dirs) /\
  u3 = reversal copy_ex (mkWorld (set_mgr_history manager_ex []) disk_files) /\
  u4 = (Ok (false, "Nothing to undo"), mkWorld (set_mgr_history manager_ex []) disk_files).
Proof.
  assert (H1 : history manager_ex = []) by reflexivity.
  assert (H2 : (3 <= max_history manager_ex)%Z) by (simpl; lia).
  split; [exact H1|]. split; [exact H2|].
  exact (undo_is_lifo manager_ex copy_ex mkdir_ex rename_ex
           disk_files disk_files disk_dirs disk_dirs disk_dirs disk_files disk_files H1 H2).
Defined.

Lemma bounded_history_keeps_most_recent_witness :
  (0 <= 2)%Z /\
  Forall recording session_ex /\
  let w0 := snd (init 2 ["tmp"] disk_files) in
  let recorded := log session_ex w0 in
  (all_recorded session_ex w0 -> length recorded = count_records session_ex) /\
  (forall k, (Z.of_nat (length (history (mgr (run (take k session_ex) w0)))) <= 2)%Z) /\
  ((2 < Z.of_nat (length recorded))%Z ->
     history (mgr (run session_ex w0)) = drop (length recorded - Z.to_nat 2) recorded /\
     Z.of_nat (length (history (mgr (run session_ex w0)))) = 2%Z) /\
  (forall k q a oldest rest bp,
     session_ex !! k = Some (Record q) ->
     let w := run (take k session_ex) w0 in
     logged q w = Some a ->
     (2 < Z.of_nat (length (history (mgr w) ++ [a])))%Z ->
     history (mgr w) ++ [a] = oldest :: rest ->
     backup_path oldest = Some bp ->
     history (mgr (step (Record q) w)) = rest /\
     node_at (disk (step (Record q) w)) bp = None).
Proof.
  assert (H1 : (0 <= 2)%Z) by lia.
  assert (H2 : Forall recording session_ex) by (repeat constructor).
  split; [exact H1|]. split; [exact H2|].
  exact (bounded_history_keeps_most_recent 2 ["tmp"] disk_files session_ex H1 H2).
Defined.

Lemma backups_never_outnumber_delete_entries_witness :
  entry_count disk_files (["tmp"] ++ ["mocommander_undo"]) = 0%nat /\
  tame tame_ex (snd (init 50 ["tmp"] disk_files)) /\
  forall k,
    let w := run (take k tame_ex) (snd (init 50 ["tmp"] disk_files)) in
    owned w /\
    (entry_count (disk w) (backup_dir (mgr w)) <= count_deletes (history (mgr w)))%nat.
Proof.
  assert (H1 : entry_count disk_files (["tmp"] ++ ["mocommander_undo"]) = 0%nat)
    by (vm_compute; reflexivity).
  assert (H2 : tame tame_ex (snd (init 50 ["tmp"] disk_files))).
  { split; [split; vm_compute; reflexivity|].
    split; [split; vm_compute; reflexivity|].
    split.
    { intros a rest Hp Ht. vm_compute in Hp. injection Hp as <- <-. discriminate Ht. }
    split; [|exact I].
    intros a rest Hp Ht. vm_compute in Hp. injection Hp as <- <-.
    eexists. vm_compute. reflexivity. }
  split; [exact H1|]. split; [exact H2|].
  exact (backups_never_outnumber_delete_entries 50 ["tmp"] disk_files tame_ex H1 H2).
Defined.

Lemma undo_pops_exactly_the_tail_witness :
  history (mgr world_mkdir) <> [] /\
  exists (success : bool) (message : string) (w' : World),
    undo world_mkdir = (Ok (success, message), w') /\
    history (mgr w') = removelast (history (mgr world_mkdir)) /\
    (length (history (mgr w')) + 1 = length (history (mgr world_mkdir)))%nat /\
    max_history (mgr w') = max_history (mgr world_mkdir) /\
    tmpdir (mgr w') = tmpdir (mgr world_mkdir).
Proof.
  assert (H1 : history (mgr world_mkdir) <> []) by (vm_compute; discriminate).
  split; [exact H1|]. exact (undo_pops_exactly_the_tail world_mkdir H1).
Defined.

Lemma record_delete_all_or_nothing_witness :
  let w := world_files 50 in
  let p := ["a"; "x"] in
  backups_in_store (mgr w) /\
  let bp := backup_target (mgr w) p in
  let entry := mkAction DELETE p None (Some bp) in
  (fst (record_delete p w) = Ok true <->
     exists fs1, backup_copy (disk w) p bp = Ok fs1) /\
  (forall fs1, backup_copy (disk w) p bp = Ok fs1 ->
     record_delete p w = (Ok true, snd (_add_action entry (mkWorld (mgr w) fs1))) /\
     history (mgr (snd (record_delete p w))) = appended (mgr w) entry) /\
  (forall e, backup_copy (disk w) p bp = Raise e ->
     exists w', record_delete p w = (Ok false, w') /\ mgr w' = mgr w /\
       (into_itself (disk w) p bp = false -> w' = w) /\
       (forall q, disjoint bp q -> node_at (disk w') q = node_at (disk w) q)).
Proof.
  intros w p.
  assert (H1 : backups_in_store (mgr w)) by (vm_compute; constructor).
  split; [exact H1|]. exact (record_delete_all_or_nothing w p H1).
Defined.

Lemma undo_mkdir_never_destroys_data_witness :
  let w := world_mkdir in
  let a := mkdir_ex in
  history (mgr w) = [] ++ [a] /\
  action_type a = MKDIR /\
  (forall es, node_at (disk w) (source a) = Some (Dir es) -> es <> ∅ ->
     undo w = (Ok (false, "Cannot undo: " +:+ name (source a) +:+ " is not empty"),
               with_history w [])) /\
  (is_dir (disk w) (source a) = false ->
     undo w = (Ok (false, "Cannot undo: " +:+ name (source a) +:+ " no longer exists"),
               with_history w [])) /\
  (forall message w', undo w = (Ok (true, message), w') ->
     node_at (disk w) (source a) = Some (Dir ∅) /\
     message = "Undid mkdir: removed " +:+ name (source a) /\
     mgr w' = mgr (with_history w []) /\
     remove (disk w) (source a) = Some (disk w') /\
     node_at (disk w') (source a) = None /\
     (forall q, disjoint (source a) q -> node_at (disk w') q = node_at (disk w) q)) /\
  (node_at (disk w) (source a) = Some (Dir ∅) -> source a <> [] ->
     exists w', undo w = (Ok (true, "Undid mkdir: removed " +:+ name (source a)), w') /\
                mgr w' = mgr (with_history w []) /\
                remove (disk w) (source a) = Some (disk w') /\
                node_at (disk w') (source a) = None /\
                (forall q, disjoint (source a) q ->
                   node_at (disk w') q = node_at (disk w) q)).
Proof.
  intros w a.
  assert (H1 : history (mgr w) = [] ++ [a]) by (vm_compute; reflexivity).
  assert (H2 : action_type a = MKDIR) by reflexivity.
  split; [exact H1|]. split; [exact H2|].
  exact (undo_mkdir_never_destroys_data w [] a H1 H2).
Defined.

Lemma undo_copy_succeeds_without_destination_witness :
  let w := world_copied in
  let a := mkAction COPY ["a"; "x"] (Some ["a"; "gone"]) None in
  let dst := ["a"; "gone"] in
  history (mgr w) = [] ++ [a] /\
  destination a = Some dst /\
  exists_ (disk w) dst = false /\
  (action_type a = COPY ->
     undo w = (Ok (true, "Undid copy: removed " +:+ name dst), with_history w [])) /\
  (action_type a = MOVE \/ action_type a = RENAME ->
     undo w = (Ok (false, "Cannot undo: " +:+ name dst +:+ " no longer exists"),
               with_history w [])).
Proof.
  intros w a dst.
  assert (H1 : history (mgr w) = [] ++ [a]) by (vm_compute; reflexivity).
  assert (H2 : destination a = Some dst) by reflexivity.
  assert (H3 : exists_ (disk w) dst = false) by (vm_compute; reflexivity).
  split; [exact H1|]. split; [exact H2|]. split; [exact H3|].
  exact (undo_copy_succeeds_without_destination w [] a dst H1 H2 H3).
Defined.

(** ** The further properties *)

Lemma undo_copy_removes_whatever_is_there_witness :
  let m : path -> path -> fs_effect := fun _ _ fs => (Raise ShutilError, fs) in
  let w := snd (copy_item m ["a"; "x"] ["b"; "x"] (world_files 50)) in
  let a := mkAction COPY ["a"; "x"] (Some ["b"; "x"]) None in
  let dst := ["b"; "x"] in
  history (mgr w) = [] ++ [a] /\
  node_at (disk w) dst = Some (File "A") /\
  exists w',
    undo w = (Ok (true, "Undid copy: removed " +:+ name dst), w') /\
    mgr w' = set_mgr_history (mgr w) [] /\
    node_at (disk w') dst = None /\
    (forall q, disjoint dst q -> node_at (disk w') q = node_at (disk w) q).
Proof.
  intros m w a dst.
  assert (H1 : history (mgr w) = [] ++ [a]) by (vm_compute; reflexivity).
  assert (H2 : action_type a = COPY) by reflexivity.
  assert (H3 : destination a = Some dst) by reflexivity.
  assert (H4 : node_at (disk w) dst = Some (File "A")) by (vm_compute; reflexivity).
  assert (H5 : dst <> []) by discriminate.
  split; [exact H1|]. split; [exact H4|].
  exact (undo_copy_removes_whatever_is_there w [] a dst (File "A") H1 H2 H3 H4 H5).
Defined.

Lemma copy_then_undo_round_trip_witness :
  let m : path -> path -> fs_effect := fun _ _ fs => (Raise ShutilError, fs) in
  let w := world_files 50 in
  let src := ["a"; "x"] in
  let dst := ["b"; "y"] in
  let w1 := snd (copy_item m src dst w) in
  node_at (disk w) dst = None /\
  copy_item m src dst w = (Ok true, w1) /\
  (exists x, node_at (disk w) src = Some x /\ node_at (disk w1) dst = Some x) /\
  undo w1 = (Ok (true, "Undid copy: removed " +:+ name dst), w).
Proof.
  intros m w src dst w1.
  assert (H1 : node_at (disk w) dst = None) by (vm_compute; reflexivity).
  assert (H2 : node_at (disk w) (parent dst) = Some (Dir {[ "x" := File "B" ]}))
    by (vm_compute; reflexivity).
  assert (H3 : (Z.of_nat (length (history (mgr w))) < max_history (mgr w))%Z)
    by (vm_compute; reflexivity).
  assert (H4 : copy_item m src dst w = (Ok true, w1)) by (vm_compute; reflexivity).
  split; [exact H1|]. split; [exact H4|].
  exact (copy_then_undo_round_trip m w w1 src dst _ H1 H2 H3 H4).
Defined.

Lemma copy_onto_existing_then_undo_removes_it_witness :
  let m : path -> path -> fs_effect := fun _ _ fs => (Raise ShutilError, fs) in
  let w := world_files 50 in
  let src := ["a"; "x"] in
  let dst := ["b"] in
  let w1 := snd (copy_item m src dst w) in
  node_at (disk w) dst = Some (Dir {[ "x" := File "B" ]}) /\
  copy_item m src dst w = (Ok true, w1) /\
  exists w2,
    undo w1 = (Ok (true, "Undid copy: removed " +:+ name dst), w2) /\
    mgr w2 = mgr w /\
    forall q, node_at (disk w2) (dst ++ q) = None.
Proof.
  intros m w src dst w1.
  assert (H1 : node_at (disk w) src = Some (File "A")) by (vm_compute; reflexivity).
  assert (H2 : node_at (disk w) dst = Some (Dir {[ "x" := File "B" ]}))
    by (vm_compute; reflexivity).
  assert (H3 : dst <> []) by discriminate.
  assert (H4 : (Z.of_nat (length (history (mgr w))) < max_history (mgr w))%Z)
    by (vm_compute; reflexivity).
  assert (H5 : copy_item m src dst w = (Ok true, w1)) by (vm_compute; reflexivity).
  split; [exact H2|]. split; [exact H5|].
  exact (copy_onto_existing_then_undo_removes_it m w w1 src dst "A" _ H1 H2 H3 H4 H5).
Defined.




Lemma mkdir_with_missing_parent_undo_leaves_parent_witness :
  let w := world_files 50 in
  let q := ["new"] in
  let c := "sub" in
  let w1 := snd (mkdir_item (q ++ [c]) w) in
  node_at (disk w) q = None /\
  mkdir_item (q ++ [c]) w = (Ok true, w1) /\
  node_at (disk w1) q = Some (Dir {[ c := empty_dir ]}) /\
  exists w2,
    undo w1 = (Ok (true, "Undid mkdir: removed " +:+ c), w2) /\
    mgr w2 = mgr w /\
    node_at (disk w2) q = Some empty_dir.
Proof.
  intros w q c w1.
  assert (H1 : node_at (disk w) q = None) by (vm_compute; reflexivity).
  assert (H2 : (Z.of_nat (length (history (mgr w))) < max_history (mgr w))%Z)
    by (vm_compute; reflexivity).
  assert (H3 : mkdir_item (q ++ [c]) w = (Ok true, w1)) by (vm_compute; reflexivity).
  split; [exact H1|]. split; [exact H3|].
  exact (mkdir_with_missing_parent_undo_leaves_parent w w1 q c H1 H2 H3).
Defined.

Lemma mkdir_on_existing_directory_is_recorded_witness :
  let w := world_files 50 in
  let p := ["tmp"; "mocommander_undo"] in
  let es : gmap string node := ∅ in
  node_at (disk w) p = Some (Dir es) /\
  exists w1,
    mkdir_item p w = (Ok true, w1) /\
    disk w1 = disk w /\
    (es = ∅ ->
       exists w2, undo w1 = (Ok (true, "Undid mkdir: removed " +:+ name p), w2) /\
                  node_at (disk w2) p = None) /\
    (es <> ∅ ->
       undo w1 = (Ok (false, "Cannot undo: " +:+ name p +:+ " is not empty"), w)).
Proof.
  intros w p es.
  assert (H1 : node_at (disk w) p = Some (Dir es)) by (vm_compute; reflexivity).
  assert (H2 : p <> []) by discriminate.
  assert (H3 : (Z.of_nat (length (history (mgr w))) < max_history (mgr w))%Z)
    by (vm_compute; reflexivity).
  split; [exact H1|].
  exact (mkdir_on_existing_directory_is_recorded w p es H1 H2 H3).
Defined.


Lemma delete_file_removes_exactly_the_item_witness :
  let w := world_files 50 in
  let p := ["a"; "x"] in
  (node_at (disk w) p = None -> delete_file p w = (Ok false, w)) /\
  (forall x, node_at (disk w) p = Some x ->
     exists fs',
       delete_file p w = (Ok true, mkWorld (mgr w) fs') /\
       (forall q, node_at fs' (p ++ q) = None) /\
       (forall q, disjoint p q -> node_at fs' q = node_at (disk w) q)).
Proof.
  intros w p.
  assert (H1 : p <> []) by discriminate.
  exact (delete_file_removes_exactly_the_item w p H1).
Defined.

Lemma delete_without_backup_is_final_witness :
  let w := mkWorld manager_ex disk_files in
  let p := ["a"; "x"] in
  node_at (disk w) p = Some (File "A") /\
  backup_copy (disk w) p (backup_target (mgr w) p) = Raise FileNotFoundError /\
  exists fs',
    delete_item p w = (Ok true, mkWorld (mgr w) fs') /\
    node_at fs' p = None /\
    forall q, disjoint p q -> node_at fs' q = node_at (disk w) q.
Proof.
  intros w p.
  assert (H1 : node_at (disk w) p = Some (File "A")) by (vm_compute; reflexivity).
  assert (H2 : p <> []) by discriminate.
  assert (H3 : backup_copy (disk w) p (backup_target (mgr w) p) = Raise FileNotFoundError)
    by (vm_compute; reflexivity).
  split; [exact H1|]. split; [exact H3|].
  exact (delete_without_backup_is_final w p _ _ H1 H2 H3).
Defined.

Lemma zero_bound_record_delete_keeps_nothing_witness :
  let w := world_files 0 in
  let p := ["a"; "x"] in
  let w1 := snd (record_delete p w) in
  record_delete p w = (Ok true, w1) /\
  history (mgr w1) = [] /\
  node_at (disk w1) (backup_target (mgr w) p) = None /\
  undo w1 = (Ok (false, "Nothing to undo"), w1).
Proof.
  intros w p w1.
  assert (H1 : (max_history (mgr w) <= 0)%Z) by (vm_compute; discriminate).
  assert (H2 : history (mgr w) = []) by (vm_compute; reflexivity).
  assert (H3 : record_delete p w = (Ok true, w1)) by (vm_compute; reflexivity).
  split; [exact H3|].
  exact (zero_bound_record_delete_keeps_nothing w w1 p H1 H2 H3).
Defined.


Lemma transfer_counts_every_item_witness :
  let m : path -> path -> fs_effect := fun _ _ fs => (Raise ShutilError, fs) in
  let w := world_files 50 in
  let target := ["b"] in
  let items := [["a"; "x"]; ["nowhere"]; ["c"; "x"]] in
  (exists s f w',
     transfer_items (copy_item m) target items 0 0 w = (Ok (s, f), w') /\
     (s + f = length items)%nat /\
     length (history (mgr w')) = (length (history (mgr w)) + s)%nat) /\
  (exists s f w',
     transfer_items move_item target items 0 0 w = (Ok (s, f), w') /\
     (s + f = length items)%nat /\
     length (history (mgr w')) = (length (history (mgr w)) + s)%nat).
Proof.
  intros m w target items.
  assert (H1 : (Z.of_nat (length (history (mgr w)) + length items) <= max_history (mgr w))%Z)
    by (vm_compute; discriminate).
  exact (transfer_counts_every_item m target items w H1).
Defined.

Lemma undo_touches_only_the_entry_witness :
  let w := snd (delete_item ["a"; "x"] (world_files 50)) in
  let a := mkAction DELETE ["a"; "x"] None (Some ["tmp"; "mocommander_undo"; "0_x"]) in
  let q := ["b"; "x"] in
  history (mgr w) = [] ++ [a] /\
  node_at (disk (snd (undo w))) q = node_at (disk w) q.
Proof.
  intros w a q.
  assert (H1 : history (mgr w) = [] ++ [a]) by (vm_compute; reflexivity).
  assert (H2 : disjoint (source a) q) by (split; reflexivity).
  assert (H3 : forall d, destination a = Some d -> disjoint d q) by (intros d; discriminate).
  assert (H4 : forall b, backup_path a = Some b -> disjoint b q)
    by (intros b [= <-]; split; reflexivity).
  split; [exact H1|].
  exact (undo_touches_only_the_entry w [] a q H1 H2 H3 H4).
Defined.

Lemma record_touches_only_the_store_witness :
  let w := world_files 50 in
  let q := ["a"; "x"] in
  backups_in_store (mgr w) /\
  node_at (disk (snd (record (RecordDelete ["a"; "x"]) w))) q = node_at (disk w) q.
Proof.
  intros w q.
  assert (H1 : backups_in_store (mgr w)) by (vm_compute; constructor).
  assert (H2 : disjoint (backup_dir (mgr w)) q) by (split; reflexivity).
  split; [exact H1|].
  exact (record_touches_only_the_store w (RecordDelete ["a"; "x"]) q H1 H2).
Defined.

Lemma cleanup_makes_deletes_unrecoverable_witness :
  let w := snd (delete_item ["a"; "x"] (world_files 50)) in
  let a := mkAction DELETE ["a"; "x"] None (Some ["tmp"; "mocommander_undo"; "0_x"]) in
  history (mgr w) = [] ++ [a] /\
  undo (snd (cleanup w)) =
    (Ok (false, "Cannot undo: backup not found"), with_history (snd (cleanup w)) []).
Proof.
  intros w a.
  assert (H1 : history (mgr w) = [] ++ [a]) by (vm_compute; reflexivity).
  assert (H2 : action_type a = DELETE) by reflexivity.
  assert (H3 : in_store (mgr w) a).
  { intros bp [= <-]. split; [reflexivity|]. exists "0_x". reflexivity. }
  split; [exact H1|].
  exact (cleanup_makes_deletes_unrecoverable w [] a H1 H2 H3).
Defined.

Lemma yes_to_all_deletes_the_selection_witness :
  let w := world_files 50 in
  let items := [["a"; "x"]; ["nowhere"]; ["b"; "x"]] in
  backups_in_store (mgr w) /\
  (length items < stack_room)%nat /\
  exists d f w',
    _delete_multiple_items items (All :: [No; Yes]) w = (Ok (Some (d, f)), w') /\
    _delete_multiple_items items [All] w = (Ok (Some (d, f)), w') /\
    (d + f = length items)%nat /\
    forall p, p ∈ items -> p <> [] -> disjoint (backup_dir (mgr w)) p ->
      node_at (disk w') p = None.
Proof.
  intros w items.
  assert (H1 : backups_in_store (mgr w)) by (vm_compute; constructor).
  assert (H2 : (length items < stack_room)%nat) by (vm_compute; lia).
  split; [exact H1|]. split; [exact H2|].
  exact (yes_to_all_deletes_the_selection items [No; Yes] w H1 H2).
Defined.
